(** * Sentence Highlighter: a shallow embedding of [sentence-highlighter.js]

    The definitions come first and follow the source file top-down:
    JavaScript strings and the few built-ins the engine relies on, the
    identity assigner ([simpleHash], [generateSentenceId]), the tokenizer
    ([buildSentenceMap]), the active-sentence resolution
    ([findActiveSentenceIndex]) and the stateful part of the class
    (listeners, the timer slot, scans, [destroy]).  The properties come
    after them, in the same order. *)

From Stdlib Require Import String Ascii List ZArith NArith Bool Lia.
Import ListNotations.
Open Scope Z_scope.

(** ** JavaScript strings

    A JavaScript string is a sequence of 16-bit code units.  [length],
    [substring], [charCodeAt] and a regular expression without the [u] flag
    all work on code units, so a string is a list of code units here. *)

Definition JSString : Type := list N.

Definition lit (s : string) : JSString :=
  map N_of_ascii (list_ascii_of_string s).
Arguments lit s%_string.

Definition str_eqb (a b : JSString) : bool :=
  if list_eq_dec N.eq_dec a b then true else false.

(** The [length] of a string or of an array, as a JavaScript number. *)
Definition len {A} (s : list A) : Z := Z.of_nat (length s).

(** ECMAScript [WhiteSpace] and [LineTerminator] code points: what both
    [\s] in a regular expression and [String.prototype.trim] recognise. *)
Definition isSpace (c : N) : bool :=
  let inr lo hi := andb (N.leb lo c) (N.leb c hi) in
  (inr 9 13            (* TAB, LF, VT, FF, CR *)
   || N.eqb c 32       (* SPACE *)
   || N.eqb c 160      (* NBSP *)
   || N.eqb c 5760     (* U+1680 *)
   || inr 8192 8202    (* U+2000 .. U+200A *)
   || inr 8232 8233    (* LS, PS *)
   || N.eqb c 8239     (* U+202F *)
   || N.eqb c 8287     (* U+205F *)
   || N.eqb c 12288    (* U+3000 *)
   || N.eqb c 65279    (* U+FEFF *))%N%bool.

Fixpoint takeWhile {A} (p : A -> bool) (l : list A) : list A :=
  match l with
  | x :: r => if p x then x :: takeWhile p r else []
  | [] => []
  end.

Fixpoint dropWhile {A} (p : A -> bool) (l : list A) : list A :=
  match l with
  | x :: r => if p x then dropWhile p r else l
  | [] => []
  end.

(** [String.prototype.trim]. *)
Definition trim (s : JSString) : JSString :=
  rev (dropWhile isSpace (rev (dropWhile isSpace s))).

(** [String.prototype.substring(from)] and [substring(0, n)]. *)
Definition substring_from (s : JSString) (from : nat) : JSString := skipn from s.
Definition substring_to (s : JSString) (n : nat) : JSString := firstn n s.

(** [Number.prototype.toString(radix)] on a non-negative integer, digits
    [0-9a-z].  A number below [2^k] has at most [k] digits in any radix
    from 2 on, which bounds the recursion. *)
Definition digitChar (d : Z) : N :=
  if d <? 10 then Z.to_N (48 + d) else Z.to_N (97 + (d - 10)).

Fixpoint digits (fuel : nat) (radix n : Z) (acc : JSString) : JSString :=
  match fuel with
  | O => acc
  | S f =>
      let acc' := digitChar (n mod radix) :: acc in
      if n / radix =? 0 then acc' else digits f radix (n / radix) acc'
  end.

Definition toStringRadix (radix n : Z) : JSString :=
  digits (S (Z.to_nat (Z.log2 n))) radix n [].

Definition numToString (n : Z) : JSString := toStringRadix 10 n.

Definition boolToString (b : bool) : JSString :=
  if b then lit "true" else lit "false".

(** ** Identity assigner *)

(** [ToInt32]: the result of the bitwise operators. *)
Definition toInt32 (z : Z) : Z := (z + 2 ^ 31) mod 2 ^ 32 - 2 ^ 31.

(** The body of the [for] loop of [simpleHash], one code unit at a time:
    [hash = ((hash << 5) - hash) + char; hash = hash & hash]. *)
Fixpoint simpleHash_loop (str : JSString) (hash : Z) : Z :=
  match str with
  | [] => hash
  | char :: rest =>
      let hash1 := (toInt32 (Z.shiftl hash 5) - hash) + Z.of_N char in
      simpleHash_loop rest (toInt32 (Z.land hash1 hash1))
  end.

Definition simpleHash (str : JSString) : JSString :=
  toStringRadix 36 (Z.abs (simpleHash_loop str 0)).

Definition generateSentenceId (start end_ : Z) (text : JSString) (isHeading : bool)
  : JSString :=
  let hash := simpleHash (numToString start ++ lit "-" ++ numToString end_ ++ lit "-"
                          ++ substring_to text 20 ++ lit "-" ++ boolToString isHeading) in
  lit "sentence-" ++ hash.

(** ** Sentences *)

Record Sentence : Type := mkSentence {
  id : JSString;
  text : JSString;
  start : Z;
  end_ : Z;
  isHeading : bool
}.

(** ** Tokenizer

    [buildSentenceMap] compiles the pattern [[^E]+[E]?\s*] with the [g]
    flag, where [E] lists the configured sentence endings, each escaped with
    a backslash.  The endings are modelled as single code units whose
    escape denotes the character itself (punctuation, as in the default
    [. ! ?]); [literalEndings] below is that bound as a predicate, and the
    theorems that depend on which characters the class holds assume it. *)

Section Tokenizer.

Variable sentenceEndings : list N.

Definition isEnding (c : N) : bool :=
  existsb (N.eqb c) sentenceEndings.

Definition notEnding (c : N) : bool := negb (isEnding c).

(** The pattern matched at the head of [s]: a greedy non-empty run of
    non-ending characters, at most one ending character, a greedy run
    of white space.  Everything after the first run is optional, so
    the greedy choice never has to be undone. *)
Definition match_here (s : JSString) : option JSString :=
  let body := takeWhile notEnding s in
  match body with
  | [] => None
  | _ :: _ =>
      let r1 := dropWhile notEnding s in
      let term := match r1 with
                  | c :: _ => if isEnding c then [c] else []
                  | [] => []
                  end in
      let r2 := skipn (length term) r1 in
      Some (body ++ term ++ takeWhile isSpace r2)
  end.

(** The matcher tries the position [i], then [i + 1], ... up to the end
    of the input; [s] is the input from position [i] on. *)
Fixpoint search (s : JSString) (i : nat) : option (nat * JSString) :=
  match match_here s with
  | Some chunk => Some (i, chunk)
  | None =>
      match s with
      | [] => None
      | _ :: r => search r (S i)
      end
  end.

(** [regex.exec(text)] for a global expression whose [lastIndex] is
    [lastIndex]: the match (its index and its text), or [None] for
    [null]. After a match [regex.lastIndex] is the end of the match. *)
Definition regex_exec (text : JSString) (lastIndex : nat)
  : option (nat * JSString) :=
  if (length text <? lastIndex)%nat then None
  else search (skipn lastIndex text) lastIndex.

(** The [while ((match = regex.exec(text)) !== null)] loop.  [sentences]
    is the array built so far and [lastIndex] the local variable of that
    name, which is also the expression's [lastIndex] whenever the loop
    condition is evaluated.  Every match is at least one character long,
    so [S (length text)] rounds are enough ([while_exec_fuel]). *)
Fixpoint while_exec (fuel : nat) (text : JSString) (lastIndex : nat)
         (sentences : list Sentence) : list Sentence * nat :=
  match fuel with
  | O => (sentences, lastIndex)
  | S fuel' =>
      match regex_exec text lastIndex with
      | None => (sentences, lastIndex)
      | Some (index, chunk) =>
          let start := Z.of_nat index in
          let end_ := start + len chunk in
          let id := generateSentenceId start end_ chunk false in
          while_exec fuel' text (index + length chunk)%nat
            (sentences ++ [mkSentence id chunk start end_ false])
      end
  end.

Definition isBlank (text : JSString) : bool :=
  match trim text with [] => true | _ => false end.

(** [buildSentenceMap], with the plain text of the editor as argument. *)
Definition buildSentenceMap (text : JSString) : list Sentence :=
  if isBlank text then []
  else
    let '(sentences, lastIndex) := while_exec (S (length text)) text 0 [] in
    (* Handle any remaining text that doesn't end with sentence punctuation *)
    let sentences :=
      if (lastIndex <? length text)%nat then
        let remaining := substring_from text lastIndex in
        if (0 <? length (trim remaining))%nat then
          let id := generateSentenceId (Z.of_nat lastIndex) (len text) remaining false in
          sentences ++ [mkSentence id remaining (Z.of_nat lastIndex) (len text) false]
        else sentences
      else sentences in
    (* If no sentences found, treat entire text as one sentence *)
    if ((length sentences =? 0)%nat && (0 <? length (trim text))%nat)%bool then
      sentences ++ [mkSentence (generateSentenceId 0 (len text) text false)
                               text 0 (len text) false]
    else sentences.

End Tokenizer.

Definition defaultEndings : list N := lit ".!?".

(** The pattern is assembled from [sentenceEndings.map(e => '\\' + e)]:
    every ending goes into the character class behind a backslash.  Behind
    a backslash a letter, a digit or an underscore need not stand for
    itself: [\d], [\s] and [\w] are classes of characters, [\b], [\n] and
    [\t] control characters, [\0] to [\7] octal escapes.  Any other code
    unit behind a backslash is an identity escape and stands for itself, so
    for endings that pass [literalEndings] the class of the pattern is the
    set of the endings, which is how [isEnding] reads it. *)
Definition isWordCharacter (c : N) : bool :=
  ((48 <=? c) && (c <=? 57) || (65 <=? c) && (c <=? 90) || (c =? 95)
   || (97 <=? c) && (c <=? 122))%N.

Definition selfEscaping (e : N) : bool := negb (isWordCharacter e).

Definition literalEndings (sentenceEndings : list N) : bool :=
  forallb selfEscaping sentenceEndings.

Definition concatTexts (ss : list Sentence) : JSString :=
  flat_map text ss.

(** The sentence that [buildSentenceMap] pushes after the loop for the text
    left at [q], when there is any. *)
Definition remainder (t : JSString) (q : nat) : list Sentence :=
  if (q <? length t)%nat then
    [mkSentence (generateSentenceId (Z.of_nat q) (len t) (skipn q t) false)
                (skipn q t) (Z.of_nat q) (len t) false]
  else [].

(** ** Active-sentence resolution *)

(** The [for] loop of [findActiveSentenceIndex]: [Some r] when the loop
    body returns [r], [None] when the loop runs to its end.  [i] is the loop
    counter, [rest] the sentences from index [i] on and [n] the length of
    the whole array. *)
Fixpoint findActive_for (rest : list Sentence) (i n : Z) (caretOffset : Z)
  : option Z :=
  match rest with
  | [] => None
  | s :: rest' =>
      if (start s <=? caretOffset) && (caretOffset <? end_ s) then Some i
      else if (caretOffset =? end_ s) && (i <? n - 1) then Some (i + 1)
      else findActive_for rest' (i + 1) n caretOffset
  end.

Definition findActiveSentenceIndex (sentences : list Sentence) (caretOffset : Z) : Z :=
  match findActive_for sentences 0 (len sentences) caretOffset with
  | Some r => r
  | None =>
      match rev sentences with
      | lastSentence :: _ =>
          if start lastSentence <=? caretOffset then len sentences - 1 else -1
      | [] => -1
      end
  end.

(** ** Shapes of sentence sequences *)

(** Ordered and non-overlapping: every span is non-empty and starts at or
    after [lo], the end of the span before it. *)
Fixpoint ordered_from (lo : Z) (ss : list Sentence) : bool :=
  match ss with
  | [] => true
  | s :: r => (lo <=? start s) && (start s <? end_ s) && ordered_from (end_ s) r
  end.

Definition ordered (ss : list Sentence) : bool :=
  match ss with
  | [] => true
  | s :: _ => ordered_from (start s) ss
  end.

(** Contiguous: every span starts exactly where the one before it ends. *)
Fixpoint contiguous (ss : list Sentence) : bool :=
  match ss with
  | s :: ((s' :: _) as r) => (end_ s =? start s') && contiguous r
  | _ => true
  end.

(** The same two shapes with both ends pinned, as the loop invariants need
    them. *)
Fixpoint ordered_between (lo : Z) (ss : list Sentence) (hi : Z) : Prop :=
  match ss with
  | [] => lo <= hi
  | s :: r => lo <= start s /\ start s < end_ s /\ ordered_between (end_ s) r hi
  end.

Fixpoint contiguous_between (lo : Z) (ss : list Sentence) (hi : Z) : Prop :=
  match ss with
  | [] => lo = hi
  | s :: r => start s = lo /\ start s < end_ s /\ contiguous_between (end_ s) r hi
  end.

(** ** Texts the matcher reads without skipping

    The expression needs a non-ending character to start a match.  When
    [regex.exec] resumes at an ending character (at the very start of the
    text, or after an ending character and the white space behind it) it
    moves on to the next non-ending character, and what it passed over
    belongs to no match.  [tidy AtStart text] says this never happens: an
    ending character met at such a place is followed by ending characters
    only, up to the end of the text (the fragment that [buildSentenceMap]
    picks up after the loop). *)

Inductive Phase : Type := AtStart | InBody | AfterEnding.

Section Tidy.

Variable sentenceEndings : list N.

Fixpoint tidy (ph : Phase) (s : JSString) : bool :=
  match s with
  | [] => true
  | c :: r =>
      match ph with
      | AtStart =>
          if isEnding sentenceEndings c then forallb (isEnding sentenceEndings) r
          else tidy InBody r
      | InBody =>
          if isEnding sentenceEndings c then tidy AfterEnding r
          else tidy InBody r
      | AfterEnding =>
          if isSpace c then tidy AfterEnding r
          else if isEnding sentenceEndings c then forallb (isEnding sentenceEndings) r
          else tidy InBody r
      end
  end.

End Tidy.

(** * The class

    The instance ([this]), the part of the browser it talks to (the editor
    element and its content, the selection, listeners, timers), and a log of
    what an observer can see: the calls of the two option callbacks and the
    class and attribute changes made to spans that are already rendered. *)

(** ** JavaScript values and maps *)

Inductive JSValue : Type :=
| JSUndefined
| JSBoolean (b : bool).

Definition isBoolean (v : JSValue) : bool :=
  match v with JSBoolean _ => true | JSUndefined => false end.

Inductive JSError : Type :=
| Error_ (message : JSString)
| TypeError (message : JSString).

(** A [Map] with string keys: insertion ordered, [set] on a key that is
    present replaces the value where it stands. *)
Definition JSMap (V : Type) : Type := list (JSString * V).

Fixpoint map_get {V} (m : JSMap V) (k : JSString) : option V :=
  match m with
  | [] => None
  | (k', v) :: r => if str_eqb k k' then Some v else map_get r k
  end.

Fixpoint map_set {V} (m : JSMap V) (k : JSString) (v : V) : JSMap V :=
  match m with
  | [] => [(k, v)]
  | (k', v') :: r => if str_eqb k k' then (k', v) :: r else (k', v') :: map_set r k v
  end.

Definition map_keys {V} (m : JSMap V) : list JSString := map fst m.
Definition map_values {V} (m : JSMap V) : list V := map snd m.
Definition map_size {V} (m : JSMap V) : nat := length m.

(** ** The document *)

(** An element created by [rebuildHighlights]: attributes other than
    [class] in the order they were set, the class list, the text. *)
Record Span : Type := mkSpan {
  attributes : list (JSString * JSString);
  classList : list JSString;
  textContent : JSString
}.

Definition ElemRef : Type := nat.

Inductive Node : Type :=
| SpanNode (e : ElemRef)
| TextNode (t : JSString).

(** What the editor holds.  [Markup]: anything without sentence spans and
    without an element of the container class, known by its text and the
    length of its serialisation.  [TextNodes]: bare text nodes, as
    dissolving the container leaves them.  [Container]: the [div] of
    [rebuildHighlights], of the configured container class; its spans live
    in the element store so that the instance can hold on to them. *)
Inductive Content : Type :=
| Markup (t : JSString) (html : Z)
| TextNodes (ts : list JSString)
| Container (children : list Node).

(** The content with the spans looked up, as a serialiser sees it. *)
Inductive ViewNode : Type :=
| ViewSpan (s : Span)
| ViewTextNode (t : JSString).

Inductive View : Type :=
| ViewMarkup (t : JSString) (html : Z)
| ViewText (ts : list JSString)
| ViewContainer (children : list ViewNode).

Inductive Selection : Type :=
| NoSelection
| Caret (inEditor : bool) (offset : Z).

Inductive Target : Type := Editor | Document.

Inductive EventType : Type :=
| input | keydown | click | keyup | selectionchange | focus.

(** The functions registered as listeners: the three bound methods, and
    the three arrow functions written in [attachEvents], of which no
    reference is kept. *)
Inductive Handler : Type :=
| BoundHandleInput
| BoundHandleNavigation
| BoundHandleCaretMove
| KeydownArrow
| KeyupArrow
| FocusArrow.

Record Listener : Type := mkListener {
  target : Target;
  type : EventType;
  handler : Handler
}.

Inductive TimerCallback : Type :=
| CallScanAndHighlight
| CallUpdateActiveSentence.

Record Timer : Type := mkTimer {
  timerId : nat;
  delay : Z;
  callback : TimerCallback
}.

Record Browser : Type := mkBrowser {
  isContentEditable : bool;
  editorClassList : list JSString;
  content : Content;
  elements : list Span;
  selection : Selection;
  listeners : list Listener;
  timers : list Timer;
  nextTimerId : nat;
  animationFrames : list Z;
  styleInjected : bool;
  innerHTMLLength : View -> Z
}.

(** ** The instance *)

Record Options : Type := mkOptions {
  sentenceDataAttribute : JSString;
  activeSentenceDataAttribute : JSString;
  containerClass : JSString;
  sentenceClass : JSString;
  activeSentenceClass : JSString;
  enableFocusMode : bool;
  autoScroll : bool;
  sentenceEndings : list N;
  updateDebounce : Z;
  updateThrottle : Z;
  onSentenceChange : bool;
  onActiveSentenceChange : bool
}.

(** The options of [new SentenceHighlighter(editor)], with a switch for
    each of the two callbacks. *)
Definition defaultOptions (onSentences onActive : bool) : Options :=
  {| sentenceDataAttribute := lit "data-sentence-id";
     activeSentenceDataAttribute := lit "data-sentence-active";
     containerClass := lit "paragraph";
     sentenceClass := lit "sentence";
     activeSentenceClass := lit "sentence--active";
     enableFocusMode := true;
     autoScroll := true;
     sentenceEndings := defaultEndings;
     updateDebounce := 100;
     updateThrottle := 50;
     onSentenceChange := onSentences;
     onActiveSentenceChange := onActive |}.

(** [lastContentHash]: [null], or a string. *)
Inductive Fingerprint : Type :=
| FpNull
| FpString (s : JSString).

Record Instance : Type := mkInstance {
  options : Options;
  sentenceMap : JSMap Sentence;
  sentenceElements : JSMap ElemRef;
  activeSentenceId : option JSString;
  isInitialized : bool;
  updateTimer : option nat;
  lastContentHash : Fingerprint;
  focusModeEnabled : bool
}.

(** What an observer can see of a run. *)
Inductive Effect : Type :=
| SentenceChange (sentences : list Sentence)
| ActiveSentenceChange (index : Z) (sentence : option Sentence)
| ClassAdded (e : ElemRef) (cls : JSString)
| ClassRemoved (e : ElemRef) (cls : JSString)
| AttributeSet (e : ElemRef) (name value : JSString)
| AttributeRemoved (e : ElemRef) (name : JSString)
| ScrolledIntoView.

Record World : Type := mkWorld {
  this : Instance;
  page : Browser;
  log : list Effect
}.

(** ** Field updates *)

Definition with_sentenceMap (v : JSMap Sentence) (i : Instance) : Instance :=
  mkInstance (options i) v (sentenceElements i) (activeSentenceId i)
             (isInitialized i) (updateTimer i) (lastContentHash i) (focusModeEnabled i).
Definition with_sentenceElements (v : JSMap ElemRef) (i : Instance) : Instance :=
  mkInstance (options i) (sentenceMap i) v (activeSentenceId i)
             (isInitialized i) (updateTimer i) (lastContentHash i) (focusModeEnabled i).
Definition with_activeSentenceId (v : option JSString) (i : Instance) : Instance :=
  mkInstance (options i) (sentenceMap i) (sentenceElements i) v
             (isInitialized i) (updateTimer i) (lastContentHash i) (focusModeEnabled i).
Definition with_isInitialized (v : bool) (i : Instance) : Instance :=
  mkInstance (options i) (sentenceMap i) (sentenceElements i) (activeSentenceId i)
             v (updateTimer i) (lastContentHash i) (focusModeEnabled i).
Definition with_updateTimer (v : option nat) (i : Instance) : Instance :=
  mkInstance (options i) (sentenceMap i) (sentenceElements i) (activeSentenceId i)
             (isInitialized i) v (lastContentHash i) (focusModeEnabled i).
Definition with_lastContentHash (v : Fingerprint) (i : Instance) : Instance :=
  mkInstance (options i) (sentenceMap i) (sentenceElements i) (activeSentenceId i)
             (isInitialized i) (updateTimer i) v (focusModeEnabled i).
Definition with_focusModeEnabled (v : bool) (i : Instance) : Instance :=
  mkInstance (options i) (sentenceMap i) (sentenceElements i) (activeSentenceId i)
             (isInitialized i) (updateTimer i) (lastContentHash i) v.

Definition with_editorClassList (v : list JSString) (b : Browser) : Browser :=
  mkBrowser (isContentEditable b) v (content b) (elements b) (selection b)
            (listeners b) (timers b) (nextTimerId b) (animationFrames b)
            (styleInjected b) (innerHTMLLength b).
Definition with_content (v : Content) (b : Browser) : Browser :=
  mkBrowser (isContentEditable b) (editorClassList b) v (elements b) (selection b)
            (listeners b) (timers b) (nextTimerId b) (animationFrames b)
            (styleInjected b) (innerHTMLLength b).
Definition with_elements (v : list Span) (b : Browser) : Browser :=
  mkBrowser (isContentEditable b) (editorClassList b) (content b) v (selection b)
            (listeners b) (timers b) (nextTimerId b) (animationFrames b)
            (styleInjected b) (innerHTMLLength b).
Definition with_selection (v : Selection) (b : Browser) : Browser :=
  mkBrowser (isContentEditable b) (editorClassList b) (content b) (elements b) v
            (listeners b) (timers b) (nextTimerId b) (animationFrames b)
            (styleInjected b) (innerHTMLLength b).
Definition with_listeners (v : list Listener) (b : Browser) : Browser :=
  mkBrowser (isContentEditable b) (editorClassList b) (content b) (elements b)
            (selection b) v (timers b) (nextTimerId b) (animationFrames b)
            (styleInjected b) (innerHTMLLength b).
Definition with_timers (v : list Timer) (n : nat) (b : Browser) : Browser :=
  mkBrowser (isContentEditable b) (editorClassList b) (content b) (elements b)
            (selection b) (listeners b) v n (animationFrames b)
            (styleInjected b) (innerHTMLLength b).
Definition with_animationFrames (v : list Z) (b : Browser) : Browser :=
  mkBrowser (isContentEditable b) (editorClassList b) (content b) (elements b)
            (selection b) (listeners b) (timers b) (nextTimerId b) v
            (styleInjected b) (innerHTMLLength b).
Definition with_styleInjected (v : bool) (b : Browser) : Browser :=
  mkBrowser (isContentEditable b) (editorClassList b) (content b) (elements b)
            (selection b) (listeners b) (timers b) (nextTimerId b)
            (animationFrames b) v (innerHTMLLength b).

Definition on_this (f : Instance -> Instance) (w : World) : World :=
  mkWorld (f (this w)) (page w) (log w).
Definition on_page (f : Browser -> Browser) (w : World) : World :=
  mkWorld (this w) (f (page w)) (log w).
Definition record (e : Effect) (w : World) : World :=
  mkWorld (this w) (page w) (log w ++ [e]).

(** ** Running a method: it returns, or it throws *)

Inductive Outcome (A : Type) : Type :=
| Returned (a : A) (w : World)
| Thrown (e : JSError) (w : World).
Arguments Returned {A} a w.
Arguments Thrown {A} e w.

Definition M (A : Type) : Type := World -> Outcome A.

Definition ret {A} (a : A) : M A := fun w => Returned a w.

Definition bind {A B} (c : M A) (k : A -> M B) : M B :=
  fun w => match c w with
           | Returned a w' => k a w'
           | Thrown e w' => Thrown e w'
           end.

Declare Scope js_scope.
Delimit Scope js_scope with js.
Notation "x <- c ;; k" := (bind c (fun x => k))
  (at level 61, c at next level, right associativity) : js_scope.
Notation "c ;; k" := (bind c (fun _ => k))
  (at level 61, right associativity) : js_scope.
Open Scope js_scope.

Definition gets {A} (f : World -> A) : M A := fun w => Returned (f w) w.
Definition modify (f : World -> World) : M unit := fun w => Returned tt (f w).
Definition throw {A} (e : JSError) : M A := fun w => Thrown e w.
Definition when (b : bool) (c : M unit) : M unit := if b then c else ret tt.

Fixpoint forEach {A} (l : list A) (body : A -> M unit) : M unit :=
  match l with
  | [] => ret tt
  | x :: r => body x ;; forEach r body
  end.

(** The state a method leaves behind, however it ends. *)
Definition world_of {A} (o : Outcome A) : World :=
  match o with Returned _ w => w | Thrown _ w => w end.

Definition returned {A} (o : Outcome A) : bool :=
  match o with Returned _ _ => true | Thrown _ _ => false end.

(** ** Browser built-ins *)

Definition element (store : list Span) (e : ElemRef) : Span :=
  nth e store (mkSpan [] [] []).

Definition viewNode (store : list Span) (n : Node) : ViewNode :=
  match n with
  | SpanNode e => ViewSpan (element store e)
  | TextNode t => ViewTextNode t
  end.

Definition view (b : Browser) : View :=
  match content b with
  | Markup t html => ViewMarkup t html
  | TextNodes ts => ViewText ts
  | Container children => ViewContainer (map (viewNode (elements b)) children)
  end.

Definition nodeText (n : ViewNode) : JSString :=
  match n with
  | ViewSpan s => textContent s
  | ViewTextNode t => t
  end.

(** [editor.textContent]. *)
Definition textOf (v : View) : JSString :=
  match v with
  | ViewMarkup t _ => t
  | ViewText ts => concat ts
  | ViewContainer children => flat_map nodeText children
  end.

Definition hasAttribute (s : Span) (name : JSString) : bool :=
  existsb (fun a => str_eqb (fst a) name) (attributes s).

(** [editor.querySelectorAll('[' + attribute + ']')]: the spans of the
    container that carry the attribute. *)
Definition querySelectorAll (b : Browser) (attribute : JSString) : list ElemRef :=
  match content b with
  | Container children =>
      flat_map (fun n => match n with
                         | SpanNode e =>
                             if hasAttribute (element (elements b) e) attribute
                             then [e] else []
                         | TextNode _ => []
                         end) children
  | _ => []
  end.

(** [classList.add], [classList.remove]. *)
Definition classList_add (cls : JSString) (l : list JSString) : list JSString :=
  if existsb (str_eqb cls) l then l else l ++ [cls].
Definition classList_remove (cls : JSString) (l : list JSString) : list JSString :=
  filter (fun c => negb (str_eqb cls c)) l.

(** [setAttribute], [removeAttribute]. *)
Definition setAttribute (name value : JSString) (l : list (JSString * JSString))
  : list (JSString * JSString) := map_set l name value.
Definition removeAttribute (name : JSString) (l : list (JSString * JSString))
  : list (JSString * JSString) := filter (fun a => negb (str_eqb name (fst a))) l.

Fixpoint list_update {A} (l : list A) (n : nat) (f : A -> A) : list A :=
  match l, n with
  | [], _ => []
  | x :: r, O => f x :: r
  | x :: r, S n' => x :: list_update r n' f
  end.

(** A change made through a reference to an element. *)
Definition updateElement (e : ElemRef) (f : Span -> Span) : M unit :=
  modify (on_page (fun b => with_elements (list_update (elements b) e f) b)).

Definition element_classList_add (e : ElemRef) (cls : JSString) : M unit :=
  updateElement e (fun s => mkSpan (attributes s) (classList_add cls (classList s)) (textContent s)) ;;
  modify (record (ClassAdded e cls)).
Definition element_classList_remove (e : ElemRef) (cls : JSString) : M unit :=
  updateElement e (fun s => mkSpan (attributes s) (classList_remove cls (classList s)) (textContent s)) ;;
  modify (record (ClassRemoved e cls)).
Definition element_setAttribute (e : ElemRef) (name value : JSString) : M unit :=
  updateElement e (fun s => mkSpan (setAttribute name value (attributes s)) (classList s) (textContent s)) ;;
  modify (record (AttributeSet e name value)).
Definition element_removeAttribute (e : ElemRef) (name : JSString) : M unit :=
  updateElement e (fun s => mkSpan (removeAttribute name (attributes s)) (classList s) (textContent s)) ;;
  modify (record (AttributeRemoved e name)).

(** [setTimeout]: the new timer's id.  [clearTimeout] of an id that is not
    pending, or of [null], does nothing. *)
Definition setTimeout (cb : TimerCallback) (ms : Z) : M nat :=
  n <- gets (fun w => nextTimerId (page w)) ;;
  modify (on_page (fun b => with_timers (timers b ++ [mkTimer n ms cb]) (S n) b)) ;;
  ret n.

Definition clearTimeout (t : option nat) : M unit :=
  match t with
  | None => ret tt
  | Some n =>
      modify (on_page (fun b =>
        with_timers (filter (fun x => negb (Nat.eqb (timerId x) n)) (timers b))
                    (nextTimerId b) b))
  end.

Definition handler_eqb (a b : Handler) : bool :=
  match a, b with
  | BoundHandleInput, BoundHandleInput
  | BoundHandleNavigation, BoundHandleNavigation
  | BoundHandleCaretMove, BoundHandleCaretMove
  | KeydownArrow, KeydownArrow
  | KeyupArrow, KeyupArrow
  | FocusArrow, FocusArrow => true
  | _, _ => false
  end.

Definition type_eqb (a b : EventType) : bool :=
  match a, b with
  | input, input | keydown, keydown | click, click | keyup, keyup
  | selectionchange, selectionchange | focus, focus => true
  | _, _ => false
  end.

Definition target_eqb (a b : Target) : bool :=
  match a, b with
  | Editor, Editor | Document, Document => true
  | _, _ => false
  end.

Definition listener_eqb (a b : Listener) : bool :=
  target_eqb (target a) (target b) && type_eqb (type a) (type b)
  && handler_eqb (handler a) (handler b).

(** [addEventListener] ignores a listener that is already registered;
    [removeEventListener] removes the listener with this very function. *)
Definition addEventListener (t : Target) (ty : EventType) (h : Handler) : M unit :=
  modify (on_page (fun b =>
    if existsb (listener_eqb (mkListener t ty h)) (listeners b) then b
    else with_listeners (listeners b ++ [mkListener t ty h]) b)).

Definition removeEventListener (t : Target) (ty : EventType) (h : Handler) : M unit :=
  modify (on_page (fun b =>
    with_listeners (filter (fun l => negb (listener_eqb (mkListener t ty h) l))
                           (listeners b)) b)).

(** ** Methods of [SentenceHighlighter] *)

Definition opt {A} (f : Options -> A) : M A := gets (fun w => f (options (this w))).

(** [getPlainText]: [editor.textContent || editor.innerText || '']. *)
Definition getPlainText : M JSString := gets (fun w => textOf (view (page w))).

(** [getContentHash]. *)
Definition getContentHash : M JSString :=
  t <- getPlainText ;;
  html <- gets (fun w => innerHTMLLength (page w) (view (page w))) ;;
  ret (numToString (len t) ++ lit "-" ++ numToString html).

(** [getCaretOffset]: 0 without a selection, else the length of the text
    from the start of the editor to the end of the selection. *)
Definition getCaretOffset : M Z :=
  gets (fun w => match selection (page w) with
                 | NoSelection => 0
                 | Caret _ offset => offset
                 end).

(** [setCaretOffset]: the caret goes into the first text node that reaches
    [targetOffset], or to the end of the content when there is none. *)
Definition setCaretOffset (targetOffset : Z) : M unit :=
  t <- getPlainText ;;
  let offset := if targetOffset <=? len t then Z.max 0 targetOffset else len t in
  modify (on_page (with_selection (Caret true offset))).

Definition injectCSS : M unit :=
  modify (on_page (with_styleInjected true)).

(** [scrollCaretToCenter].  The marker is inserted at the caret and taken
    out again; what stays is the scrolling. *)
Definition scrollCaretToCenter : M unit :=
  sel <- gets (fun w => selection (page w)) ;;
  match sel with
  | NoSelection => ret tt
  | Caret false _ => ret tt
  | Caret true _ => modify (record ScrolledIntoView)
  end.

(** Unwrapping a sentence span: its text takes its place in the parent. *)
Definition unwrap (store : list Span) (attribute : JSString) (n : Node) : Node :=
  match n with
  | SpanNode e =>
      if hasAttribute (element store e) attribute
      then TextNode (textContent (element store e)) else n
  | TextNode _ => n
  end.

Definition isElementNode (n : Node) : bool :=
  match n with SpanNode _ => true | TextNode _ => false end.

Definition textNodeData (n : Node) : JSString :=
  match n with TextNode t => t | SpanNode _ => [] end.

(** [clearAllHighlights]: every sentence span (its parent is the
    container, not the editor) is unwrapped, and the container, when no
    element is left in it, is dissolved into the editor. *)
Definition clearAllHighlights : M unit :=
  attribute <- opt sentenceDataAttribute ;;
  b <- gets page ;;
  (match content b with
   | Container children =>
       let children' := map (unwrap (elements b) attribute) children in
       let hasElements := existsb isElementNode children' in
       if negb hasElements
       then modify (on_page (with_content (TextNodes (map textNodeData children'))))
       else modify (on_page (with_content (Container children')))
   | _ => ret tt
   end) ;;
  modify (on_this (with_sentenceElements [])).

(** [hasValidHighlights]. *)
Definition hasValidHighlights : M bool :=
  size <- gets (fun w => map_size (sentenceElements (this w))) ;;
  attribute <- opt sentenceDataAttribute ;;
  found <- gets (fun w => length (querySelectorAll (page w) attribute)) ;;
  ret ((0 <? size)%nat && (0 <? found)%nat).

(** One round of the [forEach] of [rebuildHighlights]: the span for
    [sentence], appended to the container [refs]. *)
Definition rebuildSpan (activeIndex : Z) (i : Z) (sentence : Sentence) : M ElemRef :=
  o <- opt (fun o => o) ;;
  let active := (i =? activeIndex) && (0 <=? activeIndex) in
  let attrs0 := setAttribute (sentenceDataAttribute o) (id sentence) [] in
  let classes0 := [sentenceClass o] in
  let classes1 := if active then classList_add (activeSentenceClass o) classes0 else classes0 in
  let attrs1 := if active then setAttribute (activeSentenceDataAttribute o) (lit "true") attrs0
                else attrs0 in
  when active (modify (on_this (with_activeSentenceId (Some (id sentence))))) ;;
  let classes2 := if isHeading sentence
                  then classList_add (lit "sentence-highlighter-heading") classes1
                  else classes1 in
  e <- gets (fun w => length (elements (page w))) ;;
  modify (on_page (fun b =>
    with_elements (elements b ++ [mkSpan attrs1 classes2 (text sentence)]) b)) ;;
  modify (on_this (fun t =>
    with_sentenceElements (map_set (sentenceElements t) (id sentence) e) t)) ;;
  ret e.

Fixpoint rebuildSpans (activeIndex : Z) (i : Z) (sentences : list Sentence)
  : M (list ElemRef) :=
  match sentences with
  | [] => ret []
  | s :: r =>
      e <- rebuildSpan activeIndex i s ;;
      es <- rebuildSpans activeIndex (i + 1) r ;;
      ret (e :: es)
  end.

(** [rebuildHighlights].  Emptying the editor takes a caret that was in
    it to offset 0; the caret is put back in the next animation frame. *)
Definition rebuildHighlights (sentences : list Sentence) (activeIndex caretOffset : Z)
  : M unit :=
  if (length sentences =? 0)%nat then clearAllHighlights
  else
    modify (on_this (with_sentenceElements [])) ;;
    refs <- rebuildSpans activeIndex 0 sentences ;;
    let savedCaretOffset := caretOffset in
    modify (on_page (fun b =>
      with_selection (match selection b with
                      | Caret true _ => Caret true 0
                      | other => other
                      end) b)) ;;
    modify (on_page (with_content (Container (map SpanNode refs)))) ;;
    modify (on_page (fun b =>
      with_animationFrames (animationFrames b ++ [savedCaretOffset]) b)).

(** A value used as a condition: [null] and the empty string count as
    false. *)
Definition truthy (v : option JSString) : bool :=
  match v with
  | Some (_ :: _) => true
  | _ => false
  end.

(** [sentences[activeIndex].id]; reading [id] of [undefined] throws. *)
Definition idAt (sentences : list Sentence) (activeIndex : Z) : M JSString :=
  match nth_error sentences (Z.to_nat activeIndex) with
  | Some s => ret (id s)
  | None => throw (TypeError (lit "Cannot read properties of undefined (reading 'id')"))
  end.

(** The part shared by the two update paths: the marker moves from the
    old element to the new one and the callback is called. *)
Definition moveActiveMarker (newActiveId : JSString) (activeIndex : Z) : M unit :=
  o <- opt (fun o => o) ;;
  old <- gets (fun w => activeSentenceId (this w)) ;;
  when (truthy old)
    (oldElement <- gets (fun w => map_get (sentenceElements (this w))
                                          (match old with Some i => i | None => [] end)) ;;
     match oldElement with
     | Some e =>
         element_classList_remove e (activeSentenceClass o) ;;
         element_removeAttribute e (activeSentenceDataAttribute o)
     | None => ret tt
     end) ;;
  modify (on_this (with_activeSentenceId (Some newActiveId))) ;;
  newElement <- gets (fun w => map_get (sentenceElements (this w)) newActiveId) ;;
  match newElement with
  | Some e =>
      element_classList_add e (activeSentenceClass o) ;;
      element_setAttribute e (activeSentenceDataAttribute o) (lit "true")
  | None => ret tt
  end ;;
  when (onActiveSentenceChange o)
    (sentence <- gets (fun w => map_get (sentenceMap (this w)) newActiveId) ;;
     modify (record (ActiveSentenceChange activeIndex sentence))).

(** [updateActiveSentenceFromMap]. *)
Definition updateActiveSentenceFromMap (sentences : list Sentence) (activeIndex : Z)
  : M unit :=
  if (activeIndex <? 0) || (len sentences <=? activeIndex) then ret tt
  else
    newActiveId <- idAt sentences activeIndex ;;
    moveActiveMarker newActiveId activeIndex.

(** [updateActiveSentence]. *)
Definition updateActiveSentence : M unit :=
  size <- gets (fun w => map_size (sentenceMap (this w))) ;;
  if (size =? 0)%nat then ret tt
  else
    caretOffset <- getCaretOffset ;;
    sentences <- gets (fun w => map_values (sentenceMap (this w))) ;;
    let activeIndex := findActiveSentenceIndex sentences caretOffset in
    if activeIndex <? 0 then ret tt
    else
      newActiveId <- idAt sentences activeIndex ;;
      active <- gets (fun w => activeSentenceId (this w)) ;;
      if match active with Some a => str_eqb newActiveId a | None => false end
      then ret tt (* No change *)
      else
        moveActiveMarker newActiveId activeIndex ;;
        scroll <- opt autoScroll ;;
        when scroll scrollCaretToCenter.

(** [scanAndHighlight]. *)
Definition scanAndHighlight : M unit :=
  text <- getPlainText ;;
  let isEmpty := isBlank text in
  if isEmpty then
    clearAllHighlights ;;
    modify (on_this (with_sentenceMap [])) ;;
    modify (on_this (with_sentenceElements [])) ;;
    modify (on_this (with_activeSentenceId None)) ;;
    modify (on_this (with_lastContentHash (FpString [])))
  else
    contentHash <- getContentHash ;;
    caretOffset <- getCaretOffset ;;
    endings <- opt sentenceEndings ;;
    text' <- getPlainText ;;
    let newSentences := buildSentenceMap endings text' in
    if (length newSentences =? 0)%nat then ret tt
    else
      let activeIndex := findActiveSentenceIndex newSentences caretOffset in
      last <- gets (fun w => lastContentHash (this w)) ;;
      size <- gets (fun w => map_size (sentenceElements (this w))) ;;
      valid <- hasValidHighlights ;;
      let needsRebuild :=
        negb (match last with FpString h => str_eqb contentHash h | FpNull => false end)
        || (size =? 0)%nat || negb valid in
      (if needsRebuild then
         rebuildHighlights newSentences activeIndex caretOffset ;;
         modify (on_this (with_lastContentHash (FpString contentHash)))
       else
         updateActiveSentenceFromMap newSentences activeIndex) ;;
      modify (on_this (with_sentenceMap [])) ;;
      forEach newSentences (fun s =>
        modify (on_this (fun t => with_sentenceMap (map_set (sentenceMap t) (id s) s) t))) ;;
      notify <- opt onSentenceChange ;;
      when notify
        (values <- gets (fun w => map_values (sentenceMap (this w))) ;;
         modify (record (SentenceChange values))) ;;
      scroll <- opt autoScroll ;;
      when scroll scrollCaretToCenter.

(** [handleInput]. *)
Definition handleInput : M unit :=
  text <- getPlainText ;;
  caretOffset <- getCaretOffset ;;
  endings <- opt sentenceEndings ;;
  let shouldUpdateImmediately :=
    (1 <? caretOffset) &&
    match nth_error text (Z.to_nat (caretOffset - 2)) with
    | Some charBefore => isEnding endings charBefore
    | None => false
    end in
  t <- gets (fun w => updateTimer (this w)) ;;
  clearTimeout t ;;
  debounce <- opt updateDebounce ;;
  let delay := if shouldUpdateImmediately then 10 else debounce in
  n <- setTimeout CallScanAndHighlight delay ;;
  modify (on_this (with_updateTimer (Some n))).

(** [handleNavigation]. *)
Definition handleNavigation : M unit :=
  t <- gets (fun w => updateTimer (this w)) ;;
  clearTimeout t ;;
  throttle <- opt updateThrottle ;;
  n <- setTimeout CallUpdateActiveSentence throttle ;;
  modify (on_this (with_updateTimer (Some n))).

(** [handleCaretMove]. *)
Definition handleCaretMove : M unit :=
  sel <- gets (fun w => selection (page w)) ;;
  match sel with
  | Caret true _ =>
      t <- gets (fun w => updateTimer (this w)) ;;
      clearTimeout t ;;
      throttle <- opt updateThrottle ;;
      n <- setTimeout CallUpdateActiveSentence throttle ;;
      modify (on_this (with_updateTimer (Some n)))
  | _ => ret tt
  end.

Definition navigationKeys : list JSString :=
  [lit "ArrowLeft"; lit "ArrowRight"; lit "ArrowUp"; lit "ArrowDown";
   lit "Home"; lit "End"; lit "PageUp"; lit "PageDown"].

(** [sentenceEndings.includes(e.key)]. *)
Definition isEndingKey (endings : list N) (key : JSString) : bool :=
  match key with
  | [c] => isEnding endings c
  | _ => false
  end.

(** The listeners, called with the [key] of the event. *)
Definition runHandler (h : Handler) (key : JSString) : M unit :=
  match h with
  | BoundHandleInput => handleInput
  | BoundHandleNavigation => handleNavigation
  | BoundHandleCaretMove => handleCaretMove
  | KeydownArrow =>
      endings <- opt sentenceEndings ;;
      when (isEndingKey endings key)
        (t <- gets (fun w => updateTimer (this w)) ;;
         clearTimeout t ;;
         n <- setTimeout CallScanAndHighlight 20 ;;
         modify (on_this (with_updateTimer (Some n))))
  | KeyupArrow =>
      when (existsb (str_eqb key) navigationKeys) handleNavigation
  | FocusArrow => handleNavigation
  end.

(** [attachEvents]. *)
Definition attachEvents : M unit :=
  addEventListener Editor input BoundHandleInput ;;
  addEventListener Editor keydown KeydownArrow ;;
  addEventListener Editor click BoundHandleNavigation ;;
  addEventListener Editor keyup KeyupArrow ;;
  addEventListener Document selectionchange BoundHandleCaretMove ;;
  addEventListener Editor focus FocusArrow.

Definition focusOffClass : JSString := lit "sentence-highlighter-focus-off".

(** [init].  The timer of the first scan is not kept in [updateTimer]. *)
Definition init : M unit :=
  initialized <- gets (fun w => isInitialized (this w)) ;;
  if initialized then ret tt
  else
    injectCSS ;;
    cls <- opt containerClass ;;
    modify (on_page (fun b => with_editorClassList (classList_add cls (editorClassList b)) b)) ;;
    focusMode <- gets (fun w => focusModeEnabled (this w)) ;;
    when (negb focusMode)
      (modify (on_page (fun b =>
         with_editorClassList (classList_add focusOffClass (editorClassList b)) b))) ;;
    attachEvents ;;
    _ <- setTimeout CallScanAndHighlight 10 ;;
    modify (on_this (with_isInitialized true)).

(** The fields the constructor sets before [init]. *)
Definition newInstance (o : Options) : Instance :=
  {| options := o;
     sentenceMap := [];
     sentenceElements := [];
     activeSentenceId := None;
     isInitialized := false;
     updateTimer := None;
     lastContentHash := FpNull;
     focusModeEnabled := enableFocusMode o |}.

(** [new SentenceHighlighter(editorElement, options)] on the editor of
    [b], with [o] the options after the defaults are filled in.  The page
    always has its editor element, so of the two checks of the constructor
    the one that can fail here is [isContentEditable]. *)
Definition construct (b : Browser) (o : Options) : Outcome unit :=
  let w := mkWorld (newInstance o) b [] in
  if negb (isContentEditable b)
  then Thrown (Error_ (lit "SentenceHighlighter: Element must be contenteditable")) w
  else init w.

(** [setFocusMode]. *)
Definition setFocusMode (enabled : bool) : M unit :=
  modify (on_this (with_focusModeEnabled enabled)) ;;
  if enabled then
    modify (on_page (fun b =>
      with_editorClassList (classList_remove focusOffClass (editorClassList b)) b))
  else
    modify (on_page (fun b =>
      with_editorClassList (classList_add focusOffClass (editorClassList b)) b)).

(** [toggleFocusMode].  The body is the one call of [setFocusMode]; there
    is no [return] statement, so the call evaluates to [undefined]. *)
Definition toggleFocusMode : M JSValue :=
  enabled <- gets (fun w => focusModeEnabled (this w)) ;;
  setFocusMode (negb enabled) ;;
  ret JSUndefined.

(** [update]. *)
Definition update : M unit := scanAndHighlight.

(** The class defines no method [removeSentenceHighlight]:
    [this.removeSentenceHighlight] is [undefined], and calling it throws. *)
Definition removeSentenceHighlight (id : JSString) : M unit :=
  throw (TypeError (lit "this.removeSentenceHighlight is not a function")).

(** [destroy]. *)
Definition destroy : M unit :=
  t <- gets (fun w => updateTimer (this w)) ;;
  clearTimeout t ;;
  (* Remove event listeners *)
  removeEventListener Editor input BoundHandleInput ;;
  removeEventListener Editor click BoundHandleNavigation ;;
  removeEventListener Document selectionchange BoundHandleCaretMove ;;
  (* Remove all highlighting *)
  keys <- gets (fun w => map_keys (sentenceMap (this w))) ;;
  forEach keys removeSentenceHighlight ;;
  (* Clear state *)
  modify (on_this (with_sentenceMap [])) ;;
  modify (on_this (with_sentenceElements [])) ;;
  modify (on_this (with_activeSentenceId None)) ;;
  (* Remove classes *)
  cls <- opt containerClass ;;
  modify (on_page (fun b =>
    with_editorClassList
      (classList_remove focusOffClass (classList_remove cls (editorClassList b))) b)) ;;
  modify (on_this (with_isInitialized false)).

(** ** What the browser does to the instance *)

(** An event of type [ty] reaches [t]: the listeners registered for it
    run in the order of their registration. *)
Definition dispatchEvent (t : Target) (ty : EventType) (key : JSString) : M unit :=
  ls <- gets (fun w => listeners (page w)) ;;
  forEach (filter (fun l => target_eqb (target l) t && type_eqb (type l) ty) ls)
          (fun l => runHandler (handler l) key).

(** The timer [n] comes due: it leaves the pending timers and its
    callback runs.  Nothing happens for a timer that is not pending. *)
Definition fireTimer (n : nat) : M unit :=
  ts <- gets (fun w => timers (page w)) ;;
  match find (fun x => Nat.eqb (timerId x) n) ts with
  | None => ret tt
  | Some x =>
      clearTimeout (Some n) ;;
      match callback x with
      | CallScanAndHighlight => scanAndHighlight
      | CallUpdateActiveSentence => updateActiveSentence
      end
  end.

(** The next animation frame: the callbacks of [requestAnimationFrame]
    run, each restoring the caret offset it saved. *)
Definition animationFrame : M unit :=
  frames <- gets (fun w => animationFrames (page w)) ;;
  modify (on_page (with_animationFrames [])) ;;
  forEach frames setCaretOffset.

(** The user replaces the content of the editor and leaves the caret at
    [offset]. *)
Definition userEdits (c : Content) (offset : Z) : M unit :=
  modify (on_page (with_content c)) ;;
  modify (on_page (with_selection (Caret true offset))).

(** Running a method on the world an earlier step left. *)
Definition andThen {A} (o : Outcome unit) (c : M A) : Outcome A :=
  match o with
  | Returned _ w => c w
  | Thrown e w => Thrown e w
  end.

(** ** A page to run on *)

(** The length of the HTML serialisation, for the default class and
    attribute names: text with [&], [<], [>] and the no-break space
    escaped, attribute values in double quotes. *)
Definition escapedLength (t : JSString) : Z :=
  fold_right (fun c n =>
    (if N.eqb c 38 then 5 else if N.eqb c 60 then 4 else if N.eqb c 62 then 4
     else if N.eqb c 160 then 6 else 1) + n) 0 t.

Definition attributeLength (a : JSString * JSString) : Z :=
  1 + len (fst a) + 2 + escapedLength (snd a) + 1.

Definition classAttributeLength (classes : list JSString) : Z :=
  8 + fold_right (fun c n => len c + n) 0 classes + Z.max 0 (len classes - 1) + 1.

Definition spanLength (s : Span) : Z :=
  5 + fold_right (fun a n => attributeLength a + n) 0 (attributes s)
  + classAttributeLength (classList s) + 1
  + escapedLength (textContent s) + 7.

Definition serializedLength (v : View) : Z :=
  match v with
  | ViewMarkup _ html => html
  | ViewText ts => fold_right (fun t n => escapedLength t + n) 0 ts
  | ViewContainer children =>
      12 + len (lit "paragraph") + 2
      + fold_right (fun c n =>
          match c with
          | ViewSpan s => spanLength s
          | ViewTextNode t => escapedLength t
          end + n) 0 children
      + len (lit "</div>")
  end.

(** A content-editable element holding the plain text [t], the caret at
    [offset], nothing registered yet. *)
Definition freshPage (t : JSString) (offset : Z) : Browser :=
  {| isContentEditable := true;
     editorClassList := [];
     content := Markup t (escapedLength t);
     elements := [];
     selection := Caret true offset;
     listeners := [];
     timers := [];
     nextTimerId := 0;
     animationFrames := [];
     styleInjected := false;
     innerHTMLLength := serializedLength |}.

(** ** Runs *)

Definition helloWorld : JSString := lit "Hello world. How are you?".

(** An instance with both callbacks on an editor holding [helloWorld],
    caret at 0: the first scan (the timer of [init]), the animation frame
    that puts the caret back, and one call of [update]. *)
Definition rendered : Outcome unit :=
  andThen (andThen (andThen
    (construct (freshPage helloWorld 0) (defaultOptions true true))
    (fireTimer 0)) animationFrame) update.

(** [update] once more, nothing having changed. *)
Definition rescanned : Outcome unit := andThen rendered update.

(** The same instance after its first scan. *)
Definition scanned : Outcome unit :=
  andThen (construct (freshPage helloWorld 0) (defaultOptions true true))
          (fireTimer 0).

(** The user deletes all the text, then a scan runs. *)
Definition cleared : Outcome unit :=
  andThen (andThen scanned (userEdits (Markup [] 0) 0)) update.

(** An instance on an empty editor: first scan, then [destroy]. *)
Definition destroyed : Outcome unit :=
  andThen (andThen
    (construct (freshPage [] 0) (defaultOptions true true))
    (fireTimer 0)) destroy.

(** After [destroy] the user types [Hi.]; the key press on the full stop
    reaches the editor, and 20 ms later the timer it set comes due. *)
Definition typedAfterDestroy : Outcome unit :=
  andThen (andThen (andThen destroyed
    (userEdits (Markup (lit "Hi.") 3) 3))
    (dispatchEvent Editor keydown (lit ".")))
    (fireTimer 1).

(** [destroy] right after the constructor, before the first scan. *)
Definition destroyedAtOnce : Outcome unit :=
  andThen (construct (freshPage helloWorld 0) (defaultOptions true true)) destroy.

(** ** Notions used by the further properties *)

(** [deletes p a b]: [b] is [a] with some characters taken out, all of them
    satisfying [p]. *)
Inductive deletes (p : N -> bool) : JSString -> JSString -> Prop :=
| deletes_nil : deletes p [] []
| deletes_keep c a b : deletes p a b -> deletes p (c :: a) (c :: b)
| deletes_drop c a b : p c = true -> deletes p a b -> deletes p (c :: a) b.

(** A sentence record as [buildSentenceMap] fills it in for the text [t]:
    [text] is the part of [t] from [start] to [end], [id] is derived from
    the three, [isHeading] is false. *)
Definition sentenceOf (t : JSString) (s : Sentence) : Prop :=
  exists a b : nat,
    start s = Z.of_nat a /\ end_ s = Z.of_nat b /\ (a < b <= length t)%nat /\
    text s = firstn (b - a) (skipn a t) /\
    id s = generateSentenceId (start s) (end_ s) (text s) false /\
    isHeading s = false.

(** The end of the last sentence, [lo] when there is none. *)
Definition lastEnd (lo : Z) (ss : list Sentence) : Z :=
  fold_left (fun _ s => end_ s) ss lo.

(** ** Read access *)

(** The object literal that [getSentences] and [getActiveSentence] build
    from a stored sentence. *)
Definition copySentence (s : Sentence) : Sentence :=
  mkSentence (id s) (text s) (start s) (end_ s) (isHeading s).

(** [getSentences]. *)
Definition getSentences : M (list Sentence) :=
  gets (fun w => map copySentence (map_values (sentenceMap (this w)))).

(** [getActiveSentence]; [None] is [null]. *)
Definition getActiveSentence : M (option Sentence) :=
  active <- gets (fun w => activeSentenceId (this w)) ;;
  if negb (truthy active) then ret None
  else
    sentence <- gets (fun w => map_get (sentenceMap (this w))
                                       (match active with Some i => i | None => [] end)) ;;
    ret (match sentence with
         | Some s => Some (copySentence s)
         | None => None
         end).

(** [Array.prototype.indexOf]: the first index holding [k], or -1. *)
Fixpoint indexOf (l : list JSString) (k : JSString) : Z :=
  match l with
  | [] => -1
  | x :: r => if str_eqb k x then 0
              else let i := indexOf r k in if i <? 0 then -1 else i + 1
  end.

(** [getActiveSentenceIndex]. *)
Definition getActiveSentenceIndex : M Z :=
  active <- gets (fun w => activeSentenceId (this w)) ;;
  if negb (truthy active) then ret (-1)
  else
    ids <- gets (fun w => map_keys (sentenceMap (this w))) ;;
    ret (indexOf ids (match active with Some i => i | None => [] end)).

(** [findActiveSentenceId]; [None] is [null]. *)
Definition findActiveSentenceId (caretOffset : Z) : M (option JSString) :=
  sentences <- gets (fun w => map_values (sentenceMap (this w))) ;;
  let activeIndex := findActiveSentenceIndex sentences caretOffset in
  if (0 <=? activeIndex) && (activeIndex <? len sentences) then
    i <- idAt sentences activeIndex ;;
    ret (Some i)
  else ret None.

(** ** The walk of [setCaretOffset]

    [setCaretOffset] walks the nodes under the editor in document order.
    The state of the walk is [currentOffset] and, once [found], the
    position chosen, here as the offset from the start of the editor:
    [currentOffset] plus the offset [Math.max(0, localOffset)] inside the
    text node. *)

#[warnings="-register-all"]
Inductive DomNode : Type :=
| DomText (data : JSString)
| DomElement (childNodes : list DomNode).

Fixpoint traverse (targetOffset : Z) (node : DomNode) (st : Z * option Z)
  : Z * option Z :=
  match st with
  | (_, Some _) => st
  | (currentOffset, None) =>
      match node with
      | DomText text =>
          let nextOffset := currentOffset + len text in
          if targetOffset <=? nextOffset then
            let localOffset := targetOffset - currentOffset in
            (currentOffset, Some (currentOffset + Z.max 0 localOffset))
          else (nextOffset, None)
      | DomElement childNodes =>
          fold_left (fun st' child => traverse targetOffset child st') childNodes st
      end
  end.

Fixpoint domText (node : DomNode) : JSString :=
  match node with
  | DomText data => data
  | DomElement childNodes => flat_map domText childNodes
  end.

(** Where [setCaretOffset] leaves the caret in the editor [root]: at the
    position found, or at the end of the content. *)
Definition caretAfterSet (root : DomNode) (targetOffset : Z) : Z :=
  match snd (traverse targetOffset root (0, None)) with
  | Some offset => offset
  | None => len (domText root)
  end.

(** ** What can happen to an instance *)

Inductive Action : Type :=
| Dispatch (t : Target) (ty : EventType) (key : JSString)
| TimerDue (n : nat)
| NextFrame
| UserEdits (c : Content) (offset : Z)
| CallUpdate
| CallSetFocusMode (enabled : bool)
| CallToggleFocusMode
| CallDestroy.

(** The world after an action; an exception of [destroy] reaches its
    caller and the world stays as the method left it. *)
Definition run (a : Action) (w : World) : World :=
  match a with
  | Dispatch t ty key => world_of (dispatchEvent t ty key w)
  | TimerDue n => world_of (fireTimer n w)
  | NextFrame => world_of (animationFrame w)
  | UserEdits c offset => world_of (userEdits c offset w)
  | CallUpdate => world_of (update w)
  | CallSetFocusMode enabled => world_of (setFocusMode enabled w)
  | CallToggleFocusMode => world_of (toggleFocusMode w)
  | CallDestroy => world_of (destroy w)
  end.

Fixpoint runAll (actions : list Action) (w : World) : World :=
  match actions with
  | [] => w
  | a :: r => runAll r (run a w)
  end.

(** At most one timer is pending, and it is the one [updateTimer] names;
    the ids of pending timers are below the next id to be given out. *)
Definition singleSlot (w : World) : Prop :=
  (timers (page w) = [] \/
   exists t, timers (page w) = [t] /\ updateTimer (this w) = Some (timerId t)) /\
  (forall t, In t (timers (page w)) -> (timerId t < nextTimerId (page w))%nat).

(** A method that leaves [f] of the world as it found it, however it ends. *)
Definition keeps {X A} (f : World -> X) (c : M A) : Prop :=
  forall w, f (world_of (c w)) = f w.

(** A method that always returns. *)
Definition returns {A} (c : M A) : Prop :=
  forall w, returned (c w) = true.

(** What the timer slot is made of. *)
Definition schedule (w : World) : list Timer * nat * option nat :=
  (timers (page w), nextTimerId (page w), updateTimer (this w)).

(** What a rebuild replaces, and the options. *)
Record Rendering : Type := mkRendering {
  r_content : Content;
  r_spans : nat;
  r_sentenceMap : JSMap Sentence;
  r_sentenceElements : JSMap ElemRef;
  r_lastContentHash : Fingerprint;
  r_animationFrames : list Z;
  r_options : Options
}.

Definition rendering (w : World) : Rendering :=
  {| r_content := content (page w);
     r_spans := length (elements (page w));
     r_sentenceMap := sentenceMap (this w);
     r_sentenceElements := sentenceElements (this w);
     r_lastContentHash := lastContentHash (this w);
     r_animationFrames := animationFrames (page w);
     r_options := options (this w) |}.

(** The span that one round of [rebuildHighlights] creates. *)
Definition renderedSpan (o : Options) (activeIndex i : Z) (s : Sentence) : Span :=
  let active := (i =? activeIndex) && (0 <=? activeIndex) in
  let attrs0 := setAttribute (sentenceDataAttribute o) (id s) [] in
  let classes0 := [sentenceClass o] in
  let classes1 := if active then classList_add (activeSentenceClass o) classes0 else classes0 in
  let attrs1 := if active then setAttribute (activeSentenceDataAttribute o) (lit "true") attrs0
                else attrs0 in
  let classes2 := if isHeading s
                  then classList_add (lit "sentence-highlighter-heading") classes1
                  else classes1 in
  mkSpan attrs1 classes2 (text s).

Fixpoint renderedSpans (o : Options) (activeIndex i : Z) (ss : list Sentence)
  : list Span :=
  match ss with
  | [] => []
  | s :: r => renderedSpan o activeIndex i s :: renderedSpans o activeIndex (i + 1) r
  end.

(** The condition of [scanAndHighlight] for a full rebuild, on the state
    the scan starts in. *)
Definition needsRebuild (w : World) : bool :=
  let t := textOf (view (page w)) in
  let contentHash :=
    numToString (len t) ++ lit "-" ++ numToString (innerHTMLLength (page w) (view (page w))) in
  negb (match lastContentHash (this w) with
        | FpString h => str_eqb contentHash h
        | FpNull => false
        end)
  || (map_size (sentenceElements (this w)) =? 0)%nat
  || negb ((0 <? map_size (sentenceElements (this w)))%nat
           && (0 <? length (querySelectorAll (page w)
                              (sentenceDataAttribute (options (this w)))))%nat).

(** The collection as the scan stores it: [sentenceMap.set(s.id, s)] for
    each sentence, from an empty map. *)
Definition storeAll (ss : list Sentence) : JSMap Sentence :=
  fold_left (fun m s => map_set m (id s) s) ss [].

(** The two parts of a scan that finds sentences, as [scanAndHighlight]
    runs them one after the other: the branch taken (full rebuild or
    incremental update), then storing the sentences, the callback and the
    scrolling. *)
Definition scanBranch (rebuild : bool) (newSentences : list Sentence)
           (activeIndex caretOffset : Z) (contentHash : JSString) : M unit :=
  if rebuild then
    rebuildHighlights newSentences activeIndex caretOffset ;;
    modify (on_this (with_lastContentHash (FpString contentHash)))
  else
    updateActiveSentenceFromMap newSentences activeIndex.

Definition scanStore (newSentences : list Sentence) : M unit :=
  modify (on_this (with_sentenceMap [])) ;;
  forEach newSentences (fun s =>
    modify (on_this (fun t => with_sentenceMap (map_set (sentenceMap t) (id s) s) t))) ;;
  notify <- opt onSentenceChange ;;
  when notify
    (values <- gets (fun w => map_values (sentenceMap (this w))) ;;
     modify (record (SentenceChange values))) ;;
  scroll <- opt autoScroll ;;
  when scroll scrollCaretToCenter.

(** What a scan reads before it changes anything. *)
Definition scanText (w : World) : JSString := textOf (view (page w)).

Definition scanHash (w : World) : JSString :=
  numToString (len (scanText w)) ++ lit "-"
  ++ numToString (innerHTMLLength (page w) (view (page w))).

Definition scanCaret (w : World) : Z :=
  match selection (page w) with
  | NoSelection => 0
  | Caret _ offset => offset
  end.

Definition scanSentences (w : World) : list Sentence :=
  buildSentenceMap (sentenceEndings (options (this w))) (scanText w).

Fixpoint hasTextNode (node : DomNode) : bool :=
  match node with
  | DomText _ => true
  | DomElement childNodes => existsb hasTextNode childNodes
  end.

(** The six listeners of [attachEvents]. *)
Definition attachedListeners : list Listener :=
  [mkListener Editor input BoundHandleInput;
   mkListener Editor keydown KeydownArrow;
   mkListener Editor click BoundHandleNavigation;
   mkListener Editor keyup KeyupArrow;
   mkListener Document selectionchange BoundHandleCaretMove;
   mkListener Editor focus FocusArrow].

(** * Properties of the tokenizer *)

(** Closed statements about a run are settled by evaluation. *)
Ltac evaluate := repeat apply conj; vm_compute; reflexivity.

Lemma str_eqb_eq a b : str_eqb a b = true <-> a = b.
Proof.
  unfold str_eqb. destruct (list_eq_dec N.eq_dec a b); split; congruence.
Qed.

Lemma str_eqb_refl a : str_eqb a a = true.
Proof. apply str_eqb_eq. reflexivity. Qed.

Lemma takeWhile_dropWhile {A} (p : A -> bool) l :
  takeWhile p l ++ dropWhile p l = l.
Proof.
  induction l as [|x l IH]; simpl; [reflexivity|].
  destruct (p x); simpl; [now rewrite IH | reflexivity].
Qed.

Lemma takeWhile_all {A} (p : A -> bool) l : forallb p (takeWhile p l) = true.
Proof.
  induction l as [|x l IH]; simpl; [reflexivity|].
  destruct (p x) eqn:E; simpl; [now rewrite E | reflexivity].
Qed.

Lemma dropWhile_head {A} (p : A -> bool) l x r :
  dropWhile p l = x :: r -> p x = false.
Proof.
  induction l as [|y l IH]; simpl; [discriminate|].
  destruct (p y) eqn:E; [exact IH | intros H; injection H as -> _; exact E].
Qed.

Lemma dropWhile_snoc_nonempty {A} (p : A -> bool) l x :
  p x = false -> dropWhile p (l ++ [x]) <> [].
Proof.
  intros Hx. induction l as [|y l IH]; simpl.
  - rewrite Hx. discriminate.
  - destruct (p y); [exact IH | discriminate].
Qed.

(** A string whose first character is not white space does not trim to
    the empty string. *)
Lemma trim_nonempty c r : isSpace c = false -> trim (c :: r) <> [].
Proof.
  intros Hc. unfold trim. simpl dropWhile at 2. rewrite Hc. simpl rev at 2.
  intros H. apply (f_equal (@rev N)) in H. rewrite rev_involutive in H.
  simpl in H. revert H. apply dropWhile_snoc_nonempty. exact Hc.
Qed.

Lemma trim_nonempty_length s : trim s <> [] -> (0 <? length (trim s))%nat = true.
Proof.
  destruct (trim s); [congruence | reflexivity].
Qed.

Section TokenizerFacts.

Variable E : list N.

Local Abbreviation isE := (isEnding E).
Local Abbreviation notE := (notEnding E).

(** What a match looks like: a non-empty body of non-ending characters;
    then either the end of the text, or one ending character, white space,
    and a rest that does not start with white space. *)
Lemma match_here_spec s chunk :
  match_here E s = Some chunk ->
  exists c body term ws rest,
    chunk = (c :: body) ++ term ++ ws /\ s = chunk ++ rest /\
    forallb notE (c :: body) = true /\ forallb isSpace ws = true /\
    ((term = [] /\ ws = [] /\ rest = []) \/
     (exists e, term = [e] /\ isE e = true /\
                forall x r, rest = x :: r -> isSpace x = false)).
Proof.
  unfold match_here.
  pose proof (takeWhile_dropWhile notE s) as Hs.
  pose proof (takeWhile_all notE s) as Hb.
  destruct (takeWhile notE s) as [|c body] eqn:Eb; [discriminate|].
  intros H. injection H as <-.
  destruct (dropWhile notE s) as [|e r1] eqn:Er.
  - exists c, body, [], [], []. simpl. rewrite !app_nil_r in *.
    repeat split; auto.
  - pose proof (dropWhile_head _ _ _ _ Er) as He.
    unfold notEnding in He. apply negb_false_iff in He. rewrite He. simpl skipn.
    exists c, body, [e], (takeWhile isSpace r1), (dropWhile isSpace r1).
    repeat split; auto.
    + rewrite <- Hs at 1. simpl. rewrite <- !app_assoc. simpl.
      now rewrite takeWhile_dropWhile.
    + apply takeWhile_all.
    + right. exists e. repeat split; auto.
      intros x r Hx. exact (dropWhile_head _ _ _ _ Hx).
Qed.

Lemma match_here_ending c r : isE c = true -> match_here E (c :: r) = None.
Proof.
  intros Hc. unfold match_here. simpl. unfold notEnding. now rewrite Hc.
Qed.

(** [search] passes over ending characters only. *)
Lemma search_spec s i :
  (search E s i = None /\ forallb isE s = true) \/
  (exists gap chunk rest,
      s = gap ++ chunk ++ rest /\ forallb isE gap = true /\
      match_here E (chunk ++ rest) = Some chunk /\
      search E s i = Some ((i + length gap)%nat, chunk)).
Proof.
  revert i. induction s as [|c r IH]; intros i.
  - left. split; reflexivity.
  - destruct (match_here E (c :: r)) as [chunk|] eqn:Em.
    + right. destruct (match_here_spec _ _ Em) as (c0 & body & term & ws & rest & Hc & Hs & _).
      exists [], chunk, rest. simpl. rewrite Nat.add_0_r.
      repeat split; auto.
      * now rewrite <- Hs.
      * now rewrite Em.
    + assert (Hc : isE c = true).
      { unfold match_here in Em. simpl in Em. unfold notEnding in Em.
        destruct (isE c); [reflexivity | discriminate]. }
      destruct (IH (S i)) as [[Hn Ha] | (gap & chunk & rest & Hs & Hg & Hm & Hr)].
      * left. simpl. change (match_here E (c :: r)) with (match_here E (c :: r)).
        rewrite Em, Hc. split; [exact Hn | exact Ha].
      * right. exists (c :: gap), chunk, rest. simpl. rewrite Hc, Em.
        repeat split; auto.
        -- now rewrite Hs.
        -- rewrite Hr. do 2 f_equal. lia.
Qed.

Lemma search_all_endings s i : forallb isE s = true -> search E s i = None.
Proof.
  revert i. induction s as [|c r IH]; intros i H; [reflexivity|].
  simpl in H. apply andb_true_iff in H as [Hc Hr].
  simpl. fold (match_here E (c :: r)). rewrite (match_here_ending _ _ Hc).
  now apply IH.
Qed.

Lemma regex_exec_at pre s :
  regex_exec E (pre ++ s) (length pre) = search E s (length pre).
Proof.
  unfold regex_exec.
  replace (length (pre ++ s) <? length pre)%nat with false
    by (symmetry; apply Nat.ltb_ge; rewrite length_app; lia).
  rewrite skipn_app, skipn_all, Nat.sub_diag. reflexivity.
Qed.

(** *** The phases of [tidy] along a match *)

Lemma tidy_body b t :
  forallb notE b = true -> tidy E InBody (b ++ t) = tidy E InBody t.
Proof.
  induction b as [|c b IH]; simpl; [reflexivity|].
  intros H. apply andb_true_iff in H as [Hc Hb].
  unfold notEnding in Hc. apply negb_true_iff in Hc. rewrite Hc. now apply IH.
Qed.

Lemma tidy_space ws t :
  forallb isSpace ws = true -> tidy E AfterEnding (ws ++ t) = tidy E AfterEnding t.
Proof.
  induction ws as [|c ws IH]; simpl; [reflexivity|].
  intros H. apply andb_true_iff in H as [Hc Hw]. rewrite Hc. now apply IH.
Qed.

Lemma tidy_resume rest :
  (forall x r, rest = x :: r -> isSpace x = false) ->
  tidy E AfterEnding rest = tidy E AtStart rest.
Proof.
  destruct rest as [|x r]; [reflexivity|].
  intros H. simpl. now rewrite (H x r eq_refl).
Qed.

(** After a match the matcher is again at a place where a match has to
    start. *)
Lemma tidy_after_match chunk rest :
  match_here E (chunk ++ rest) = Some chunk ->
  tidy E AtStart (chunk ++ rest) = true ->
  tidy E AtStart rest = true.
Proof.
  intros Hm Ht.
  destruct (match_here_spec _ _ Hm) as (c & body & term & ws & rest' & Hc & Hs & Hb & Hw & Hcase).
  apply app_inv_head in Hs. subst rest'.
  destruct Hcase as [(_ & _ & ->) | (e & -> & He & Hrest)]; [reflexivity|].
  subst chunk. simpl in Hb. apply andb_true_iff in Hb as [Hc Hb].
  unfold notEnding in Hc. apply negb_true_iff in Hc.
  simpl in Ht. rewrite Hc in Ht.
  rewrite <- !app_assoc in Ht. rewrite (tidy_body _ _ Hb) in Ht.
  simpl in Ht. rewrite He in Ht. rewrite (tidy_space _ _ Hw) in Ht.
  now rewrite <- (tidy_resume _ Hrest).
Qed.

(** In a tidy text a match starts right where the matcher resumes. *)
Lemma tidy_no_gap gap chunk rest :
  forallb isE gap = true ->
  match_here E (chunk ++ rest) = Some chunk ->
  tidy E AtStart (gap ++ chunk ++ rest) = true ->
  gap = [].
Proof.
  intros Hg Hm Ht. destruct gap as [|g gap]; [reflexivity|]. exfalso.
  simpl in Hg. apply andb_true_iff in Hg as [Hg1 Hg2].
  simpl in Ht. rewrite Hg1 in Ht. rewrite forallb_app in Ht.
  apply andb_true_iff in Ht as [_ Ht].
  destruct (match_here_spec _ _ Hm) as (c & body & term & ws & rest' & Hc & _ & Hb & _).
  rewrite Hc in Ht. simpl in Ht, Hb.
  apply andb_true_iff in Hb as [Hb _]. unfold notEnding in Hb.
  apply negb_true_iff in Hb. rewrite Hb in Ht. discriminate.
Qed.

Lemma match_here_nonempty chunk rest :
  match_here E (chunk ++ rest) = Some chunk ->
  (0 < length chunk)%nat /\ forall x r, rest = x :: r -> isSpace x = false.
Proof.
  intros Hm.
  destruct (match_here_spec _ _ Hm) as (c & body & term & ws & rest' & Hc & Hs & _ & _ & Hcase).
  apply app_inv_head in Hs. subst rest'. split.
  - rewrite Hc. simpl. lia.
  - destruct Hcase as [(_ & _ & ->) | (e & _ & _ & Hrest)]; [discriminate | exact Hrest].
Qed.

(** *** The loop *)

Lemma concatTexts_app a b : concatTexts (a ++ b) = concatTexts a ++ concatTexts b.
Proof. apply flat_map_app. Qed.

(** The loop from position [length pre] on, with [s] still to read:
    the sentences it adds are ordered, the loop ends at the end [q] of
    the last match, and what is left there does not start with white
    space unless nothing was matched.  On a tidy text the matches are
    contiguous and, with what is left at [q], make up [s]. *)
Lemma while_exec_spec fuel : forall s pre acc,
  (length s < fuel)%nat ->
  exists new q,
    while_exec E fuel (pre ++ s) (length pre) acc = (acc ++ new, q) /\
    (length pre <= q <= length (pre ++ s))%nat /\
    ordered_between (Z.of_nat (length pre)) new (Z.of_nat q) /\
    regex_exec E (pre ++ s) q = None /\
    (new = [] -> q = length pre) /\
    (new <> [] -> forall x r, skipn q (pre ++ s) = x :: r -> isSpace x = false) /\
    (tidy E AtStart s = true ->
     contiguous_between (Z.of_nat (length pre)) new (Z.of_nat q) /\
     concatTexts new ++ skipn q (pre ++ s) = s).
Proof.
  induction fuel as [|fuel IH]; intros s pre acc Hfuel; [lia|].
  simpl while_exec. rewrite regex_exec_at.
  destruct (search_spec s (length pre))
    as [[Hn Ha] | (gap & chunk & rest & Hs & Hg & Hm & Hr)].
  - rewrite Hn. exists [], (length pre). rewrite app_nil_r.
    rewrite regex_exec_at, Hn.
    rewrite length_app, skipn_app, skipn_all, Nat.sub_diag. simpl.
    repeat apply conj; auto; try lia; congruence.
  - rewrite Hr.
    destruct (match_here_nonempty _ _ Hm) as [Hlen Hrest].
    assert (Htext : pre ++ s = (pre ++ gap ++ chunk) ++ rest)
      by (rewrite Hs, <- !app_assoc; reflexivity).
    assert (Hpos : (length pre + length gap + length chunk)%nat
                   = length (pre ++ gap ++ chunk))
      by (rewrite !length_app; lia).
    rewrite Hpos, Htext.
    set (sent := mkSentence _ _ _ _ _).
    destruct (IH rest (pre ++ gap ++ chunk) (acc ++ [sent]))
      as (new & q & Hw & Hq & Hord & Hex & Hnil & Htail & Htidy).
    { rewrite Hs, !length_app in Hfuel. lia. }
    exists (sent :: new), q. rewrite Hw, <- app_assoc. simpl app at 1.
    rewrite !length_app in Hq |- *. rewrite !length_app in Hord.
    repeat apply conj; auto; try lia.
    + simpl. unfold len. lia.
    + simpl. unfold len. lia.
    + simpl. unfold len.
      replace (Z.of_nat (length pre + length gap) + Z.of_nat (length chunk))
        with (Z.of_nat (length pre + (length gap + length chunk))) by lia.
      exact Hord.
    + discriminate.
    + intros _. destruct new as [|s' new']; [|apply Htail; discriminate].
      rewrite (Hnil eq_refl), skipn_app, skipn_all, Nat.sub_diag. simpl.
      exact Hrest.
    + intros H. rewrite Hs in H. pose proof (tidy_no_gap _ _ _ Hg Hm H) as ->.
      simpl in H. destruct (Htidy (tidy_after_match _ _ Hm H)) as [Hc Hcat].
      split.
      * simpl. unfold len. rewrite Nat.add_0_r. split; [reflexivity|].
        split; [lia|].
        simpl in Hc. rewrite length_app in Hc.
        replace (Z.of_nat (length pre) + Z.of_nat (length chunk))
          with (Z.of_nat (length pre + length chunk)) by lia.
        exact Hc.
      * simpl in Hcat, Hs |- *. rewrite <- app_assoc, Hcat. now rewrite Hs.
Qed.

Lemma isBlank_false_trim t : isBlank t = false -> trim t <> [].
Proof. unfold isBlank. destruct (trim t); [discriminate | discriminate]. Qed.

(** [buildSentenceMap] on a text that is not blank: the matches of the
    loop, followed by the text left after the last match when there is
    any.  The final fallback never applies. *)
Lemma buildSentenceMap_unfold t :
  isBlank t = false ->
  exists new q,
    buildSentenceMap E t = new ++ remainder t q /\
    (q <= length t)%nat /\
    ordered_between 0 new (Z.of_nat q) /\
    regex_exec E t q = None /\
    (tidy E AtStart t = true ->
     contiguous_between 0 new (Z.of_nat q) /\ concatTexts new ++ skipn q t = t).
Proof.
  intros Hb.
  destruct (while_exec_spec (S (length t)) t [] [] (Nat.lt_succ_diag_r _))
    as (new & q & Hw & Hq & Hord & Hex & Hnil & Htail & Htidy).
  simpl in Hw, Hq, Hord, Hex, Hnil, Htail, Htidy.
  exists new, q. repeat apply conj; auto; try lia.
  unfold buildSentenceMap, remainder. rewrite Hb. simpl in Hw |- *. rewrite Hw.
  pose proof (isBlank_false_trim _ Hb) as Htrim.
  destruct (q <? length t)%nat eqn:Hlt.
  - unfold substring_from.
    assert (Hrem : trim (skipn q t) <> []).
    { destruct new as [|s0 new'].
      - now rewrite (Hnil eq_refl).
      - destruct (skipn q t) as [|x r] eqn:Hsk.
        + apply Nat.ltb_lt in Hlt.
          apply (f_equal (@length N)) in Hsk. rewrite length_skipn in Hsk.
          simpl in Hsk. lia.
        + apply trim_nonempty. apply (Htail ltac:(discriminate) x r eq_refl). }
    rewrite (trim_nonempty_length _ Hrem).
    rewrite length_app. simpl.
    replace (length new + 1 =? 0)%nat with false
      by (symmetry; apply Nat.eqb_neq; lia).
    reflexivity.
  - rewrite app_nil_r.
    destruct new as [|s0 new']; [|reflexivity]. exfalso.
    apply Nat.ltb_ge in Hlt. rewrite (Hnil eq_refl) in Hlt.
    destruct t; [now apply Htrim | simpl in Hlt; lia].
Qed.

(** The loop always leaves through its condition: the bound on the
    number of rounds is never what stops it. *)
Lemma while_exec_fuel t :
  regex_exec E t (snd (while_exec E (S (length t)) t 0 [])) = None.
Proof.
  destruct (while_exec_spec (S (length t)) t [] [] (Nat.lt_succ_diag_r _))
    as (new & q & Hw & _ & _ & Hex & _).
  simpl in Hw, Hex. simpl. rewrite Hw. exact Hex.
Qed.

End TokenizerFacts.

(** * Round trip and contiguity *)

Section RoundTrip.

Variable E : list N.

Lemma concat_remainder t q :
  (q <= length t)%nat -> concatTexts (remainder t q) = skipn q t.
Proof.
  intros Hq. unfold remainder. destruct (q <? length t)%nat eqn:Hlt; simpl.
  - apply app_nil_r.
  - apply Nat.ltb_ge in Hlt. symmetry. apply skipn_all2. lia.
Qed.

Lemma contiguous_between_app a xs b ys c :
  contiguous_between a xs b -> contiguous_between b ys c ->
  contiguous_between a (xs ++ ys) c.
Proof.
  revert a. induction xs as [|x xs IH]; simpl; intros a.
  - now intros ->.
  - intros (H1 & H2 & H3) Hy. repeat split; auto.
Qed.

Lemma ordered_between_app a xs b ys c :
  ordered_between a xs b -> ordered_between b ys c ->
  ordered_between a (xs ++ ys) c.
Proof.
  revert a. induction xs as [|x xs IH]; simpl; intros a.
  - intros Hab Hy. destruct ys as [|y ys]; simpl in *; [lia|].
    destruct Hy as (H1 & H2 & H3). repeat split; auto; lia.
  - intros (H1 & H2 & H3) Hy. repeat split; auto.
Qed.

Lemma remainder_between t q :
  (q <= length t)%nat -> contiguous_between (Z.of_nat q) (remainder t q) (len t).
Proof.
  intros Hq. unfold remainder, len.
  destruct (q <? length t)%nat eqn:Hlt; simpl.
  - apply Nat.ltb_lt in Hlt. repeat split; lia.
  - apply Nat.ltb_ge in Hlt. lia.
Qed.

Lemma contiguous_ordered_between a ss b :
  contiguous_between a ss b -> ordered_between a ss b.
Proof.
  revert a. induction ss as [|s ss IH]; simpl; intros a.
  - lia.
  - intros (H1 & H2 & H3). repeat split; auto; lia.
Qed.

Lemma ordered_between_from a ss b :
  ordered_between a ss b -> ordered_from a ss = true.
Proof.
  revert a. induction ss as [|s ss IH]; simpl; intros a; [reflexivity|].
  intros (H1 & H2 & H3). rewrite (IH _ H3).
  apply Z.leb_le in H1. apply Z.ltb_lt in H2. now rewrite H1, H2.
Qed.

Lemma ordered_from_ordered a ss : ordered_from a ss = true -> ordered ss = true.
Proof.
  destruct ss as [|s ss]; [reflexivity|]. simpl.
  rewrite !andb_true_iff. intros [[_ H2] H3]. rewrite Z.leb_refl. auto.
Qed.

Lemma contiguous_between_contiguous a ss b :
  contiguous_between a ss b -> contiguous ss = true.
Proof.
  revert a. induction ss as [|s ss IH]; intros a; [reflexivity|].
  intros (H1 & H2 & H3). destruct ss as [|s' ss']; [reflexivity|].
  change (contiguous (s :: s' :: ss'))
    with ((end_ s =? start s') && contiguous (s' :: ss')).
  rewrite (IH _ H3). destruct H3 as (H3 & _). rewrite H3, Z.eqb_refl.
  reflexivity.
Qed.

(** Whatever the text, the sentences are ordered and do not overlap. *)
Lemma buildSentenceMap_ordered t : ordered (buildSentenceMap E t) = true.
Proof.
  destruct (isBlank t) eqn:Hb.
  - unfold buildSentenceMap. now rewrite Hb.
  - destruct (buildSentenceMap_unfold E t Hb) as (new & q & -> & Hq & Hord & _).
    apply (ordered_from_ordered 0), (ordered_between_from _ _ (len t)).
    eapply ordered_between_app; [exact Hord|].
    apply contiguous_ordered_between, remainder_between, Hq.
Qed.

(** On a tidy text the sentences tile the text: they start at 0, each
    starts where the one before ends, and the last ends with the text. *)
Lemma buildSentenceMap_tiles t :
  isBlank t = false -> tidy E AtStart t = true ->
  contiguous_between 0 (buildSentenceMap E t) (len t).
Proof.
  intros Hb Ht.
  destruct (buildSentenceMap_unfold E t Hb) as (new & q & -> & Hq & _ & _ & Htidy).
  destruct (Htidy Ht) as [Hc _].
  eapply contiguous_between_app; [exact Hc | apply remainder_between, Hq].
Qed.

(** On a tidy text every sentence ends where the next one starts. *)
Lemma buildSentenceMap_contiguous_on_tidy t :
  isBlank t = false -> tidy E AtStart t = true ->
  contiguous (buildSentenceMap E t) = true.
Proof.
  intros Hb Ht.
  exact (contiguous_between_contiguous _ _ _ (buildSentenceMap_tiles t Hb Ht)).
Qed.

(** The texts of the sentences of a tidy text that is not blank add up to
    the text. *)
Lemma concatTexts_tidy t :
  isBlank t = false -> tidy E AtStart t = true ->
  concatTexts (buildSentenceMap E t) = t.
Proof.
  intros Hb Ht.
  destruct (buildSentenceMap_unfold E t Hb) as (new & q & -> & Hq & _ & _ & Htidy).
  destruct (Htidy Ht) as [_ Hcat].
  now rewrite concatTexts_app, concat_remainder.
Qed.

End RoundTrip.

(** C1 at the text [Wait... what?] with the default endings.  The text is
    not empty, the matcher cannot start a sentence at the second or the
    third full stop and passes over them, and the texts of the two
    sentences add up to [Wait. what?]: two characters of the text are
    dropped. *)
Theorem buildSentenceMap_roundtrip_ellipsis :
  lit "Wait... what?" <> [] /\
  isBlank (lit "Wait... what?") = false /\
  map (fun s => (text s, start s, end_ s))
      (buildSentenceMap defaultEndings (lit "Wait... what?"))
  = [(lit "Wait.", 0, 5); (lit " what?", 7, 13)] /\
  concatTexts (buildSentenceMap defaultEndings (lit "Wait... what?"))
  = lit "Wait. what?" /\
  concatTexts (buildSentenceMap defaultEndings (lit "Wait... what?"))
  <> lit "Wait... what?".
Proof. repeat apply conj; vm_compute; try reflexivity; discriminate. Qed.

(** C2 at the text [Hi..there]: the second full stop belongs to no
    sentence, so the first sentence ends at 3 and the second starts at 4. *)
Theorem buildSentenceMap_gap :
  map (fun s => (text s, start s, end_ s))
      (buildSentenceMap defaultEndings (lit "Hi..there"))
  = [(lit "Hi.", 0, 3); (lit "there", 4, 9)] /\
  contiguous (buildSentenceMap defaultEndings (lit "Hi..there")) = false /\
  concatTexts (buildSentenceMap defaultEndings (lit "Hi..there")) = lit "Hi.there".
Proof. evaluate. Qed.

(** C9.  [Hello world. How are you?] with the default endings gives two
    sentences: [Hello world. ] from 0 to 13 and [How are you?] from 13
    to 25. *)
Theorem buildSentenceMap_hello_world :
  buildSentenceMap defaultEndings (lit "Hello world. How are you?")
  = [ mkSentence (generateSentenceId 0 13 (lit "Hello world. ") false)
                 (lit "Hello world. ") 0 13 false;
      mkSentence (generateSentenceId 13 25 (lit "How are you?") false)
                 (lit "How are you?") 13 25 false ].
Proof. reflexivity. Qed.

(** * Active-sentence resolution *)

Section ActiveSentence.

Variable caret : Z.

Lemma ordered_from_weaken lo lo' ss :
  lo' <= lo -> ordered_from lo ss = true -> ordered_from lo' ss = true.
Proof.
  destruct ss as [|s ss]; [reflexivity|]. simpl.
  rewrite !andb_true_iff, !Z.leb_le. intros Hlo [[H1 H2] H3].
  repeat split; auto; lia.
Qed.

(** In an ordered sequence every sentence starts at or after the lower
    bound, and every sentence but the first strictly after it. *)
Lemma ordered_from_nth lo ss i s :
  ordered_from lo ss = true -> nth_error ss i = Some s ->
  lo <= start s /\ start s < end_ s /\ ((0 < i)%nat -> lo < start s).
Proof.
  revert lo i. induction ss as [|s0 ss IH]; intros lo i Hord Hn.
  - destruct i; discriminate.
  - simpl in Hord. rewrite !andb_true_iff, Z.leb_le, Z.ltb_lt in Hord.
    destruct Hord as [[H1 H2] H3]. destruct i as [|i]; simpl in Hn.
    + injection Hn as <-. repeat split; auto; lia.
    + destruct (IH _ _ H3 Hn) as (Ha & Hb & _). repeat split; lia.
Qed.

(** Caret inside [[start, end)] of the sentence at index [i]. *)
Lemma findActive_for_inside rest : forall lo k n i s,
  ordered_from lo rest = true -> n = k + len rest ->
  nth_error rest i = Some s -> start s <= caret < end_ s ->
  findActive_for rest k n caret = Some (k + Z.of_nat i).
Proof.
  induction rest as [|s0 rest IH]; intros lo k n i s Hord Hn Hi Hc.
  - destruct i; discriminate.
  - destruct i as [|i]; simpl in Hi.
    + injection Hi as ->. simpl.
      replace (start s <=? caret) with true by (symmetry; apply Z.leb_le; lia).
      replace (caret <? end_ s) with true by (symmetry; apply Z.ltb_lt; lia).
      simpl. f_equal. lia.
    + simpl in Hord. rewrite !andb_true_iff, Z.leb_le, Z.ltb_lt in Hord.
      destruct Hord as [[H1 H2] H3].
      destruct (ordered_from_nth _ _ _ _ H3 Hi) as (Ha & Hb & Hpos).
      simpl.
      replace (caret <? end_ s0) with false by (symmetry; apply Z.ltb_ge; lia).
      rewrite andb_false_r.
      destruct (caret =? end_ s0) eqn:Heq; simpl.
      * apply Z.eqb_eq in Heq.
        destruct i as [|i]; [|specialize (Hpos ltac:(lia)); lia].
        replace (k <? n - 1) with true.
        -- simpl. apply f_equal. lia.
        -- symmetry. apply Z.ltb_lt. subst n. unfold len. simpl length.
           destruct rest; [discriminate|]. simpl length. lia.
      * rewrite (IH (end_ s0) (k + 1) n i s); auto.
        -- f_equal. lia.
        -- subst n. unfold len. simpl length. lia.
Qed.

(** Caret exactly at the end of the sentence at index [i], which is not
    the last. *)
Lemma findActive_for_boundary rest : forall lo k n i s,
  ordered_from lo rest = true -> n = k + len rest ->
  nth_error rest i = Some s -> caret = end_ s -> (S i < length rest)%nat ->
  findActive_for rest k n caret = Some (k + Z.of_nat i + 1).
Proof.
  induction rest as [|s0 rest IH]; intros lo k n i s Hord Hn Hi Hc Hlt.
  - destruct i; discriminate.
  - simpl in Hord. rewrite !andb_true_iff, Z.leb_le, Z.ltb_lt in Hord.
    destruct Hord as [[H1 H2] H3].
    destruct i as [|i]; simpl in Hi.
    + injection Hi as ->. simpl.
      replace (caret <? end_ s) with false by (symmetry; apply Z.ltb_ge; lia).
      rewrite andb_false_r.
      replace (caret =? end_ s) with true by (symmetry; apply Z.eqb_eq; lia).
      replace (k <? n - 1) with true.
      * simpl. f_equal. lia.
      * symmetry. apply Z.ltb_lt. subst n. unfold len. simpl in Hlt |- *. lia.
    + destruct (ordered_from_nth _ _ _ _ H3 Hi) as (Ha & Hb & _).
      simpl.
      replace (caret <? end_ s0) with false by (symmetry; apply Z.ltb_ge; lia).
      rewrite andb_false_r.
      replace (caret =? end_ s0) with false by (symmetry; apply Z.eqb_neq; lia).
      simpl. rewrite (IH (end_ s0) (k + 1) n i s); auto.
      * f_equal. lia.
      * subst n. unfold len. simpl length. lia.
      * simpl in Hlt. lia.
Qed.

(** Caret at or past the start of the last sentence: the loop returns
    the last index or runs to its end. *)
Lemma findActive_for_last front : forall lo k n s,
  ordered_from lo (front ++ [s]) = true -> n = k + len (front ++ [s]) ->
  start s <= caret ->
  findActive_for (front ++ [s]) k n caret = Some (n - 1) \/
  findActive_for (front ++ [s]) k n caret = None.
Proof.
  induction front as [|s0 front IH]; intros lo k n s Hord Hn Hc.
  - simpl. unfold len in Hn. simpl in Hn.
    replace (start s <=? caret) with true by (symmetry; apply Z.leb_le; lia).
    replace (k <? n - 1) with false by (symmetry; apply Z.ltb_ge; lia).
    rewrite andb_false_r. simpl.
    destruct (caret <? end_ s); [left; f_equal; lia | right; reflexivity].
  - simpl app in *. simpl in Hord.
    rewrite !andb_true_iff, Z.leb_le, Z.ltb_lt in Hord.
    destruct Hord as [[H1 H2] H3].
    assert (Hlast : nth_error (front ++ [s]) (length front) = Some s)
      by (rewrite nth_error_app2, Nat.sub_diag; auto).
    destruct (ordered_from_nth _ _ _ _ H3 Hlast) as (Ha & Hb & Hpos).
    simpl.
    replace (caret <? end_ s0) with false by (symmetry; apply Z.ltb_ge; lia).
    rewrite andb_false_r.
    destruct (caret =? end_ s0) eqn:Heq; simpl.
    + apply Z.eqb_eq in Heq.
      destruct front as [|s1 front]; [|simpl in Hpos; lia].
      unfold len in Hn. simpl in Hn.
      replace (k <? n - 1) with true by (symmetry; apply Z.ltb_lt; lia).
      left. f_equal. lia.
    + apply (IH (end_ s0)); auto.
      subst n. unfold len. simpl length. lia.
Qed.

Lemma rev_head_last {A} (l : list A) x r :
  rev l = x :: r -> l = rev r ++ [x].
Proof.
  intros H. apply (f_equal (@rev A)) in H. now rewrite rev_involutive in H.
Qed.

Lemma nth_error_last {A} (l : list A) x :
  nth_error l (length l - 1) = Some x -> exists front, l = front ++ [x].
Proof.
  destruct (rev l) as [|y r] eqn:Hr.
  - apply (f_equal (@rev A)) in Hr. rewrite rev_involutive in Hr. subst l.
    discriminate.
  - apply rev_head_last in Hr. subst l. rewrite length_app. simpl.
    rewrite nth_error_app2 by lia.
    replace (length (rev r) + 1 - 1 - length (rev r))%nat with 0%nat by lia.
    simpl. intros H. injection H as ->. now exists (rev r).
Qed.

(** The result of the loop is an index of the array. *)
Lemma findActive_for_range rest : forall k n r,
  n = k + len rest -> findActive_for rest k n caret = Some r -> k <= r < n.
Proof.
  induction rest as [|s rest IH]; intros k n r Hn; [discriminate|].
  unfold len in Hn. simpl in Hn. simpl.
  destruct ((start s <=? caret) && (caret <? end_ s)).
  - intros H. injection H as <-. lia.
  - destruct (caret =? end_ s); simpl.
    + destruct (k <? n - 1) eqn:Hk.
      * intros H. injection H as <-. apply Z.ltb_lt in Hk. lia.
      * intros H. apply IH in H; [lia | unfold len; lia].
    + intros H. apply IH in H; [lia | unfold len; lia].
Qed.

(** When the loop runs to its end over contiguous sentences, the caret
    is at or past the end of the last one (or before the first). *)
Lemma findActive_for_none rest : forall lo hi k n,
  contiguous_between lo rest hi -> lo <= caret ->
  findActive_for rest k n caret = None -> hi <= caret.
Proof.
  induction rest as [|s rest IH]; simpl; intros lo hi k n.
  - intros <-. auto.
  - intros (H1 & H2 & H3) Hlo.
    destruct (start s <=? caret) eqn:Ha; [|apply Z.leb_gt in Ha; lia].
    destruct (caret <? end_ s) eqn:Hb; [discriminate|]. simpl.
    apply Z.ltb_ge in Hb.
    destruct ((caret =? end_ s) && (k <? n - 1)); [discriminate|].
    apply (IH _ _ _ _ H3 Hb).
Qed.

Lemma contiguous_between_last lo front s hi :
  contiguous_between lo (front ++ [s]) hi -> start s < end_ s /\ end_ s = hi.
Proof.
  revert lo. induction front as [|s0 front IH]; simpl; intros lo.
  - intros (_ & H & <-). auto.
  - intros (_ & _ & H). exact (IH _ H).
Qed.

(** Over sentences that tile [[lo, hi]] the resolution is total on
    [[lo, hi]]: it returns an index of the array. *)
Lemma findActiveSentenceIndex_tiles ss lo hi :
  contiguous_between lo ss hi -> ss <> [] -> lo <= caret <= hi ->
  0 <= findActiveSentenceIndex ss caret < len ss.
Proof.
  intros Hc Hne [Hlo Hhi]. unfold findActiveSentenceIndex.
  destruct (findActive_for ss 0 (len ss) caret) as [r|] eqn:Hf.
  - apply findActive_for_range in Hf; lia.
  - pose proof (findActive_for_none _ _ _ _ _ Hc Hlo Hf) as Hge.
    destruct (rev ss) as [|l r] eqn:Hr.
    + apply (f_equal (@rev Sentence)) in Hr. rewrite rev_involutive in Hr.
      now subst ss.
    + apply rev_head_last in Hr. subst ss.
      destruct (contiguous_between_last _ _ _ _ Hc) as [Hl <-].
      replace (start l <=? caret) with true by (symmetry; apply Z.leb_le; lia).
      unfold len. rewrite length_app. simpl. lia.
Qed.

End ActiveSentence.

(** Over the sentences of a tidy text the resolution returns an index of
    the array for every caret offset from 0 to the length of the text. *)
Lemma findActiveSentenceIndex_total_on_tidy E t caret :
  isBlank t = false -> tidy E AtStart t = true -> 0 <= caret <= len t ->
  0 <= findActiveSentenceIndex (buildSentenceMap E t) caret
    < len (buildSentenceMap E t).
Proof.
  intros Hb Ht Hc.
  apply (findActiveSentenceIndex_tiles caret _ 0 (len t)); auto.
  - now apply buildSentenceMap_tiles.
  - intros Hnil. pose proof (concatTexts_tidy E t Hb Ht) as Hr.
    rewrite Hnil in Hr. simpl in Hr. subst t. discriminate.
Qed.

(** C3 at the text [..a] with the caret at offset 0: the two leading full
    stops belong to no sentence, the only sentence spans 2 to 3, and the
    resolution returns -1. *)
Theorem findActiveSentenceIndex_before_first :
  map (fun s => (text s, start s, end_ s))
      (buildSentenceMap defaultEndings (lit "..a")) = [(lit "a", 2, 3)] /\
  0 <= 0 <= len (lit "..a") /\
  findActiveSentenceIndex (buildSentenceMap defaultEndings (lit "..a")) 0 = -1.
Proof. repeat apply conj; vm_compute; try reflexivity; discriminate. Qed.

(** C4.  Over an ordered sequence of sentences (non-empty spans, none
    starting before the one before it ends): a caret inside the half-open
    span of a sentence selects that sentence; a caret exactly at the end of
    a sentence that is not the last selects the next sentence; a caret at
    or past the start of the last sentence selects the last sentence.  With
    the sentences of [Hello world. How are you?] a caret at 13 selects
    index 1. *)
Theorem findActiveSentenceIndex_rules ss caret :
  ordered ss = true ->
  (forall i s, nth_error ss i = Some s -> start s <= caret < end_ s ->
               findActiveSentenceIndex ss caret = Z.of_nat i) /\
  (forall i s, nth_error ss i = Some s -> caret = end_ s ->
               (S i < length ss)%nat ->
               findActiveSentenceIndex ss caret = Z.of_nat (S i)) /\
  (forall s, nth_error ss (length ss - 1) = Some s -> start s <= caret ->
             findActiveSentenceIndex ss caret = len ss - 1) /\
  findActiveSentenceIndex
    (buildSentenceMap defaultEndings (lit "Hello world. How are you?")) 13 = 1.
Proof.
  intros Hord.
  assert (Hfrom : exists lo, ordered_from lo ss = true).
  { destruct ss as [|s0 ss0]; [now exists 0 | now exists (start s0)]. }
  destruct Hfrom as [lo Hlo].
  repeat apply conj.
  - intros i s Hi Hc. unfold findActiveSentenceIndex.
    now rewrite (findActive_for_inside caret ss lo 0 (len ss) i s).
  - intros i s Hi Hc Hlt. unfold findActiveSentenceIndex.
    rewrite (findActive_for_boundary caret ss lo 0 (len ss) i s); auto. lia.
  - intros s Hlast Hc. destruct (nth_error_last _ _ Hlast) as [front ->].
    unfold findActiveSentenceIndex.
    destruct (findActive_for_last caret front lo 0 (len (front ++ [s])) s)
      as [-> | ->]; auto.
    rewrite rev_app_distr. simpl.
    now replace (start s <=? caret) with true by (symmetry; apply Z.leb_le; lia).
  - reflexivity.
Qed.

Lemma findActiveSentenceIndex_rules_witness :
  ordered (buildSentenceMap defaultEndings helloWorld) = true /\
  findActiveSentenceIndex (buildSentenceMap defaultEndings helloWorld) 5 = 0 /\
  findActiveSentenceIndex (buildSentenceMap defaultEndings helloWorld) 13 = 1 /\
  findActiveSentenceIndex (buildSentenceMap defaultEndings helloWorld) 25 = 1.
Proof.
  split; [reflexivity|]. split; [|split].
  - destruct (findActiveSentenceIndex_rules
                (buildSentenceMap defaultEndings helloWorld) 5 eq_refl)
      as (inside & _).
    apply (inside 0%nat _ eq_refl). vm_compute. split; [discriminate | reflexivity].
  - destruct (findActiveSentenceIndex_rules
                (buildSentenceMap defaultEndings helloWorld) 13 eq_refl)
      as (_ & boundary & _).
    apply (boundary 0%nat _ eq_refl); [reflexivity | vm_compute; lia].
  - destruct (findActiveSentenceIndex_rules
                (buildSentenceMap defaultEndings helloWorld) 25 eq_refl)
      as (_ & _ & last & _).
    apply (last _ eq_refl). vm_compute. discriminate.
Defined.

(** * The class *)

(** ** Focus mode *)

(** C10.  Whatever the state, [toggleFocusMode] flips the focus mode and
    evaluates to [undefined], which is not a boolean. *)
Theorem toggleFocusMode_undefined w :
  exists w',
    toggleFocusMode w = Returned JSUndefined w' /\
    focusModeEnabled (this w') = negb (focusModeEnabled (this w)) /\
    isBoolean JSUndefined = false.
Proof.
  unfold toggleFocusMode, setFocusMode, bind, gets, modify, ret.
  destruct (negb (focusModeEnabled (this w))) eqn:E;
    eexists; repeat split; simpl; now rewrite ?E.
Qed.

(** ** Scans *)

Lemma bind_gets {A B} (f : World -> A) (k : A -> M B) w :
  bind (gets f) k w = k (f w) w.
Proof. reflexivity. Qed.

Lemma bind_returned {A B} (c : M A) (k : A -> M B) w a w' :
  c w = Returned a w' -> bind c k w = k a w'.
Proof. unfold bind. now intros ->. Qed.

Lemma unwrap_clears store attribute children :
  flat_map (fun n => match n with
                     | SpanNode e =>
                         if hasAttribute (element store e) attribute then [e] else []
                     | TextNode _ => []
                     end)
           (map (unwrap store attribute) children) = [].
Proof.
  induction children as [|n r IH]; [reflexivity|].
  simpl. rewrite IH, app_nil_r.
  destruct n as [e|t]; simpl; [|reflexivity].
  destruct (hasAttribute (element store e) attribute) eqn:H; simpl; [reflexivity|].
  now rewrite H.
Qed.

(** After [clearAllHighlights] no element of the editor carries the
    sentence attribute and the instance holds no element. *)
Lemma clearAllHighlights_spec w :
  exists w',
    clearAllHighlights w = Returned tt w' /\
    querySelectorAll (page w') (sentenceDataAttribute (options (this w'))) = [] /\
    sentenceElements (this w') = [] /\
    sentenceMap (this w') = sentenceMap (this w) /\
    options (this w') = options (this w) /\
    log w' = log w.
Proof.
  unfold clearAllHighlights, bind, opt, gets, modify, ret.
  destruct (content (page w)) as [t html|ts|children] eqn:Hc.
  - eexists. split; [reflexivity|]. simpl. unfold querySelectorAll. simpl.
    rewrite Hc. auto.
  - eexists. split; [reflexivity|]. simpl. unfold querySelectorAll. simpl.
    rewrite Hc. auto.
  - destruct (negb (existsb isElementNode
                      (map (unwrap (elements (page w))
                                   (sentenceDataAttribute (options (this w))))
                           children))).
    + eexists. split; [reflexivity|]. simpl. auto.
    + eexists. split; [reflexivity|]. simpl. unfold querySelectorAll. simpl.
      rewrite unwrap_clears. auto.
Qed.

(** X28.  A scan over blank text: the collection and the element map become
    empty, the active reference becomes [null], no element carries the
    sentence attribute any more, and nothing is added to the log: no
    callback is called. *)
Lemma scanAndHighlight_blank w :
  isBlank (textOf (view (page w))) = true ->
  exists w',
    scanAndHighlight w = Returned tt w' /\
    sentenceMap (this w') = [] /\
    sentenceElements (this w') = [] /\
    activeSentenceId (this w') = None /\
    querySelectorAll (page w') (sentenceDataAttribute (options (this w'))) = [] /\
    log w' = log w.
Proof.
  intros Hb.
  destruct (clearAllHighlights_spec w) as (w1 & Hw1 & Hq & He & Hm & Ho & Hl).
  unfold scanAndHighlight, getPlainText. rewrite bind_gets, Hb.
  rewrite (bind_returned _ _ _ _ _ Hw1).
  unfold bind, modify. eexists. split; [reflexivity|]. simpl. auto.
Qed.

(** C8 on the run [cleared].  The first scan called [onSentenceChange]
    with the two sentences; the scan after the text is deleted empties the
    collection and the element map, resets the active reference and leaves
    bare text nodes, and it returns before the place where the callback is
    called: the log is the one of the first scan. *)
Theorem scan_cleared_text_no_callback :
  returned cleared = true /\
  sentenceMap (this (world_of cleared)) = [] /\
  sentenceElements (this (world_of cleared)) = [] /\
  activeSentenceId (this (world_of cleared)) = None /\
  log (world_of scanned)
  = [SentenceChange (buildSentenceMap defaultEndings helloWorld); ScrolledIntoView] /\
  log (world_of cleared) = log (world_of scanned).
Proof. evaluate. Qed.

(** ** The two update paths *)

Lemma idAt_some sentences i s :
  nth_error sentences (Z.to_nat i) = Some s -> idAt sentences i = ret (id s).
Proof. unfold idAt. now intros ->. Qed.

(** X29.  The navigation path has the short circuit: when the sentence at the
    caret is the active one, [updateActiveSentence] changes nothing and
    calls nothing. *)
Lemma updateActiveSentence_same_id w s :
  let sentences := map_values (sentenceMap (this w)) in
  let caretOffset := match selection (page w) with
                     | NoSelection => 0
                     | Caret _ offset => offset
                     end in
  let activeIndex := findActiveSentenceIndex sentences caretOffset in
  nth_error sentences (Z.to_nat activeIndex) = Some s ->
  activeSentenceId (this w) = Some (id s) ->
  updateActiveSentence w = Returned tt w.
Proof.
  intros sentences caretOffset activeIndex Hs Ha.
  unfold updateActiveSentence, bind, getCaretOffset, gets.
  destruct (map_size (sentenceMap (this w)) =? 0)%nat; [reflexivity|].
  fold sentences. fold caretOffset. fold activeIndex.
  destruct (activeIndex <? 0); [reflexivity|].
  rewrite (idAt_some _ _ _ Hs). unfold ret. rewrite Ha, str_eqb_refl.
  reflexivity.
Qed.

(** The incremental branch of a scan has none: with the callback
    installed, [updateActiveSentenceFromMap] calls it even when the sentence
    at [activeIndex] is the active one already. *)
Lemma updateActiveSentenceFromMap_same_id w sentences activeIndex s :
  0 <= activeIndex < len sentences ->
  nth_error sentences (Z.to_nat activeIndex) = Some s ->
  activeSentenceId (this w) = Some (id s) ->
  onActiveSentenceChange (options (this w)) = true ->
  exists w',
    updateActiveSentenceFromMap sentences activeIndex w = Returned tt w' /\
    activeSentenceId (this w') = Some (id s) /\
    In (ActiveSentenceChange activeIndex (map_get (sentenceMap (this w)) (id s)))
       (log w').
Proof.
  intros [Hlo Hhi] Hs Ha Hcb.
  unfold updateActiveSentenceFromMap.
  replace (activeIndex <? 0) with false by (symmetry; apply Z.ltb_ge; lia).
  replace (len sentences <=? activeIndex) with false by (symmetry; apply Z.leb_gt; lia).
  simpl. rewrite (idAt_some _ _ _ Hs).
  unfold moveActiveMarker, bind, ret, opt, gets, when, modify,
    element_classList_remove, element_removeAttribute,
    element_classList_add, element_setAttribute, updateElement, bind, modify.
  rewrite Ha, Hcb.
  destruct (truthy (Some (id s)));
    [destruct (map_get (sentenceElements (this w)) (id s)) as [e|] eqn:He|];
    simpl; rewrite ?He; simpl;
    try (destruct (map_get (sentenceElements (this w)) (id s)) as [e|]);
    simpl; eexists; (split; [reflexivity|]); simpl;
    (split; [reflexivity|]); rewrite in_app_iff; right; left; reflexivity.
Qed.

(** C7 on the run [rescanned].  The scan takes the incremental branch (the
    content still holds the spans 2 and 3 of the last rebuild), the active
    id is the one it was, and yet the marker is taken off span 2 and put
    back, and [onActiveSentenceChange] is called. *)
Theorem scan_incremental_same_active :
  returned rescanned = true /\
  content (page (world_of rendered)) = Container [SpanNode 2%nat; SpanNode 3%nat] /\
  content (page (world_of rescanned)) = content (page (world_of rendered)) /\
  activeSentenceId (this (world_of rendered))
  = Some (generateSentenceId 0 13 (lit "Hello world. ") false) /\
  activeSentenceId (this (world_of rescanned))
  = activeSentenceId (this (world_of rendered)) /\
  log (world_of rescanned)
  = log (world_of rendered)
    ++ [ClassRemoved 2%nat (lit "sentence--active");
        AttributeRemoved 2%nat (lit "data-sentence-active");
        ClassAdded 2%nat (lit "sentence--active");
        AttributeSet 2%nat (lit "data-sentence-active") (lit "true");
        ActiveSentenceChange 0 (nth_error (buildSentenceMap defaultEndings helloWorld) 0);
        SentenceChange (buildSentenceMap defaultEndings helloWorld);
        ScrolledIntoView].
Proof. evaluate. Qed.

(** ** Destruction *)

(** X30.  With a sentence in the collection [destroy] throws at the first round
    of its loop; what comes after the loop does not run. *)
Lemma destroy_throws w :
  sentenceMap (this w) <> [] ->
  exists w',
    destroy w = Thrown (TypeError (lit "this.removeSentenceHighlight is not a function")) w' /\
    this w' = this w /\
    content (page w') = content (page w) /\
    editorClassList (page w') = editorClassList (page w).
Proof.
  intros Hne. unfold destroy, bind, gets, modify, removeEventListener, modify.
  destruct (clearTimeout (updateTimer (this w)) w) as [[] w1|] eqn:Hc.
  - assert (H1 : this w1 = this w /\ content (page w1) = content (page w)
                 /\ editorClassList (page w1) = editorClassList (page w)).
    { unfold clearTimeout in Hc. destruct (updateTimer (this w)).
      - unfold modify in Hc. injection Hc as <-. auto.
      - unfold ret in Hc. injection Hc as <-. auto. }
    destruct H1 as (Ht & Hcont & Hcl). simpl. rewrite Ht.
    destruct (sentenceMap (this w)) as [|[k v] r]; [congruence|].
    simpl. unfold bind, removeSentenceHighlight, throw.
    eexists. split; [reflexivity|]. simpl. auto.
  - unfold clearTimeout in Hc. destruct (updateTimer (this w)); discriminate.
Qed.

(** Whatever the state, and whether [destroy] returns or throws, the
    listeners it leaves are the ones it found, less the three it removes by
    name: a listener with one of the arrow functions stays. *)
Lemma destroy_listeners w :
  listeners (page (world_of (destroy w)))
  = filter (fun l => negb (listener_eqb (mkListener Document selectionchange BoundHandleCaretMove) l))
      (filter (fun l => negb (listener_eqb (mkListener Editor click BoundHandleNavigation) l))
         (filter (fun l => negb (listener_eqb (mkListener Editor input BoundHandleInput) l))
            (listeners (page w)))).
Proof.
  unfold destroy, bind, gets, modify, removeEventListener, modify, clearTimeout,
    opt, gets, ret.
  destruct (updateTimer (this w)); simpl;
    destruct (sentenceMap (this w)) as [|[k v] r]; reflexivity.
Qed.

Lemma destroy_keeps_arrow_listeners w l :
  In l (listeners (page w)) ->
  handler l = KeydownArrow \/ handler l = KeyupArrow \/ handler l = FocusArrow ->
  In l (listeners (page (world_of (destroy w)))).
Proof.
  intros Hin Hh. rewrite destroy_listeners.
  repeat (apply filter_In; split); auto;
    unfold listener_eqb; simpl;
    destruct Hh as [-> | [-> | ->]]; simpl;
    now rewrite andb_false_r.
Qed.

(** C6 on the run [scanned]: the collection holds the two sentences, and
    [destroy] throws a [TypeError]; the collection, the element map, the
    spans in the editor and the container class on it are as before, and
    the instance still counts as initialised. *)
Theorem destroy_throws_after_scan :
  map_values (sentenceMap (this (world_of scanned)))
  = buildSentenceMap defaultEndings helloWorld /\
  andThen scanned destroy
  = Thrown (TypeError (lit "this.removeSentenceHighlight is not a function"))
           (world_of (andThen scanned destroy)) /\
  this (world_of (andThen scanned destroy)) = this (world_of scanned) /\
  isInitialized (this (world_of (andThen scanned destroy))) = true /\
  content (page (world_of (andThen scanned destroy)))
  = Container [SpanNode 0%nat; SpanNode 1%nat] /\
  editorClassList (page (world_of (andThen scanned destroy))) = [lit "paragraph"].
Proof. evaluate. Qed.

(** C5 on the runs [destroyed], [typedAfterDestroy] and [destroyedAtOnce].
    [destroy] returns (the collection is empty) and leaves three listeners
    on the editor: the arrow functions for [keydown], [keyup] and [focus].
    A key press on a full stop then sets a timer, and when it comes due the
    scan runs: the sentence is detected, rendered and reported.  And a
    [destroy] that comes before the first scan leaves the timer of [init]
    pending. *)
Theorem destroy_leaves_listeners :
  returned destroyed = true /\
  listeners (page (world_of destroyed))
  = [mkListener Editor keydown KeydownArrow;
     mkListener Editor keyup KeyupArrow;
     mkListener Editor focus FocusArrow] /\
  timers (page (world_of destroyed)) = [] /\
  returned typedAfterDestroy = true /\
  log (world_of typedAfterDestroy)
  = [SentenceChange (buildSentenceMap defaultEndings (lit "Hi.")); ScrolledIntoView] /\
  content (page (world_of typedAfterDestroy)) = Container [SpanNode 0%nat] /\
  map_values (sentenceMap (this (world_of typedAfterDestroy)))
  = buildSentenceMap defaultEndings (lit "Hi.") /\
  returned destroyedAtOnce = true /\
  timers (page (world_of destroyedAtOnce)) = [mkTimer 0 10 CallScanAndHighlight].
Proof. evaluate. Qed.

(** * Further properties of the tokenizer *)

Section TokenizerMore.

Variable E : list N.

Lemma deletes_refl p a : deletes p a a.
Proof. induction a; constructor; auto. Qed.

Lemma deletes_app p a b a' b' :
  deletes p a b -> deletes p a' b' -> deletes p (a ++ a') (b ++ b').
Proof.
  induction 1; simpl; intros H'; auto.
  - constructor; auto.
  - apply deletes_drop; auto.
Qed.

Lemma deletes_all p a : forallb p a = true -> deletes p a [].
Proof.
  induction a as [|c a IH]; simpl; [constructor|].
  intros H. apply andb_true_iff in H as [Hc Ha]. apply deletes_drop; auto.
Qed.

Lemma lastEnd_app lo a b : lastEnd lo (a ++ b) = lastEnd (lastEnd lo a) b.
Proof. apply fold_left_app. Qed.

Lemma lastEnd_cons lo s r : lastEnd lo (s :: r) = lastEnd (end_ s) r.
Proof. reflexivity. Qed.

Lemma sentenceOf_chunk pre chunk rest :
  (0 < length chunk)%nat ->
  sentenceOf (pre ++ chunk ++ rest)
    (mkSentence
       (generateSentenceId (Z.of_nat (length pre)) (Z.of_nat (length pre) + len chunk)
                           chunk false)
       chunk (Z.of_nat (length pre)) (Z.of_nat (length pre) + len chunk) false).
Proof.
  intros Hlen. exists (length pre), (length pre + length chunk)%nat. simpl.
  unfold len. repeat apply conj; auto; try lia.
  - rewrite !length_app. lia.
  - rewrite skipn_app, skipn_all, Nat.sub_diag. simpl.
    replace (length pre + length chunk - length pre)%nat with (length chunk + 0)%nat by lia.
    now rewrite firstn_app_2, firstn_O, app_nil_r.
Qed.

(** What the loop adds from position [length pre] on: records filled in
    as [sentenceOf] says, each starting with a character that is not an
    ending; the last one ends at the final [lastIndex]; and what the loop
    read but put in no sentence are ending characters. *)
Lemma while_exec_records fuel : forall s pre acc,
  (length s < fuel)%nat ->
  exists new q,
    while_exec E fuel (pre ++ s) (length pre) acc = (acc ++ new, q) /\
    Forall (sentenceOf (pre ++ s)) new /\
    Forall (fun x => exists c r, text x = c :: r /\ isEnding E c = false) new /\
    lastEnd (Z.of_nat (length pre)) new = Z.of_nat q /\
    deletes (isEnding E) s (concatTexts new ++ skipn q (pre ++ s)) /\
    forallb (isEnding E) (skipn q (pre ++ s)) = true.
Proof.
  induction fuel as [|fuel IH]; intros s pre acc Hfuel; [lia|].
  simpl while_exec. rewrite regex_exec_at.
  destruct (search_spec E s (length pre))
    as [[Hn Ha] | (gap & chunk & rest & Hs & Hg & Hm & Hr)].
  - rewrite Hn. exists [], (length pre). rewrite app_nil_r.
    rewrite skipn_app, skipn_all, Nat.sub_diag. simpl.
    repeat apply conj; auto. apply deletes_refl.
  - rewrite Hr.
    destruct (match_here_nonempty E _ _ Hm) as [Hlen _].
    destruct (match_here_spec E _ _ Hm)
      as (c & body & term & ws & rest' & Hc & _ & Hb & _).
    assert (Htext : pre ++ s = (pre ++ gap ++ chunk) ++ rest)
      by (rewrite Hs, <- !app_assoc; reflexivity).
    assert (Hpos : (length pre + length gap + length chunk)%nat
                   = length (pre ++ gap ++ chunk))
      by (rewrite !length_app; lia).
    rewrite Hpos, Htext.
    set (sent := mkSentence _ _ _ _ _).
    destruct (IH rest (pre ++ gap ++ chunk) (acc ++ [sent]))
      as (new & q & Hw & Hrec & Hhead & Hlast & Hdel & Hrem).
    { rewrite Hs, !length_app in Hfuel. lia. }
    exists (sent :: new), q. rewrite Hw, <- app_assoc. simpl app at 1.
    repeat apply conj; auto.
    + constructor; [|exact Hrec].
      replace ((pre ++ gap ++ chunk) ++ rest) with ((pre ++ gap) ++ chunk ++ rest)
        by (rewrite <- !app_assoc; reflexivity).
      subst sent. replace (length pre + length gap)%nat with (length (pre ++ gap))
        by (rewrite length_app; lia).
      now apply sentenceOf_chunk.
    + constructor; [|exact Hhead].
      exists c, (body ++ term ++ ws). simpl. split; [now rewrite Hc|].
      simpl in Hb. apply andb_true_iff in Hb as [Hb _].
      unfold notEnding in Hb. now apply negb_true_iff in Hb.
    + rewrite lastEnd_cons. simpl. rewrite <- Hlast. f_equal.
      unfold len. rewrite !length_app. lia.
    + rewrite Hs. simpl concatTexts.
      change (gap ++ chunk ++ rest) with ([] ++ gap ++ chunk ++ rest).
      rewrite <- (app_nil_l ((chunk ++ concatTexts new) ++ _)).
      rewrite <- app_assoc.
      apply deletes_app; [constructor|].
      replace (chunk ++ concatTexts new ++ skipn q ((pre ++ gap ++ chunk) ++ rest))
        with ([] ++ chunk ++ concatTexts new ++ skipn q ((pre ++ gap ++ chunk) ++ rest))
        by reflexivity.
      apply deletes_app; [now apply deletes_all|].
      apply deletes_app; [apply deletes_refl | exact Hdel].
Qed.

(** [buildSentenceMap] on a text that is not blank, written with the
    result of the loop. *)
Lemma buildSentenceMap_loop t :
  isBlank t = false ->
  buildSentenceMap E t
  = fst (while_exec E (S (length t)) t 0 [])
    ++ remainder t (snd (while_exec E (S (length t)) t 0 [])).
Proof.
  intros Hb.
  destruct (while_exec_spec E (S (length t)) t [] [] (Nat.lt_succ_diag_r _))
    as (new & q & Hw & Hq & Hord & Hex & Hnil & Htail & _).
  simpl in Hq, Hnil, Htail.
  change (while_exec E (S (length t)) t 0%nat [] = (new, q)) in Hw.
  rewrite Hw. simpl fst. simpl snd.
  unfold buildSentenceMap, remainder. rewrite Hb, Hw.
  pose proof (isBlank_false_trim _ Hb) as Htrim.
  destruct (q <? length t)%nat eqn:Hlt.
  - unfold substring_from.
    assert (Hrem : trim (skipn q t) <> []).
    { destruct new as [|s0 new'].
      - now rewrite (Hnil eq_refl).
      - destruct (skipn q t) as [|x r] eqn:Hsk.
        + apply Nat.ltb_lt in Hlt.
          apply (f_equal (@length N)) in Hsk. rewrite length_skipn in Hsk.
          simpl in Hsk. lia.
        + apply trim_nonempty. apply (Htail ltac:(discriminate) x r eq_refl). }
    rewrite (trim_nonempty_length _ Hrem).
    rewrite length_app. simpl.
    replace (length new + 1 =? 0)%nat with false
      by (symmetry; apply Nat.eqb_neq; lia).
    reflexivity.
  - rewrite app_nil_r.
    destruct new as [|s0 new']; [|reflexivity]. exfalso.
    apply Nat.ltb_ge in Hlt. rewrite (Hnil eq_refl) in Hlt.
    destruct t; [now apply Htrim | simpl in Hlt; lia].
Qed.

Lemma sentenceOf_remainder t q :
  Forall (sentenceOf t) (remainder t q).
Proof.
  unfold remainder. destruct (q <? length t)%nat eqn:Hlt; [|constructor].
  apply Nat.ltb_lt in Hlt. constructor; [|constructor].
  exists q, (length t). simpl. unfold len. repeat apply conj; auto; try lia.
  rewrite firstn_all2; [reflexivity | rewrite length_skipn; lia].
Qed.

(** Everything the tokenizer returns for a text that is not blank, in one
    statement. *)
Lemma buildSentenceMap_facts t :
  isBlank t = false ->
  Forall (sentenceOf t) (buildSentenceMap E t) /\
  lastEnd 0 (buildSentenceMap E t) = len t /\
  buildSentenceMap E t <> [] /\
  deletes (isEnding E) t (concatTexts (buildSentenceMap E t)).
Proof.
  intros Hb. rewrite (buildSentenceMap_loop t Hb).
  destruct (while_exec_spec E (S (length t)) t [] [] (Nat.lt_succ_diag_r _))
    as (new0 & q0 & Hw0 & Hq & _ & _ & Hnil & _).
  destruct (while_exec_records (S (length t)) t [] [] (Nat.lt_succ_diag_r _))
    as (new & q & Hw & Hrec & _ & Hlast & Hdel & _).
  simpl in Hq, Hnil, Hrec, Hlast, Hdel.
  change (while_exec E (S (length t)) t 0%nat [] = (new0, q0)) in Hw0.
  change (while_exec E (S (length t)) t 0%nat [] = (new, q)) in Hw.
  assert (new0 = new /\ q0 = q) as [-> ->] by (rewrite Hw0 in Hw; now injection Hw).
  rewrite Hw. simpl fst. simpl snd.
  assert (Hend : lastEnd 0 (new ++ remainder t q) = len t).
  { rewrite lastEnd_app, Hlast. unfold remainder, len.
    destruct (q <? length t)%nat eqn:Hlt; simpl; [reflexivity|].
    apply Nat.ltb_ge in Hlt. lia. }
  repeat apply conj.
  - apply Forall_app. split; [exact Hrec | apply sentenceOf_remainder].
  - exact Hend.
  - intros Hnone. rewrite Hnone in Hend. unfold lastEnd, len in Hend. simpl in Hend.
    destruct t; [|simpl in Hend; lia].
    apply (isBlank_false_trim _ Hb). reflexivity.
  - rewrite concatTexts_app, concat_remainder by lia. exact Hdel.
Qed.

(** A text that is not blank has a sentence. *)
Lemma buildSentenceMap_nonblank t :
  isBlank t = false -> buildSentenceMap E t <> [].
Proof.
  intros Hb. now destruct (buildSentenceMap_facts t Hb) as (_ & _ & Hne & _).
Qed.

(** X1.  [buildSentenceMap] returns no sentence exactly for the blank
    texts (empty, or white space only). *)
Theorem buildSentenceMap_empty_iff t :
  buildSentenceMap E t = [] <-> isBlank t = true.
Proof.
  split.
  - intros Hnil. destruct (isBlank t) eqn:Hb; [reflexivity|].
    now destruct (buildSentenceMap_facts t Hb) as (_ & _ & Hne & _).
  - intros Hb. unfold buildSentenceMap. now rewrite Hb.
Qed.

(** X2.  Every sentence record is consistent with the text it was cut
    from: [start] and [end] are offsets into the text with
    [0 <= start < end <= length], [text] is exactly the characters from
    [start] to [end], [id] is [generateSentenceId] of the three, and
    [isHeading] is false. *)
Theorem buildSentenceMap_records t :
  Forall (sentenceOf t) (buildSentenceMap E t).
Proof.
  destruct (isBlank t) eqn:Hb.
  - unfold buildSentenceMap. rewrite Hb. constructor.
  - now destruct (buildSentenceMap_facts t Hb).
Qed.

(** X3.  Whatever the matcher skips, the last sentence of a text that is
    not blank ends where the text ends. *)
Theorem buildSentenceMap_reaches_end t :
  isBlank t = false ->
  exists front l, buildSentenceMap E t = front ++ [l] /\ end_ l = len t.
Proof.
  intros Hb. destruct (buildSentenceMap_facts t Hb) as (_ & Hend & Hne & _).
  destruct (exists_last Hne) as (front & l & Heq).
  exists front, l. split; [exact Heq|].
  rewrite Heq, lastEnd_app in Hend. exact Hend.
Qed.

(** X4.  With endings that stand for themselves in the pattern, the only
    characters of a text that end up in no sentence are sentence-ending
    characters: the concatenation of the sentence texts is the text with
    some ending characters taken out, everything else in place and in
    order. *)
Theorem buildSentenceMap_drops_endings_only t :
  literalEndings E = true -> isBlank t = false ->
  deletes (isEnding E) t (concatTexts (buildSentenceMap E t)).
Proof.
  intros _ Hb. now destruct (buildSentenceMap_facts t Hb) as (_ & _ & _ & Hdel).
Qed.

End TokenizerMore.

Section TokenizerShapes.

Variable E : list N.

Lemma takeWhile_id {A} (p : A -> bool) l : forallb p l = true -> takeWhile p l = l.
Proof.
  induction l as [|x l IH]; simpl; [reflexivity|].
  intros H. apply andb_true_iff in H as [Hx Hl]. now rewrite Hx, IH.
Qed.

Lemma dropWhile_nil {A} (p : A -> bool) l : forallb p l = true -> dropWhile p l = [].
Proof.
  induction l as [|x l IH]; simpl; [reflexivity|].
  intros H. apply andb_true_iff in H as [Hx Hl]. now rewrite Hx, IH.
Qed.

(** X5.  With endings that stand for themselves in the pattern, a text
    that is not blank and holds no sentence-ending character is one
    sentence, the whole text from 0 to its length. *)
Theorem buildSentenceMap_no_ending t :
  literalEndings E = true ->
  isBlank t = false -> forallb (notEnding E) t = true ->
  buildSentenceMap E t
  = [mkSentence (generateSentenceId 0 (len t) t false) t 0 (len t) false].
Proof.
  intros _ Hb Hall. rewrite (buildSentenceMap_loop E t Hb).
  assert (Hne : t <> []) by (intros ->; discriminate Hb).
  assert (Hm : match_here E t = Some t).
  { unfold match_here. rewrite (takeWhile_id _ _ Hall), (dropWhile_nil _ _ Hall).
    destruct t; [congruence|]. simpl. now rewrite !app_nil_r. }
  assert (Hw : while_exec E (S (length t)) t 0 []
               = ([mkSentence (generateSentenceId 0 (len t) t false) t 0 (len t) false],
                  length t)).
  { destruct t as [|c r]; [congruence|].
    cbn [while_exec]. unfold regex_exec at 1. cbn [skipn Nat.ltb Nat.leb length].
    cbn [search]. rewrite Hm. cbn [length while_exec].
    unfold regex_exec. rewrite skipn_all2 by (simpl; lia).
    cbn [search match_here takeWhile].
    destruct (_ <? _)%nat; reflexivity. }
  rewrite Hw. simpl fst. simpl snd. unfold remainder.
  rewrite Nat.ltb_irrefl. apply app_nil_r.
Qed.

(** X6.  With endings that stand for themselves in the pattern, a text
    made of sentence-ending characters only (and not blank) is one
    sentence, the whole text: the matcher finds nothing, and the fragment
    picked up after the loop is everything. *)
Theorem buildSentenceMap_only_endings t :
  literalEndings E = true ->
  isBlank t = false -> forallb (isEnding E) t = true ->
  buildSentenceMap E t
  = [mkSentence (generateSentenceId 0 (len t) t false) t 0 (len t) false].
Proof.
  intros _ Hb Hall. rewrite (buildSentenceMap_loop E t Hb).
  assert (Hne : t <> []) by (intros ->; discriminate Hb).
  assert (Hw : while_exec E (S (length t)) t 0 [] = ([], 0%nat)).
  { cbn [while_exec]. unfold regex_exec. cbn [Nat.ltb Nat.leb skipn].
    now rewrite (search_all_endings E t 0 Hall). }
  rewrite Hw. simpl fst. simpl snd. unfold remainder.
  destruct t as [|c r]; [congruence|]. reflexivity.
Qed.

(** X7.  For every text the sentences are ordered and do not overlap:
    the first starts at 0 or later, each has a non-empty span, and none
    starts before the one before it ends. *)
Theorem buildSentenceMap_never_overlaps t :
  ordered_from 0 (buildSentenceMap E t) = true.
Proof.
  destruct (isBlank t) eqn:Hb.
  - unfold buildSentenceMap. now rewrite Hb.
  - destruct (buildSentenceMap_unfold E t Hb) as (new & q & -> & Hq & Hord & _).
    apply (ordered_between_from _ _ (len t)).
    eapply ordered_between_app; [exact Hord|].
    apply contiguous_ordered_between, remainder_between, Hq.
Qed.

(** X8.  With endings that stand for themselves in the pattern, on a text
    that the matcher reads without skipping, the sentences tile the text:
    the first starts at 0, every sentence starts where the one before it
    ends, and the last ends at the length of the text. *)
Theorem buildSentenceMap_tiles_tidy t :
  literalEndings E = true ->
  isBlank t = false -> tidy E AtStart t = true ->
  contiguous (buildSentenceMap E t) = true /\
  (exists first rest, buildSentenceMap E t = first :: rest /\ start first = 0) /\
  lastEnd 0 (buildSentenceMap E t) = len t.
Proof.
  intros _ Hb Ht. pose proof (buildSentenceMap_tiles E t Hb Ht) as Htiles.
  repeat apply conj.
  - exact (contiguous_between_contiguous _ _ _ Htiles).
  - destruct (buildSentenceMap E t) as [|s r] eqn:Hs.
    + now apply (buildSentenceMap_nonblank _ _ Hb) in Hs.
    + exists s, r. split; [reflexivity|]. now destruct Htiles.
  - now destruct (buildSentenceMap_facts E t Hb) as (_ & Hend & _).
Qed.

(** X9.  With endings that stand for themselves in the pattern, no
    sentence begins with a sentence-ending character, except a last
    sentence that consists of ending characters only (the fragment picked
    up after the loop). *)
Theorem buildSentenceMap_sentence_heads t :
  literalEndings E = true -> isBlank t = false ->
  exists front back,
    buildSentenceMap E t = front ++ back /\
    Forall (fun s => exists c r, text s = c :: r /\ isEnding E c = false) front /\
    (back = [] \/ exists l, back = [l] /\ forallb (isEnding E) (text l) = true).
Proof.
  intros _ Hb. rewrite (buildSentenceMap_loop E t Hb).
  destruct (while_exec_records E (S (length t)) t [] [] (Nat.lt_succ_diag_r _))
    as (new & q & Hw & _ & Hhead & _ & _ & Hrem).
  simpl in Hrem.
  change (while_exec E (S (length t)) t 0%nat [] = (new, q)) in Hw.
  rewrite Hw. simpl fst. simpl snd.
  exists new, (remainder t q). repeat apply conj; auto.
  unfold remainder. destruct (q <? length t)%nat; [right | now left].
  eexists. split; [reflexivity|]. exact Hrem.
Qed.

End TokenizerShapes.

Lemma buildSentenceMap_tiles_tidy_witness :
  literalEndings defaultEndings = true /\
  isBlank helloWorld = false /\
  tidy defaultEndings AtStart helloWorld = true /\
  contiguous (buildSentenceMap defaultEndings helloWorld) = true /\
  lastEnd 0 (buildSentenceMap defaultEndings helloWorld) = len helloWorld.
Proof.
  split; [reflexivity|]. split; [reflexivity|]. split; [reflexivity|].
  destruct (buildSentenceMap_tiles_tidy defaultEndings helloWorld
              eq_refl eq_refl eq_refl)
    as (Hc & _ & Hl).
  split; [exact Hc | exact Hl].
Defined.

Lemma buildSentenceMap_reaches_end_witness :
  isBlank (lit "Hi..there") = false /\
  exists front l,
    buildSentenceMap defaultEndings (lit "Hi..there") = front ++ [l] /\
    end_ l = len (lit "Hi..there").
Proof.
  split; [reflexivity|].
  exact (buildSentenceMap_reaches_end defaultEndings (lit "Hi..there") eq_refl).
Defined.

Lemma buildSentenceMap_drops_endings_only_witness :
  literalEndings defaultEndings = true /\
  isBlank (lit "Hi..there") = false /\
  deletes (isEnding defaultEndings) (lit "Hi..there")
          (concatTexts (buildSentenceMap defaultEndings (lit "Hi..there"))).
Proof.
  split; [reflexivity|]. split; [reflexivity|].
  exact (buildSentenceMap_drops_endings_only defaultEndings (lit "Hi..there")
           eq_refl eq_refl).
Defined.

Lemma buildSentenceMap_no_ending_witness :
  literalEndings defaultEndings = true /\
  isBlank (lit "just typing") = false /\
  forallb (notEnding defaultEndings) (lit "just typing") = true /\
  buildSentenceMap defaultEndings (lit "just typing")
  = [mkSentence (generateSentenceId 0 11 (lit "just typing") false)
                (lit "just typing") 0 11 false].
Proof.
  split; [reflexivity|]. split; [reflexivity|]. split; [reflexivity|].
  exact (buildSentenceMap_no_ending defaultEndings (lit "just typing")
           eq_refl eq_refl eq_refl).
Defined.

Lemma buildSentenceMap_only_endings_witness :
  literalEndings defaultEndings = true /\
  isBlank (lit "?!") = false /\
  forallb (isEnding defaultEndings) (lit "?!") = true /\
  buildSentenceMap defaultEndings (lit "?!")
  = [mkSentence (generateSentenceId 0 2 (lit "?!") false) (lit "?!") 0 2 false].
Proof.
  split; [reflexivity|]. split; [reflexivity|]. split; [reflexivity|].
  exact (buildSentenceMap_only_endings defaultEndings (lit "?!")
           eq_refl eq_refl eq_refl).
Defined.

Lemma buildSentenceMap_sentence_heads_witness :
  literalEndings defaultEndings = true /\
  isBlank (lit "Hi..") = false /\
  exists front back,
    buildSentenceMap defaultEndings (lit "Hi..") = front ++ back /\
    Forall (fun s => exists c r, text s = c :: r /\ isEnding defaultEndings c = false)
           front /\
    (back = [] \/
     exists l, back = [l] /\ forallb (isEnding defaultEndings) (text l) = true).
Proof.
  split; [reflexivity|]. split; [reflexivity|].
  exact (buildSentenceMap_sentence_heads defaultEndings (lit "Hi..") eq_refl eq_refl).
Defined.

(** * Further properties of the active-sentence resolution *)

Section ActiveSentenceMore.

Variable caret : Z.

(** The result of the resolution is usable as an index once it is not -1. *)
Lemma findActiveSentenceIndex_bounds ss :
  findActiveSentenceIndex ss caret = -1 \/
  0 <= findActiveSentenceIndex ss caret < len ss.
Proof.
  unfold findActiveSentenceIndex.
  destruct (findActive_for ss 0 (len ss) caret) as [r|] eqn:Hf.
  - right. apply findActive_for_range in Hf; lia.
  - destruct (rev ss) as [|l r] eqn:Hr; [now left|].
    destruct (start l <=? caret); [right | now left].
    apply rev_head_last in Hr. subst ss. unfold len. rewrite length_app. simpl. lia.
Qed.

(** X10.  For every sequence of sentences and every caret offset the
    result is -1 or an index of the sequence. *)
Theorem findActiveSentenceIndex_range ss :
  findActiveSentenceIndex ss caret = -1 \/
  0 <= findActiveSentenceIndex ss caret < len ss.
Proof.
  destruct (findActiveSentenceIndex_bounds ss) as [Hnone | Hidx].
  - left. exact Hnone.
  - right. exact Hidx.
Qed.

Lemma findActive_for_sound rest : forall k n r,
  n = k + len rest -> findActive_for rest k n caret = Some r ->
  (exists j s, r = k + Z.of_nat j /\ nth_error rest j = Some s /\
               start s <= caret < end_ s) \/
  (exists j p s, r = k + Z.of_nat (S j) /\ nth_error rest j = Some p /\
                 nth_error rest (S j) = Some s /\ caret = end_ p).
Proof.
  induction rest as [|s0 rest IH]; intros k n r Hn; [discriminate|].
  unfold len in Hn. simpl in Hn. simpl.
  destruct (start s0 <=? caret) eqn:Ha; destruct (caret <? end_ s0) eqn:Hb; simpl.
  1: { intros H. injection H as <-. left. exists 0%nat, s0.
       apply Z.leb_le in Ha. apply Z.ltb_lt in Hb. repeat split; auto; lia. }
  all: destruct (caret =? end_ s0) eqn:Hc; simpl;
    [destruct (k <? n - 1) eqn:Hk|].
  all: try (intros H; injection H as <-; right;
            apply Z.eqb_eq in Hc; apply Z.ltb_lt in Hk;
            destruct rest as [|s1 rest']; [simpl in Hn; lia|];
            exists 0%nat, s0, s1; repeat split; auto; lia).
  all: intros H; apply IH in H; [|unfold len; lia];
    destruct H as [(j & s & -> & Hj & Hc') | (j & p & s & -> & Hp & Hs & Hc')];
    [left; exists (S j), s | right; exists (S j), p, s];
    repeat split; auto; lia.
Qed.

(** X11.  Whatever the sequence, a sentence that is selected is selected
    for one of three reasons: the caret is inside its span; or the caret
    is exactly at the end of the sentence before it; or it is the last
    sentence and the caret is at or past its start. *)
Theorem findActiveSentenceIndex_sound ss r :
  findActiveSentenceIndex ss caret = r -> 0 <= r ->
  exists s, nth_error ss (Z.to_nat r) = Some s /\
    (start s <= caret < end_ s \/
     (exists p, 0 < r /\ nth_error ss (Z.to_nat (r - 1)) = Some p /\ caret = end_ p) \/
     (r = len ss - 1 /\ start s <= caret)).
Proof.
  unfold findActiveSentenceIndex.
  destruct (findActive_for ss 0 (len ss) caret) as [r'|] eqn:Hf.
  - intros <- Hr.
    destruct (findActive_for_sound ss 0 (len ss) r' eq_refl Hf)
      as [(j & s & -> & Hj & Hc) | (j & p & s & -> & Hp & Hs & Hc)].
    + exists s. rewrite Z.add_0_l, Nat2Z.id. auto.
    + exists s. rewrite Z.add_0_l, Nat2Z.id. split; [exact Hs|].
      right. left. exists p. split; [lia|]. split; [|exact Hc].
      replace (Z.to_nat (Z.of_nat (S j) - 1)) with j by lia. exact Hp.
  - destruct (rev ss) as [|l tl] eqn:Hr; [intros <-; lia|].
    destruct (start l <=? caret) eqn:Hl; [|intros <-; lia].
    intros <- _. apply rev_head_last in Hr. subst ss. exists l.
    unfold len. rewrite length_app. simpl. split.
    + rewrite nth_error_app2 by lia.
      replace (Z.to_nat (Z.of_nat (length (rev tl) + 1) - 1) - length (rev tl))%nat
        with 0%nat by lia.
      reflexivity.
    + right. right. apply Z.leb_le in Hl. auto.
Qed.

Lemma findActive_for_before rest : forall lo k n,
  ordered_from lo rest = true -> caret < lo ->
  findActive_for rest k n caret = None.
Proof.
  induction rest as [|s rest IH]; intros lo k n Hord Hlt; [reflexivity|].
  simpl in Hord. rewrite !andb_true_iff, Z.leb_le, Z.ltb_lt in Hord.
  destruct Hord as [[H1 H2] H3]. simpl.
  replace (start s <=? caret) with false by (symmetry; apply Z.leb_gt; lia).
  replace (caret =? end_ s) with false by (symmetry; apply Z.eqb_neq; lia).
  simpl. apply (IH (end_ s)); auto. lia.
Qed.

(** X12.  Over an ordered sequence, a caret before the start of the first
    sentence selects nothing: the result is -1. *)
Theorem findActiveSentenceIndex_before_start first rest :
  ordered (first :: rest) = true -> caret < start first ->
  findActiveSentenceIndex (first :: rest) caret = -1.
Proof.
  intros Hord Hlt. unfold findActiveSentenceIndex.
  rewrite (findActive_for_before (first :: rest) (start first)); auto.
  destruct (rev (first :: rest)) as [|l tl] eqn:Hr; [reflexivity|].
  apply rev_head_last in Hr.
  assert (Hl : nth_error (first :: rest) (length (rev tl)) = Some l).
  { rewrite Hr, nth_error_app2, Nat.sub_diag; auto. }
  destruct (ordered_from_nth _ _ _ _ Hord Hl) as (Ha & _).
  now replace (start l <=? caret) with false by (symmetry; apply Z.leb_gt; lia).
Qed.

End ActiveSentenceMore.

Lemma findActiveSentenceIndex_sound_witness :
  findActiveSentenceIndex (buildSentenceMap defaultEndings helloWorld) 13 = 1 /\
  exists s, nth_error (buildSentenceMap defaultEndings helloWorld) (Z.to_nat 1) = Some s /\
    (start s <= 13 < end_ s \/
     (exists p, 0 < 1 /\
        nth_error (buildSentenceMap defaultEndings helloWorld) (Z.to_nat (1 - 1)) = Some p
        /\ 13 = end_ p) \/
     (1 = len (buildSentenceMap defaultEndings helloWorld) - 1 /\ start s <= 13)).
Proof.
  split; [reflexivity|].
  apply (findActiveSentenceIndex_sound 13 _ 1); [reflexivity | lia].
Defined.

Lemma findActiveSentenceIndex_before_start_witness :
  ordered (buildSentenceMap defaultEndings (lit "..a")) = true /\
  findActiveSentenceIndex (buildSentenceMap defaultEndings (lit "..a")) 1 = -1.
Proof.
  split; [reflexivity|].
  apply (findActiveSentenceIndex_before_start 1
           (mkSentence (generateSentenceId 2 3 (lit "a") false) (lit "a") 2 3 false) []);
    [reflexivity | simpl; lia].
Defined.

(** X13.  With endings that stand for themselves in the pattern, over the
    sentences of a text that the matcher reads without skipping, the
    resolution is total: every caret offset from 0 to the length of the
    text selects a sentence of the sequence. *)
Theorem findActiveSentenceIndex_total_tidy E t caret :
  literalEndings E = true ->
  isBlank t = false -> tidy E AtStart t = true -> 0 <= caret <= len t ->
  exists s,
    nth_error (buildSentenceMap E t)
              (Z.to_nat (findActiveSentenceIndex (buildSentenceMap E t) caret)) = Some s /\
    0 <= findActiveSentenceIndex (buildSentenceMap E t) caret.
Proof.
  intros _ Hb Ht Hc.
  pose proof (findActiveSentenceIndex_total_on_tidy E t caret Hb Ht Hc) as [Hlo Hhi].
  destruct (nth_error (buildSentenceMap E t)
              (Z.to_nat (findActiveSentenceIndex (buildSentenceMap E t) caret)))
    as [s|] eqn:Hn.
  - exists s. auto.
  - apply nth_error_None in Hn. unfold len in Hhi. lia.
Qed.

Lemma findActiveSentenceIndex_total_tidy_witness :
  literalEndings defaultEndings = true /\
  isBlank helloWorld = false /\ tidy defaultEndings AtStart helloWorld = true /\
  0 <= 25 <= len helloWorld /\
  exists s,
    nth_error (buildSentenceMap defaultEndings helloWorld)
      (Z.to_nat (findActiveSentenceIndex (buildSentenceMap defaultEndings helloWorld) 25))
    = Some s /\
    0 <= findActiveSentenceIndex (buildSentenceMap defaultEndings helloWorld) 25.
Proof.
  split; [reflexivity|]. split; [reflexivity|]. split; [reflexivity|].
  split; [vm_compute; split; discriminate|].
  apply (findActiveSentenceIndex_total_tidy defaultEndings helloWorld 25);
    [reflexivity | reflexivity | reflexivity | vm_compute; split; discriminate].
Defined.

(** * Further properties of the class *)

(** ** Frames and returns *)

Lemma keeps_ret {X A} (f : World -> X) (a : A) : keeps f (ret a).
Proof. intros w. reflexivity. Qed.

Lemma keeps_gets {X A} (f : World -> X) (g : World -> A) : keeps f (gets g).
Proof. intros w. reflexivity. Qed.

Lemma keeps_throw {X A} (f : World -> X) e : keeps f (@throw A e).
Proof. intros w. reflexivity. Qed.

Lemma keeps_modify {X} (f : World -> X) g :
  (forall w, f (g w) = f w) -> keeps f (modify g).
Proof. intros H w. apply H. Qed.

Lemma keeps_bind {X A B} (f : World -> X) (c : M A) (k : A -> M B) :
  keeps f c -> (forall a, keeps f (k a)) -> keeps f (bind c k).
Proof.
  intros Hc Hk w. unfold bind. specialize (Hc w).
  destruct (c w) as [a w1|e w1]; simpl in Hc.
  - now rewrite Hk.
  - exact Hc.
Qed.

Lemma keeps_when {X} (f : World -> X) b c : keeps f c -> keeps f (when b c).
Proof. intros H. destruct b; [exact H | apply keeps_ret]. Qed.

Lemma keeps_forEach {X A} (f : World -> X) (l : list A) body :
  (forall a, keeps f (body a)) -> keeps f (forEach l body).
Proof.
  intros H. induction l as [|x l IH]; simpl; [apply keeps_ret|].
  apply keeps_bind; auto.
Qed.

Lemma returns_ret {A} (a : A) : returns (ret a).
Proof. intros w. reflexivity. Qed.

Lemma returns_gets {A} (g : World -> A) : returns (gets g).
Proof. intros w. reflexivity. Qed.

Lemma returns_modify g : returns (modify g).
Proof. intros w. reflexivity. Qed.

Lemma returns_bind {A B} (c : M A) (k : A -> M B) :
  returns c -> (forall a, returns (k a)) -> returns (bind c k).
Proof.
  intros Hc Hk w. unfold bind. specialize (Hc w).
  destruct (c w) as [a w1|e w1]; [apply Hk | discriminate].
Qed.

Lemma returns_when b c : returns c -> returns (when b c).
Proof. intros H. destruct b; [exact H | apply returns_ret]. Qed.

Lemma returns_forEach {A} (l : list A) body :
  (forall a, returns (body a)) -> returns (forEach l body).
Proof.
  intros H. induction l as [|x l IH]; simpl; [apply returns_ret|].
  apply returns_bind; auto.
Qed.

(** The steps every method is made of. *)
Ltac step_keeps :=
  first
    [ apply keeps_ret | apply keeps_gets | apply keeps_throw
    | apply keeps_modify; intros; reflexivity
    | apply keeps_when
    | apply keeps_forEach; intros
    | apply keeps_bind; [|intros] ].

Ltac step_returns :=
  first
    [ apply returns_ret | apply returns_gets | apply returns_modify
    | apply returns_when
    | apply returns_forEach; intros
    | apply returns_bind; [|intros] ].

Lemma list_update_length {A} (l : list A) n f : length (list_update l n f) = length l.
Proof.
  revert n. induction l as [|x l IH]; intros [|n]; simpl; auto.
Qed.

Lemma keeps_element_op {X} (f : World -> X) e g :
  (forall w store, length store = length (elements (page w)) ->
                   f (on_page (with_elements store) w) = f w) ->
  keeps f (updateElement e g).
Proof.
  intros H w. unfold updateElement, modify. simpl.
  apply (H w). apply list_update_length.
Qed.

Section Frames.

Context {X : Type} (f : World -> X).

(** [f] does not look at the text or the classes and attributes of the
    spans in the store, at the active id or at the log. *)
Hypothesis f_elements : forall w store,
  length store = length (elements (page w)) ->
  f (on_page (with_elements store) w) = f w.
Hypothesis f_active : forall w a, f (on_this (with_activeSentenceId a) w) = f w.
Hypothesis f_log : forall w e, f (record e w) = f w.

Lemma keeps_scroll : keeps f scrollCaretToCenter.
Proof.
  unfold scrollCaretToCenter. apply keeps_bind; [apply keeps_gets|].
  intros [|[|] o]; try apply keeps_ret. apply keeps_modify. intros. apply f_log.
Qed.

Lemma keeps_element_ops e cls name value :
  keeps f (element_classList_add e cls) /\
  keeps f (element_classList_remove e cls) /\
  keeps f (element_setAttribute e name value) /\
  keeps f (element_removeAttribute e name).
Proof.
  unfold element_classList_add, element_classList_remove,
    element_setAttribute, element_removeAttribute.
  repeat apply conj;
    (apply keeps_bind; [apply keeps_element_op, f_elements|];
     intros; apply keeps_modify; intros; apply f_log).
Qed.

Lemma keeps_moveActiveMarker newId i : keeps f (moveActiveMarker newId i).
Proof.
  unfold moveActiveMarker, opt.
  apply keeps_bind; [apply keeps_gets|]. intros o.
  apply keeps_bind; [apply keeps_gets|]. intros old.
  apply keeps_bind.
  { apply keeps_when. apply keeps_bind; [apply keeps_gets|].
    intros [e|]; [|apply keeps_ret].
    apply keeps_bind; [apply keeps_element_ops; exact [] |].
    intros. apply (keeps_element_ops e [] (activeSentenceDataAttribute o) []). }
  intros _. apply keeps_bind; [apply keeps_modify; intros; apply f_active|].
  intros _. apply keeps_bind; [apply keeps_gets|].
  intros [e|].
  - apply keeps_bind.
    + apply keeps_bind; [apply keeps_element_ops; exact [] |].
      intros. apply (keeps_element_ops e [] (activeSentenceDataAttribute o) (lit "true")).
    + intros. apply keeps_when. apply keeps_bind; [apply keeps_gets|].
      intros. apply keeps_modify. intros. apply f_log.
  - apply keeps_bind; [apply keeps_ret|].
    intros. apply keeps_when. apply keeps_bind; [apply keeps_gets|].
    intros. apply keeps_modify. intros. apply f_log.
Qed.

Lemma keeps_idAt ss i : keeps f (idAt ss i).
Proof. unfold idAt. destruct (nth_error ss (Z.to_nat i)); step_keeps. Qed.

Lemma keeps_updateActiveSentenceFromMap ss i :
  keeps f (updateActiveSentenceFromMap ss i).
Proof.
  unfold updateActiveSentenceFromMap.
  destruct ((i <? 0) || (len ss <=? i)); [apply keeps_ret|].
  apply keeps_bind; [apply keeps_idAt|]. intros. apply keeps_moveActiveMarker.
Qed.

Lemma keeps_updateActiveSentence : keeps f updateActiveSentence.
Proof.
  unfold updateActiveSentence, getCaretOffset, opt.
  apply keeps_bind; [apply keeps_gets|]. intros size.
  destruct (size =? 0)%nat; [apply keeps_ret|].
  apply keeps_bind; [apply keeps_gets|]. intros caretOffset.
  apply keeps_bind; [apply keeps_gets|]. intros sentences.
  destruct (findActiveSentenceIndex sentences caretOffset <? 0); [apply keeps_ret|].
  apply keeps_bind; [apply keeps_idAt|]. intros newId.
  apply keeps_bind; [apply keeps_gets|]. intros active.
  destruct (match active with Some a => str_eqb newId a | None => false end);
    [apply keeps_ret|].
  apply keeps_bind; [apply keeps_moveActiveMarker|]. intros.
  apply keeps_bind; [apply keeps_gets|]. intros.
  apply keeps_when, keeps_scroll.
Qed.

End Frames.

(** ** The navigation path *)

Lemma rendering_elements w store :
  length store = length (elements (page w)) ->
  rendering (on_page (with_elements store) w) = rendering w.
Proof. intros H. unfold rendering. simpl. now rewrite H. Qed.

(** X14.  The navigation path never rebuilds and never schedules:
    whatever the state, [updateActiveSentence] leaves the content of the
    editor, the number of spans ever created, the sentence collection, the
    element map, the fingerprint, the pending caret restores, the options,
    the timers and the listeners as they were. *)
Theorem updateActiveSentence_never_rebuilds w :
  rendering (world_of (updateActiveSentence w)) = rendering w /\
  schedule (world_of (updateActiveSentence w)) = schedule w /\
  listeners (page (world_of (updateActiveSentence w))) = listeners (page w).
Proof.
  repeat apply conj.
  - apply (keeps_updateActiveSentence rendering); auto using rendering_elements.
  - apply (keeps_updateActiveSentence schedule); reflexivity.
  - apply (keeps_updateActiveSentence (fun w => listeners (page w))); reflexivity.
Qed.

(** ** Methods that cannot throw *)

Lemma idAt_in_range (ss : list Sentence) i :
  0 <= i < len ss -> exists s, nth_error ss (Z.to_nat i) = Some s.
Proof.
  intros [Hlo Hhi]. destruct (nth_error ss (Z.to_nat i)) as [s|] eqn:Hn.
  - now exists s.
  - apply nth_error_None in Hn. unfold len in Hhi. lia.
Qed.

Lemma returns_idAt ss i : 0 <= i < len ss -> returns (idAt ss i).
Proof.
  intros H. destruct (idAt_in_range ss i H) as [s Hs].
  rewrite (idAt_some _ _ _ Hs). apply returns_ret.
Qed.

Lemma returns_scroll : returns scrollCaretToCenter.
Proof.
  unfold scrollCaretToCenter. step_returns; [step_returns|].
  destruct a as [|[|] o]; step_returns.
Qed.

Lemma returns_element_ops e cls name value :
  returns (element_classList_add e cls) /\
  returns (element_classList_remove e cls) /\
  returns (element_setAttribute e name value) /\
  returns (element_removeAttribute e name).
Proof.
  unfold element_classList_add, element_classList_remove,
    element_setAttribute, element_removeAttribute, updateElement.
  repeat apply conj; repeat step_returns.
Qed.

Lemma returns_moveActiveMarker newId i : returns (moveActiveMarker newId i).
Proof.
  unfold moveActiveMarker, opt.
  apply returns_bind; [apply returns_gets|]. intros o.
  apply returns_bind; [apply returns_gets|]. intros old.
  apply returns_bind.
  { apply returns_when. apply returns_bind; [apply returns_gets|].
    intros [e|]; [|apply returns_ret].
    apply returns_bind; [apply returns_element_ops; exact [] |].
    intros. apply (returns_element_ops e [] (activeSentenceDataAttribute o) []). }
  intros _. apply returns_bind; [apply returns_modify|].
  intros _. apply returns_bind; [apply returns_gets|].
  intros [e|].
  - apply returns_bind.
    + apply returns_bind; [apply returns_element_ops; exact [] |].
      intros. apply (returns_element_ops e [] (activeSentenceDataAttribute o) (lit "true")).
    + intros. apply returns_when. repeat step_returns.
  - apply returns_bind; [apply returns_ret|].
    intros. apply returns_when. repeat step_returns.
Qed.

Lemma returns_updateActiveSentenceFromMap ss i :
  returns (updateActiveSentenceFromMap ss i).
Proof.
  unfold updateActiveSentenceFromMap.
  destruct (i <? 0) eqn:Hlo; [apply returns_ret|].
  destruct (len ss <=? i) eqn:Hhi; [apply returns_ret|]. simpl.
  apply Z.ltb_ge in Hlo. apply Z.leb_gt in Hhi.
  step_returns; [apply returns_idAt; lia | apply returns_moveActiveMarker].
Qed.

Lemma returns_clearAllHighlights : returns clearAllHighlights.
Proof.
  unfold clearAllHighlights, opt.
  step_returns; [step_returns|]. step_returns; [step_returns|].
  step_returns; [|step_returns].
  destruct (content a0); try step_returns.
  destruct (negb _); step_returns.
Qed.

Lemma returns_rebuildSpans ai ss : forall i, returns (rebuildSpans ai i ss).
Proof.
  induction ss as [|s ss IH]; intros i; simpl; [apply returns_ret|].
  step_returns.
  - unfold rebuildSpan, opt. repeat step_returns.
  - step_returns; [apply IH | step_returns].
Qed.

Lemma returns_rebuildHighlights ss ai c : returns (rebuildHighlights ss ai c).
Proof.
  unfold rebuildHighlights.
  destruct (length ss =? 0)%nat; [apply returns_clearAllHighlights|].
  step_returns; [step_returns|].
  step_returns; [apply returns_rebuildSpans|].
  repeat step_returns.
Qed.

(** X15.  [scanAndHighlight] and [updateActiveSentence] never read a
    sentence that is not there: in every state they return, they do not
    throw. *)
Theorem scan_and_update_return w :
  returned (scanAndHighlight w) = true /\ returned (updateActiveSentence w) = true.
Proof.
  split.
  - revert w. change (returns scanAndHighlight).
    unfold scanAndHighlight, getPlainText, getContentHash, getCaretOffset,
      hasValidHighlights, opt.
    step_returns; [step_returns|].
    destruct (isBlank a).
    { step_returns; [apply returns_clearAllHighlights|]. repeat step_returns. }
    step_returns; [repeat step_returns|].
    step_returns; [step_returns|]. step_returns; [step_returns|].
    step_returns; [step_returns|].
    destruct (length (buildSentenceMap a2 a3) =? 0)%nat; [step_returns|].
    step_returns; [step_returns|]. step_returns; [step_returns|].
    step_returns; [repeat step_returns|].
    step_returns.
    { destruct (_ || _ || _).
      - step_returns; [apply returns_rebuildHighlights | step_returns].
      - apply returns_updateActiveSentenceFromMap. }
    step_returns; [step_returns|]. step_returns; [repeat step_returns|].
    step_returns; [step_returns|].
    step_returns; [apply returns_when; repeat step_returns|].
    step_returns; [step_returns|]. apply returns_when, returns_scroll.
  - revert w. change (returns updateActiveSentence).
    unfold updateActiveSentence, getCaretOffset, opt.
    step_returns; [step_returns|].
    destruct (a =? 0)%nat; [step_returns|].
    step_returns; [step_returns|]. step_returns; [step_returns|].
    destruct (findActiveSentenceIndex a1 a0 <? 0) eqn:Hneg; [step_returns|].
    apply Z.ltb_ge in Hneg.
    step_returns.
    { apply returns_idAt. destruct (findActiveSentenceIndex_bounds a0 a1); lia. }
    step_returns; [step_returns|].
    destruct (match a3 with Some x => str_eqb a2 x | None => false end);
      [step_returns|].
    step_returns; [apply returns_moveActiveMarker|].
    step_returns; [step_returns|]. apply returns_when, returns_scroll.
Qed.

(** ** The timer slot *)

Lemma singleSlot_schedule w w' :
  schedule w' = schedule w -> singleSlot w -> singleSlot w'.
Proof.
  unfold schedule, singleSlot. intros H. injection H as -> -> ->. auto.
Qed.

Lemma singleSlot_keeps {A} (c : M A) :
  keeps schedule c -> forall w, singleSlot w -> singleSlot (world_of (c w)).
Proof. intros H w. apply singleSlot_schedule, H. Qed.

Lemma singleSlot_bind {A B} (c : M A) (k : A -> M B) :
  (forall w, singleSlot w -> singleSlot (world_of (c w))) ->
  (forall a w, singleSlot w -> singleSlot (world_of (k a w))) ->
  forall w, singleSlot w -> singleSlot (world_of (bind c k w)).
Proof.
  intros Hc Hk w Hw. unfold bind. specialize (Hc w Hw).
  destruct (c w) as [a w1|e w1]; simpl in Hc; [now apply Hk | exact Hc].
Qed.

Lemma singleSlot_forEach {A} (l : list A) body :
  (forall a w, singleSlot w -> singleSlot (world_of (body a w))) ->
  forall w, singleSlot w -> singleSlot (world_of (forEach l body w)).
Proof.
  intros H. induction l as [|x l IH]; simpl; [auto|].
  apply singleSlot_bind; auto.
Qed.

(** Cancelling the timer of the slot and setting a new one. *)
Lemma singleSlot_reschedule w w' cb d :
  singleSlot w ->
  timers (page w')
  = match updateTimer (this w) with
    | Some n => filter (fun x => negb (Nat.eqb (timerId x) n)) (timers (page w))
    | None => timers (page w)
    end ++ [mkTimer (nextTimerId (page w)) d cb] ->
  nextTimerId (page w') = S (nextTimerId (page w)) ->
  updateTimer (this w') = Some (nextTimerId (page w)) ->
  singleSlot w'.
Proof.
  intros [[Hnone | (t & Hone & Hslot)] Hfresh] Ht Hn Hu.
  - assert (Hts : timers (page w') = [mkTimer (nextTimerId (page w)) d cb]).
    { rewrite Ht, Hnone. now destruct (updateTimer (this w)). }
    split.
    + right. eexists. split; [exact Hts|]. now rewrite Hu.
    + rewrite Hts, Hn. intros t [<- | []]. simpl. lia.
  - assert (Hts : timers (page w') = [mkTimer (nextTimerId (page w)) d cb]).
    { rewrite Ht, Hslot, Hone. simpl. now rewrite Nat.eqb_refl. }
    split.
    + right. eexists. split; [exact Hts|]. now rewrite Hu.
    + rewrite Hts, Hn. intros t' [<- | []]. simpl. lia.
Qed.

Lemma singleSlot_handleNavigation w :
  singleSlot w -> singleSlot (world_of (handleNavigation w)).
Proof.
  intros Hw.
  apply (singleSlot_reschedule w _ CallUpdateActiveSentence
           (updateThrottle (options (this w))) Hw);
    unfold handleNavigation, bind, gets, clearTimeout, setTimeout, opt, modify, ret, bind;
    destruct (updateTimer (this w)); reflexivity.
Qed.

Lemma singleSlot_handleCaretMove w :
  singleSlot w -> singleSlot (world_of (handleCaretMove w)).
Proof.
  intros Hw. unfold handleCaretMove, bind at 1, gets at 1.
  destruct (selection (page w)) as [|[|] o]; try exact Hw.
  apply (singleSlot_reschedule w _ CallUpdateActiveSentence
           (updateThrottle (options (this w))) Hw);
    unfold bind, gets, clearTimeout, setTimeout, opt, modify, ret, bind;
    destruct (updateTimer (this w)); reflexivity.
Qed.

Lemma singleSlot_handleInput w :
  singleSlot w -> singleSlot (world_of (handleInput w)).
Proof.
  intros Hw.
  apply (singleSlot_reschedule w _ CallScanAndHighlight
           (if (1 <? match selection (page w) with
                     | NoSelection => 0
                     | Caret _ offset => offset
                     end)
               && match nth_error (textOf (view (page w)))
                          (Z.to_nat (match selection (page w) with
                                     | NoSelection => 0
                                     | Caret _ offset => offset
                                     end - 2)) with
                  | Some charBefore =>
                      isEnding (sentenceEndings (options (this w))) charBefore
                  | None => false
                  end
            then 10 else updateDebounce (options (this w))) Hw);
    unfold handleInput, getPlainText, getCaretOffset, opt, bind, gets, clearTimeout,
      setTimeout, modify, ret, bind;
    destruct (updateTimer (this w)); reflexivity.
Qed.

Lemma singleSlot_runHandler h key w :
  singleSlot w -> singleSlot (world_of (runHandler h key w)).
Proof.
  intros Hw. destruct h; cbn [runHandler].
  - now apply singleSlot_handleInput.
  - now apply singleSlot_handleNavigation.
  - now apply singleSlot_handleCaretMove.
  - unfold opt, bind at 1, gets at 1.
    destruct (isEndingKey (sentenceEndings (options (this w))) key); [|exact Hw].
    apply (singleSlot_reschedule w _ CallScanAndHighlight 20 Hw);
      unfold when, bind, gets, clearTimeout, setTimeout, modify, ret, bind;
      destruct (updateTimer (this w)); reflexivity.
  - destruct (existsb (str_eqb key) navigationKeys); [|exact Hw].
    now apply singleSlot_handleNavigation.
  - now apply singleSlot_handleNavigation.
Qed.

Lemma keeps_schedule_clearAllHighlights : keeps schedule clearAllHighlights.
Proof.
  unfold clearAllHighlights, opt.
  apply keeps_bind; [apply keeps_gets|]. intros attribute.
  apply keeps_bind; [apply keeps_gets|]. intros b.
  apply keeps_bind; [|intros; step_keeps].
  destruct (content b); try apply keeps_ret.
  destruct (negb _); step_keeps.
Qed.

Lemma keeps_schedule_rebuildSpans ai ss : forall i, keeps schedule (rebuildSpans ai i ss).
Proof.
  induction ss as [|s ss IH]; intros i; simpl; [apply keeps_ret|].
  apply keeps_bind.
  - unfold rebuildSpan, opt. repeat step_keeps.
  - intros. apply keeps_bind; [apply IH | intros; apply keeps_ret].
Qed.

Lemma keeps_schedule_rebuildHighlights ss ai c :
  keeps schedule (rebuildHighlights ss ai c).
Proof.
  unfold rebuildHighlights.
  destruct (length ss =? 0)%nat; [apply keeps_schedule_clearAllHighlights|].
  apply keeps_bind; [step_keeps|]. intros.
  apply keeps_bind; [apply keeps_schedule_rebuildSpans|]. intros.
  repeat step_keeps.
Qed.

Lemma keeps_schedule_scanAndHighlight : keeps schedule scanAndHighlight.
Proof.
  unfold scanAndHighlight, getPlainText, getContentHash, getCaretOffset,
    hasValidHighlights, opt.
  apply keeps_bind; [apply keeps_gets|]. intros t.
  destruct (isBlank t).
  { apply keeps_bind; [apply keeps_schedule_clearAllHighlights|].
    intros. repeat step_keeps. }
  apply keeps_bind; [repeat step_keeps|]. intros contentHash.
  apply keeps_bind; [apply keeps_gets|]. intros caretOffset.
  apply keeps_bind; [apply keeps_gets|]. intros endings.
  apply keeps_bind; [apply keeps_gets|]. intros t'.
  destruct (length (buildSentenceMap endings t') =? 0)%nat; [apply keeps_ret|].
  apply keeps_bind; [apply keeps_gets|]. intros last.
  apply keeps_bind; [apply keeps_gets|]. intros size.
  apply keeps_bind; [repeat step_keeps|]. intros valid.
  apply keeps_bind.
  { destruct (_ || _ || _).
    - apply keeps_bind; [apply keeps_schedule_rebuildHighlights | intros; step_keeps].
    - apply keeps_updateActiveSentenceFromMap; reflexivity. }
  intros. apply keeps_bind; [step_keeps|]. intros.
  apply keeps_bind; [repeat step_keeps|]. intros.
  apply keeps_bind; [apply keeps_gets|]. intros.
  apply keeps_bind; [apply keeps_when; repeat step_keeps|]. intros.
  apply keeps_bind; [apply keeps_gets|]. intros.
  apply keeps_when, keeps_scroll. reflexivity.
Qed.

Lemma singleSlot_clearTimeout o w :
  singleSlot w -> singleSlot (world_of (clearTimeout o w)).
Proof.
  intros Hw. destruct o as [n|]; [|exact Hw].
  unfold clearTimeout, modify, singleSlot. simpl.
  destruct Hw as [[Hnone | (t & Hone & Hslot)] Hfresh].
  - rewrite Hnone. simpl. split; [left; reflexivity | intros t []].
  - rewrite Hone. simpl. destruct (timerId t =? n)%nat; simpl.
    + split; [left; reflexivity | intros t' []].
    + split; [right; exists t; auto|].
      intros t' [<- | []]. apply Hfresh. rewrite Hone. now left.
Qed.

Lemma singleSlot_fireTimer n w :
  singleSlot w -> singleSlot (world_of (fireTimer n w)).
Proof.
  intros Hw. unfold fireTimer, bind at 1, gets at 1.
  destruct (find (fun x => Nat.eqb (timerId x) n) (timers (page w))) as [x|] eqn:Hf;
    [|exact Hw].
  apply singleSlot_bind; auto.
  - intros w0. apply singleSlot_clearTimeout.
  - intros _ w0 Hw0. destruct (callback x).
    + apply (singleSlot_keeps _ keeps_schedule_scanAndHighlight), Hw0.
    + apply singleSlot_keeps; auto.
      apply keeps_updateActiveSentence; reflexivity.
Qed.

Lemma singleSlot_destroy w :
  singleSlot w -> singleSlot (world_of (destroy w)).
Proof.
  unfold destroy. apply singleSlot_bind.
  { intros w0 Hw0. exact Hw0. }
  intros t. apply singleSlot_bind.
  - intros w0. apply singleSlot_clearTimeout.
  - intros _. apply singleSlot_keeps.
    unfold removeEventListener, removeSentenceHighlight, opt. repeat step_keeps.
Qed.

Lemma singleSlot_run a w : singleSlot w -> singleSlot (run a w).
Proof.
  intros Hw. destruct a; cbn [run].
  - unfold dispatchEvent. apply singleSlot_bind; auto.
    intros ls. apply singleSlot_forEach. intros l. apply singleSlot_runHandler.
  - now apply singleSlot_fireTimer.
  - apply singleSlot_keeps; auto.
    unfold animationFrame, setCaretOffset, getPlainText. repeat step_keeps.
  - apply singleSlot_keeps; auto. unfold userEdits. repeat step_keeps.
  - unfold update. apply (singleSlot_keeps _ keeps_schedule_scanAndHighlight), Hw.
  - apply singleSlot_keeps; auto.
    unfold setFocusMode. destruct enabled; repeat step_keeps.
  - apply singleSlot_keeps; auto.
    unfold toggleFocusMode, setFocusMode.
    apply keeps_bind; [apply keeps_gets|]. intros b.
    destruct (negb b); repeat step_keeps.
  - now apply singleSlot_destroy.
Qed.

(** X16.  Once no timer is pending but the one [updateTimer] names, this
    stays so whatever happens: events of any type reaching the editor or
    the document, timers coming due, animation frames, edits, and calls of
    [update], [setFocusMode], [toggleFocusMode] and [destroy].  However many
    signals arrive, at most one update is scheduled. *)
Theorem single_timer_slot actions w :
  singleSlot w ->
  singleSlot (runAll actions w) /\ (length (timers (page (runAll actions w))) <= 1)%nat.
Proof.
  intros Hw.
  assert (H : singleSlot (runAll actions w)).
  { revert w Hw. induction actions as [|a r IH]; intros w Hw; simpl; [exact Hw|].
    apply IH, singleSlot_run, Hw. }
  split; [exact H|].
  destruct H as [[-> | (t & -> & _)] _]; simpl; lia.
Qed.

Lemma single_timer_slot_witness :
  singleSlot (world_of scanned) /\
  (length (timers (page (runAll
     [Dispatch Editor input []; Dispatch Editor keydown (lit ".");
      Dispatch Editor click []; Dispatch Document selectionchange []]
     (world_of scanned)))) <= 1)%nat.
Proof.
  assert (H : singleSlot (world_of scanned)).
  { split; [left; reflexivity | intros t []]. }
  split; [exact H|].
  exact (proj2 (single_timer_slot _ _ H)).
Defined.

(** ** [destroy] without sentences *)

Lemma classList_remove_not_in cls l : ~ In cls (classList_remove cls l).
Proof.
  unfold classList_remove. intros H. apply filter_In in H as [_ H].
  now rewrite str_eqb_refl in H.
Qed.

Lemma classList_remove_subset cls l x : In x (classList_remove cls l) -> In x l.
Proof. unfold classList_remove. intros H. now apply filter_In in H. Qed.

(** X17.  On an instance whose collection is empty [destroy] returns, and
    afterwards: the timer that [updateTimer] named is no longer pending; no
    listener with one of the three bound methods is left for its event; the
    collection, the element map and the active id are empty; the editor
    carries neither the container class nor the focus-off class; and the
    instance no longer counts as initialised. *)
Theorem destroy_without_sentences w :
  sentenceMap (this w) = [] ->
  exists w',
    destroy w = Returned tt w' /\
    (forall n t, updateTimer (this w) = Some n -> In t (timers (page w')) ->
                 timerId t <> n) /\
    ~ In (mkListener Editor input BoundHandleInput) (listeners (page w')) /\
    ~ In (mkListener Editor click BoundHandleNavigation) (listeners (page w')) /\
    ~ In (mkListener Document selectionchange BoundHandleCaretMove)
         (listeners (page w')) /\
    sentenceMap (this w') = [] /\ sentenceElements (this w') = [] /\
    activeSentenceId (this w') = None /\
    ~ In (containerClass (options (this w))) (editorClassList (page w')) /\
    ~ In focusOffClass (editorClassList (page w')) /\
    isInitialized (this w') = false.
Proof.
  intros Hempty.
  unfold destroy, bind, gets, modify, removeEventListener, modify, opt, gets, ret.
  destruct (updateTimer (this w)) as [n|] eqn:Hu; simpl; rewrite Hempty; simpl;
    eexists; (split; [reflexivity|]); simpl; repeat apply conj; auto.
  all: try (intros H; repeat (apply filter_In in H as [H ?]);
            discriminate).
  all: try (intros H; apply classList_remove_subset in H;
            now apply classList_remove_not_in in H).
  all: try apply classList_remove_not_in.
  intros n' t Hn' Hin. injection Hn' as <-.
  apply filter_In in Hin as [_ Hin].
  now apply negb_true_iff, Nat.eqb_neq in Hin.
Qed.

Lemma destroy_without_sentences_witness :
  sentenceMap (this (world_of
    (andThen (construct (freshPage [] 0) (defaultOptions true true)) (fireTimer 0)))) = [] /\
  returned (destroy (world_of
    (andThen (construct (freshPage [] 0) (defaultOptions true true)) (fireTimer 0)))) = true.
Proof.
  split; [reflexivity|].
  destruct (destroy_without_sentences
              (world_of (andThen (construct (freshPage [] 0) (defaultOptions true true))
                                 (fireTimer 0))) eq_refl)
    as (w' & -> & _).
  reflexivity.
Defined.

(** ** Focus mode *)

Lemma classList_add_in cls l : In cls (classList_add cls l).
Proof.
  unfold classList_add. destruct (existsb (str_eqb cls) l) eqn:H.
  - apply existsb_exists in H as (x & Hx & Heq). apply str_eqb_eq in Heq. now subst.
  - apply in_or_app. right. now left.
Qed.

(** X18.  [setFocusMode] makes the flag and the class on the editor
    agree: after [setFocusMode(enabled)] the flag is [enabled], and the
    editor carries the focus-off class exactly when [enabled] is false.  It
    touches nothing a scan made, sets no timer and calls nothing. *)
Theorem setFocusMode_spec enabled w :
  exists w',
    setFocusMode enabled w = Returned tt w' /\
    focusModeEnabled (this w') = enabled /\
    (In focusOffClass (editorClassList (page w')) <-> enabled = false) /\
    rendering w' = rendering w /\ schedule w' = schedule w /\ log w' = log w.
Proof.
  unfold setFocusMode, bind, modify.
  destruct enabled; eexists; (split; [reflexivity|]); simpl;
    repeat apply conj; auto; try discriminate.
  - intros H. now apply classList_remove_not_in in H.
  - intros _. apply classList_add_in.
Qed.

(** X19.  Two calls of [toggleFocusMode] bring the flag back, and the
    class on the editor then agrees with it. *)
Theorem toggleFocusMode_twice w :
  exists w1 w2,
    toggleFocusMode w = Returned JSUndefined w1 /\
    toggleFocusMode w1 = Returned JSUndefined w2 /\
    focusModeEnabled (this w2) = focusModeEnabled (this w) /\
    (In focusOffClass (editorClassList (page w2))
     <-> focusModeEnabled (this w) = false).
Proof.
  unfold toggleFocusMode, setFocusMode, bind, gets, modify, ret.
  destruct (focusModeEnabled (this w)) eqn:Hf; simpl;
    do 2 eexists; (split; [reflexivity|]); simpl; (split; [reflexivity|]); simpl;
    repeat apply conj; auto; try discriminate.
  - intros H. now apply classList_remove_not_in in H.
  - intros _. apply classList_add_in.
Qed.

(** ** Read access *)

Lemma copySentence_id s : copySentence s = s.
Proof. now destruct s. Qed.

Lemma indexOf_range l k : indexOf l k = -1 \/ 0 <= indexOf l k < len l.
Proof.
  induction l as [|x l IH]; [now left|].
  unfold len in *. cbn [indexOf length].
  destruct (str_eqb k x); [right; lia|].
  destruct (indexOf l k <? 0) eqn:Hneg; [now left|].
  apply Z.ltb_ge in Hneg. right. lia.
Qed.

Lemma indexOf_map_get {V} (m : JSMap V) k :
  (indexOf (map_keys m) k = -1 /\ map_get m k = None) \/
  (exists v, 0 <= indexOf (map_keys m) k /\
             nth_error m (Z.to_nat (indexOf (map_keys m) k)) = Some (k, v) /\
             map_get m k = Some v).
Proof.
  induction m as [|[k' v'] m IH]; [now left|].
  cbn [map_keys map indexOf map_get fst].
  destruct (str_eqb k k') eqn:Hk.
  - right. apply str_eqb_eq in Hk. subst k'. exists v'. simpl. auto with zarith.
  - fold (map_keys m).
    destruct IH as [[Hi Hg] | (v & Hi & Hn & Hg)].
    + left. rewrite Hi. simpl. auto.
    + right. exists v.
      replace (indexOf (map_keys m) k <? 0) with false
        by (symmetry; apply Z.ltb_ge; lia).
      repeat apply conj; auto; [lia|].
      replace (Z.to_nat (indexOf (map_keys m) k + 1))
        with (S (Z.to_nat (indexOf (map_keys m) k))) by lia.
      exact Hn.
Qed.

(** X20.  The three getters agree in every state: either
    [getActiveSentenceIndex] is -1 and [getActiveSentence] is [null]; or
    the index is a position of the collection whose key is the active id,
    and the sentence that [getSentences] has there is the one
    [getActiveSentence] returns. *)
Theorem getters_agree w :
  exists i a ss,
    getActiveSentenceIndex w = Returned i w /\
    getActiveSentence w = Returned a w /\
    getSentences w = Returned ss w /\
    ((i = -1 /\ a = None) \/
     (exists s, 0 <= i /\ nth_error ss (Z.to_nat i) = Some s /\ a = Some s /\
                option_map fst (nth_error (sentenceMap (this w)) (Z.to_nat i))
                = activeSentenceId (this w))).
Proof.
  unfold getActiveSentenceIndex, getActiveSentence, getSentences, bind, gets, ret.
  destruct (activeSentenceId (this w)) as [[|c r]|] eqn:Ha; simpl.
  1, 3: do 3 eexists; repeat (split; [reflexivity|]); now left.
  do 3 eexists. repeat (split; [reflexivity|]).
  destruct (indexOf_map_get (sentenceMap (this w)) (c :: r))
    as [[Hi Hg] | (v & Hi & Hn & Hg)].
  - left. now rewrite Hg.
  - right. exists v. rewrite Hg, copySentence_id.
    repeat apply conj; auto.
    + unfold map_values. rewrite nth_error_map, nth_error_map, Hn. simpl.
      now rewrite copySentence_id.
    + now rewrite Hn.
Qed.

(** ** Scans that find sentences *)

(** A scan of text that is not blank is the branch followed by the
    storing. *)
Lemma scanAndHighlight_nonblank w :
  isBlank (scanText w) = false ->
  scanAndHighlight w
  = bind (scanBranch (needsRebuild w) (scanSentences w)
            (findActiveSentenceIndex (scanSentences w) (scanCaret w))
            (scanCaret w) (scanHash w))
         (fun _ => scanStore (scanSentences w)) w.
Proof.
  intros Hb.
  assert (Hne : (length (scanSentences w) =? 0)%nat = false).
  { apply Nat.eqb_neq. intros H. apply length_zero_iff_nil in H.
    unfold scanSentences in H.
    now apply buildSentenceMap_nonblank in H. }
  unfold scanAndHighlight, getPlainText. rewrite bind_gets.
  fold (scanText w). rewrite Hb.
  change (bind getContentHash ?k w) with (k (scanHash w) w). cbv beta.
  unfold getCaretOffset, opt. rewrite !bind_gets.
  fold (scanText w). fold (scanCaret w). fold (scanSentences w). rewrite Hne.
  rewrite !bind_gets.
  change (bind hasValidHighlights ?k w)
    with (k ((0 <? map_size (sentenceElements (this w)))%nat
             && (0 <? length (querySelectorAll (page w)
                                (sentenceDataAttribute (options (this w)))))%nat) w).
  reflexivity.
Qed.

Lemma returns_scanStore ss : returns (scanStore ss).
Proof.
  unfold scanStore, opt.
  apply returns_bind; [apply returns_modify|]. intros.
  apply returns_bind; [repeat step_returns|]. intros.
  apply returns_bind; [apply returns_gets|]. intros.
  apply returns_bind; [apply returns_when; repeat step_returns|]. intros.
  apply returns_bind; [apply returns_gets|]. intros.
  apply returns_when, returns_scroll.
Qed.

(** What storing and notifying leave alone. *)
Lemma keeps_scanStore {X} (f : World -> X) ss :
  (forall w m, f (on_this (with_sentenceMap m) w) = f w) ->
  (forall w e, f (record e w) = f w) ->
  keeps f (scanStore ss).
Proof.
  intros Hmap Hlog. unfold scanStore, opt.
  apply keeps_bind; [apply keeps_modify; intros; apply Hmap|]. intros.
  apply keeps_bind.
  { apply keeps_forEach. intros s. apply keeps_modify. intros w.
    apply (Hmap w (map_set (sentenceMap (this w)) (id s) s)). }
  intros. apply keeps_bind; [apply keeps_gets|]. intros.
  apply keeps_bind.
  { apply keeps_when. apply keeps_bind; [apply keeps_gets|].
    intros. apply keeps_modify. intros. apply Hlog. }
  intros. apply keeps_bind; [apply keeps_gets|]. intros.
  apply keeps_when. unfold scrollCaretToCenter.
  apply keeps_bind; [apply keeps_gets|].
  intros [|[|] o]; try apply keeps_ret. apply keeps_modify. intros. apply Hlog.
Qed.

(** One round of the loop of [rebuildHighlights] appends one span to the
    store and returns the reference to it. *)
Lemma rebuildSpan_spec ai i s w :
  exists w',
    rebuildSpan ai i s w = Returned (length (elements (page w))) w' /\
    elements (page w') = elements (page w) ++ [renderedSpan (options (this w)) ai i s] /\
    options (this w') = options (this w).
Proof.
  unfold rebuildSpan, renderedSpan, opt, bind, gets, modify, ret, when.
  destruct ((i =? ai) && (0 <=? ai)); simpl; eexists; repeat split.
Qed.

Lemma rebuildSpans_spec ai ss : forall i w,
  exists w',
    rebuildSpans ai i ss w
    = Returned (seq (length (elements (page w))) (length ss)) w' /\
    elements (page w')
    = elements (page w) ++ renderedSpans (options (this w)) ai i ss /\
    options (this w') = options (this w).
Proof.
  induction ss as [|s ss IH]; intros i w; simpl.
  - exists w. rewrite app_nil_r. auto.
  - destruct (rebuildSpan_spec ai i s w) as (w1 & H1 & He1 & Ho1).
    destruct (IH (i + 1) w1) as (w2 & H2 & He2 & Ho2).
    exists w2. repeat apply conj.
    + rewrite (bind_returned _ _ _ _ _ H1), (bind_returned _ _ _ _ _ H2).
      unfold ret. do 2 f_equal. rewrite He1, length_app. simpl.
      now rewrite Nat.add_1_r.
    + rewrite He2, He1, Ho1, <- app_assoc. reflexivity.
    + congruence.
Qed.

(** What the spans and the rest of a rebuild leave alone. *)
Lemma keeps_rebuildSpans {X} (f : World -> X) ai ss :
  (forall w a, f (on_this (with_activeSentenceId a) w) = f w) ->
  (forall w store, f (on_page (with_elements store) w) = f w) ->
  (forall w m, f (on_this (with_sentenceElements m) w) = f w) ->
  forall i, keeps f (rebuildSpans ai i ss).
Proof.
  intros Ha He Hm. induction ss as [|s ss IH]; intros i; simpl; [apply keeps_ret|].
  apply keeps_bind.
  - unfold rebuildSpan, opt.
    apply keeps_bind; [apply keeps_gets|]. intros o.
    apply keeps_bind; [apply keeps_when, keeps_modify; intros; apply Ha|]. intros.
    apply keeps_bind; [apply keeps_gets|]. intros e.
    apply keeps_bind.
    { apply keeps_modify. intros w.
      apply (He w (elements (page w) ++ [_])). }
    intros. apply keeps_bind; [|intros; apply keeps_ret].
    apply keeps_modify. intros w.
    apply (Hm w (map_set (sentenceElements (this w)) (id s) e)).
  - intros. apply keeps_bind; [apply IH | intros; apply keeps_ret].
Qed.

Lemma nth_renderedSpans_text o ai ss : forall i,
  map textContent (renderedSpans o ai i ss) = map text ss.
Proof.
  induction ss as [|s ss IH]; intros i; simpl; [reflexivity|]. now rewrite IH.
Qed.

Lemma renderedSpans_attribute o ai ss : forall i,
  forallb (fun sp => hasAttribute sp (sentenceDataAttribute o))
          (renderedSpans o ai i ss) = true.
Proof.
  induction ss as [|s ss IH]; intros i; simpl; [reflexivity|].
  rewrite IH, andb_true_r. unfold renderedSpan, hasAttribute.
  destruct ((i =? ai) && (0 <=? ai)); simpl.
  - unfold setAttribute. cbn [map_set].
    destruct (str_eqb (activeSentenceDataAttribute o) (sentenceDataAttribute o));
      simpl; rewrite str_eqb_refl; reflexivity.
  - now rewrite str_eqb_refl.
Qed.

Lemma renderedSpans_length o ai ss : forall i,
  length (renderedSpans o ai i ss) = length ss.
Proof. induction ss as [|s ss IH]; intros i; simpl; auto. Qed.

Lemma element_appended old new j :
  (j < length new)%nat ->
  element (old ++ new) (length old + j)%nat = nth j new (mkSpan [] [] []).
Proof.
  intros H. unfold element. rewrite app_nth2 by lia. f_equal. lia.
Qed.

Lemma elements_of_seq old new :
  map (element (old ++ new)) (seq (length old) (length new)) = new.
Proof.
  apply nth_ext with (d := mkSpan [] [] []) (d' := mkSpan [] [] []).
  - now rewrite length_map, length_seq.
  - intros n Hn. rewrite length_map, length_seq in Hn.
    rewrite (nth_indep _ _ (element (old ++ new) 0%nat))
      by (now rewrite length_map, length_seq).
    rewrite map_nth, seq_nth by exact Hn. now apply element_appended.
Qed.

(** The editor after a rebuild, as a serialiser or a reader of
    [textContent] sees it. *)
Lemma rebuilt_view b old new :
  content b = Container (map SpanNode (seq (length old) (length new))) ->
  elements b = old ++ new ->
  view b = ViewContainer (map ViewSpan new).
Proof.
  intros Hc He. unfold view. rewrite Hc, He. f_equal.
  rewrite map_map. simpl. rewrite <- (map_map (element (old ++ new)) ViewSpan).
  now rewrite elements_of_seq.
Qed.

Lemma rebuilt_query b old new attribute :
  content b = Container (map SpanNode (seq (length old) (length new))) ->
  elements b = old ++ new ->
  forallb (fun sp => hasAttribute sp attribute) new = true ->
  querySelectorAll b attribute = seq (length old) (length new).
Proof.
  intros Hc He Hall. unfold querySelectorAll. rewrite Hc, He.
  rewrite <- (elements_of_seq old new) in Hall.
  revert Hall. generalize (seq (length old) (length new)) as refs.
  induction refs as [|r refs IH]; simpl; [reflexivity|].
  intros H. apply andb_true_iff in H as [Hr Hrest].
  rewrite Hr. simpl. now rewrite IH.
Qed.

(** The frame of a scan that rebuilds: what counts afterwards of the
    state the branch left. *)
Lemma rebuild_branch w ss ai caret hash :
  ss <> [] ->
  exists w1,
    scanBranch true ss ai caret hash w = Returned tt w1 /\
    content (page w1)
    = Container (map SpanNode (seq (length (elements (page w))) (length ss))) /\
    elements (page w1)
    = elements (page w) ++ renderedSpans (options (this w)) ai 0 ss /\
    options (this w1) = options (this w) /\
    lastContentHash (this w1) = FpString hash /\
    animationFrames (page w1) = animationFrames (page w) ++ [caret] /\
    innerHTMLLength (page w1) = innerHTMLLength (page w).
Proof.
  intros Hne. unfold scanBranch, rebuildHighlights.
  destruct ss as [|s0 ss0] eqn:Hss; [congruence|]. rewrite <- Hss in *.
  replace (length ss =? 0)%nat with false by (now rewrite Hss).
  set (w0 := on_this (with_sentenceElements []) w).
  destruct (rebuildSpans_spec ai ss 0 w0) as (w1 & H1 & He1 & Ho1).
  pose proof (keeps_rebuildSpans
                (fun w => (animationFrames (page w), innerHTMLLength (page w)))
                ai ss (fun _ _ => eq_refl) (fun _ _ => eq_refl) (fun _ _ => eq_refl)
                0 w0) as Hk.
  rewrite H1 in Hk. simpl in Hk. injection Hk as Hfr Hser.
  eexists. split.
  - unfold bind at 1. unfold bind at 1. unfold modify at 1.
    fold w0. unfold bind at 1. rewrite H1. reflexivity.
  - simpl. rewrite He1, Ho1, Hfr, Hser. repeat apply conj; reflexivity.
Qed.

Lemma scanSentences_nonempty w :
  isBlank (scanText w) = false -> scanSentences w <> [].
Proof.
  intros Hb H. unfold scanSentences in H.
  now apply buildSentenceMap_nonblank in H.
Qed.

Lemma textOf_spans spans :
  textOf (ViewContainer (map ViewSpan spans)) = concat (map textContent spans).
Proof.
  simpl. rewrite flat_map_concat_map, map_map. reflexivity.
Qed.

(** X21.  A scan that rebuilds, over text that is not blank: the editor
    then holds the container with one new span per sentence, each carrying
    the sentence attribute; its text is the concatenation of the sentence
    texts.  So, with endings that stand for themselves in the pattern, the
    text in the editor is the text the scan read with at most some
    sentence-ending characters taken out, and it is the very same text
    when the matcher read it without skipping.  The fingerprint kept
    is the one of the content before the rebuild, and one caret restore is
    queued for the next animation frame. *)
Theorem scan_rebuilds w :
  isBlank (scanText w) = false -> needsRebuild w = true ->
  exists w',
    scanAndHighlight w = Returned tt w' /\
    content (page w')
    = Container (map SpanNode (seq (length (elements (page w)))
                                   (length (scanSentences w)))) /\
    querySelectorAll (page w') (sentenceDataAttribute (options (this w')))
    = seq (length (elements (page w))) (length (scanSentences w)) /\
    scanText w' = concatTexts (scanSentences w) /\
    (literalEndings (sentenceEndings (options (this w))) = true ->
     deletes (isEnding (sentenceEndings (options (this w)))) (scanText w) (scanText w') /\
     (tidy (sentenceEndings (options (this w))) AtStart (scanText w) = true ->
      scanText w' = scanText w)) /\
    lastContentHash (this w') = FpString (scanHash w) /\
    animationFrames (page w') = animationFrames (page w) ++ [scanCaret w].
Proof.
  intros Hb Hneeds. rewrite (scanAndHighlight_nonblank w Hb), Hneeds.
  pose proof (scanSentences_nonempty w Hb) as Hne.
  destruct (rebuild_branch w (scanSentences w)
              (findActiveSentenceIndex (scanSentences w) (scanCaret w))
              (scanCaret w) (scanHash w) Hne)
    as (w1 & H1 & Hc & He & Ho & Hh & Hf & _).
  rewrite (bind_returned _ _ _ _ _ H1).
  pose proof (returns_scanStore (scanSentences w) w1) as Hret.
  pose proof (keeps_scanStore
                (fun w => (content (page w), elements (page w), options (this w),
                           lastContentHash (this w), animationFrames (page w)))
                (scanSentences w) (fun _ _ => eq_refl) (fun _ _ => eq_refl) w1) as Hk.
  destruct (scanStore (scanSentences w) w1) as [[] w2|e w2]; [|discriminate].
  simpl in Hk. injection Hk as Hc2 He2 Ho2 Hh2 Hf2.
  assert (Htext : scanText w2 = concatTexts (scanSentences w)).
  { unfold scanText.
    rewrite (rebuilt_view (page w2) (elements (page w))
               (renderedSpans (options (this w))
                  (findActiveSentenceIndex (scanSentences w) (scanCaret w)) 0
                  (scanSentences w))).
    - rewrite textOf_spans, nth_renderedSpans_text.
      unfold concatTexts. now rewrite flat_map_concat_map.
    - now rewrite renderedSpans_length, Hc2, Hc.
    - now rewrite He2, He. }
  exists w2. repeat apply conj; try congruence.
  - rewrite Ho2, Ho.
    rewrite <- (renderedSpans_length (options (this w))
                  (findActiveSentenceIndex (scanSentences w) (scanCaret w))
                  (scanSentences w) 0).
    apply rebuilt_query.
    + now rewrite renderedSpans_length, Hc2, Hc.
    + now rewrite He2, He.
    + apply renderedSpans_attribute.
  - intros _. split.
    + rewrite Htext.
      now destruct (buildSentenceMap_facts (sentenceEndings (options (this w))) _ Hb)
        as (_ & _ & _ & Hdel).
    + intros Ht. rewrite Htext. now apply concatTexts_tidy.
Qed.

(** X22.  A scan that does not rebuild, over text that is not blank,
    creates and removes nothing: the content of the editor, the number of
    spans, the element map, the fingerprint and the queue of caret restores
    are what they were. *)
Theorem scan_incremental_keeps_regions w :
  isBlank (scanText w) = false -> needsRebuild w = false ->
  exists w',
    scanAndHighlight w = Returned tt w' /\
    content (page w') = content (page w) /\
    length (elements (page w')) = length (elements (page w)) /\
    sentenceElements (this w') = sentenceElements (this w) /\
    lastContentHash (this w') = lastContentHash (this w) /\
    animationFrames (page w') = animationFrames (page w).
Proof.
  intros Hb Hneeds. rewrite (scanAndHighlight_nonblank w Hb), Hneeds.
  unfold scanBranch.
  set (frame := fun w => (content (page w), length (elements (page w)),
                          sentenceElements (this w), lastContentHash (this w),
                          animationFrames (page w))).
  assert (Hk1 : keeps frame (updateActiveSentenceFromMap (scanSentences w)
                   (findActiveSentenceIndex (scanSentences w) (scanCaret w)))).
  { apply keeps_updateActiveSentenceFromMap; try reflexivity.
    intros w0 store Hlen. unfold frame. simpl. now rewrite Hlen. }
  pose proof (returns_updateActiveSentenceFromMap (scanSentences w)
                (findActiveSentenceIndex (scanSentences w) (scanCaret w)) w) as Hr1.
  specialize (Hk1 w).
  unfold bind.
  destruct (updateActiveSentenceFromMap _ _ w) as [[] w1|e w1]; [|discriminate].
  pose proof (returns_scanStore (scanSentences w) w1) as Hr2.
  pose proof (keeps_scanStore frame (scanSentences w)
                (fun _ _ => eq_refl) (fun _ _ => eq_refl) w1) as Hk2.
  destruct (scanStore (scanSentences w) w1) as [[] w2|e w2]; [|discriminate].
  simpl in Hk1, Hk2. rewrite Hk1 in Hk2. unfold frame in Hk2.
  injection Hk2 as H1 H2 H3 H4 H5.
  exists w2. repeat apply conj; auto.
Qed.

(** ** What a scan stores and reports *)

Lemma map_set_fresh {V} (m : JSMap V) k v :
  ~ In k (map_keys m) -> map_set m k v = m ++ [(k, v)].
Proof.
  induction m as [|[k' v'] m IH]; simpl; [reflexivity|].
  intros H. destruct (str_eqb k k') eqn:Hk.
  - apply str_eqb_eq in Hk. exfalso. apply H. now left.
  - rewrite IH; [reflexivity|]. intros Hin. apply H. now right.
Qed.

Lemma storeAll_from m ss :
  NoDup (map_keys m ++ map id ss) ->
  fold_left (fun m s => map_set m (id s) s) ss m = m ++ map (fun s => (id s, s)) ss.
Proof.
  revert m. induction ss as [|s ss IH]; intros m Hnd; simpl.
  - now rewrite app_nil_r.
  - rewrite map_set_fresh.
    + rewrite IH.
      * now rewrite <- app_assoc.
      * unfold map_keys in *. rewrite map_app. simpl.
        rewrite <- app_assoc. exact Hnd.
    + intros Hin. simpl in Hnd. apply NoDup_remove_2 in Hnd.
      apply Hnd, in_or_app. now left.
Qed.

Lemma storeAll_distinct ss :
  NoDup (map id ss) -> map_values (storeAll ss) = ss.
Proof.
  intros H. unfold storeAll. rewrite (storeAll_from [] ss H). simpl.
  unfold map_values. rewrite map_map. simpl. apply map_id.
Qed.

Lemma forEach_store ss : forall w,
  exists w',
    forEach ss (fun s => modify (on_this (fun t =>
      with_sentenceMap (map_set (sentenceMap t) (id s) s) t))) w = Returned tt w' /\
    sentenceMap (this w')
    = fold_left (fun m s => map_set m (id s) s) ss (sentenceMap (this w)) /\
    options (this w') = options (this w) /\ log w' = log w.
Proof.
  induction ss as [|s ss IH]; intros w; simpl.
  - exists w. auto.
  - unfold bind at 1, modify at 1.
    destruct (IH (on_this (fun t => with_sentenceMap (map_set (sentenceMap t) (id s) s) t) w))
      as (w' & H & Hm & Ho & Hl).
    exists w'. auto.
Qed.

Lemma scanStore_spec ss w :
  exists w',
    scanStore ss w = Returned tt w' /\
    sentenceMap (this w') = storeAll ss /\
    (onSentenceChange (options (this w)) = true ->
     In (SentenceChange (map_values (storeAll ss))) (log w')) /\
    (onSentenceChange (options (this w)) = false ->
     forall l, In (SentenceChange l) (log w') -> In (SentenceChange l) (log w)).
Proof.
  unfold scanStore. unfold bind at 1, modify at 1.
  destruct (forEach_store ss (on_this (with_sentenceMap []) w))
    as (w1 & H1 & Hm & Ho & Hl).
  rewrite (bind_returned _ _ _ _ _ H1).
  simpl in Hm, Ho, Hl. fold (storeAll ss) in Hm.
  unfold opt, bind, gets, when, modify, ret, scrollCaretToCenter, bind, gets, modify.
  rewrite Ho.
  destruct (onSentenceChange (options (this w))); simpl; rewrite ?Ho;
    destruct (autoScroll (options (this w))); simpl;
    try destruct (selection (page w1)) as [|[|] o]; simpl;
    eexists; (split; [reflexivity|]); simpl; rewrite ?Hm, ?Hl;
    (split; [reflexivity|]);
    (split;
     [ intros Hon; try discriminate; rewrite ?in_app_iff; simpl; auto
     | intros Hoff l Hin; try discriminate;
       rewrite ?in_app_iff in Hin; simpl in Hin;
       intuition (try discriminate; auto) ]).
Qed.

(** X23.  A scan over text that is not blank replaces the collection by
    the sentences of the tokenizer, stored under their ids in order; when
    the ids are pairwise distinct [getSentences] then returns exactly these
    sentences; and an [onSentenceChange] callback is called with the
    sentences of the collection. *)
Theorem scan_stores_sentences w :
  isBlank (scanText w) = false ->
  exists w',
    scanAndHighlight w = Returned tt w' /\
    sentenceMap (this w') = storeAll (scanSentences w) /\
    (NoDup (map id (scanSentences w)) ->
     getSentences w' = Returned (scanSentences w) w') /\
    (onSentenceChange (options (this w)) = true ->
     In (SentenceChange (map_values (storeAll (scanSentences w)))) (log w')).
Proof.
  intros Hb. rewrite (scanAndHighlight_nonblank w Hb).
  set (ss := scanSentences w).
  set (ai := findActiveSentenceIndex ss (scanCaret w)).
  assert (Hbranch : exists w1,
            scanBranch (needsRebuild w) ss ai (scanCaret w) (scanHash w) w
            = Returned tt w1 /\ options (this w1) = options (this w)).
  { destruct (needsRebuild w).
    - pose proof (scanSentences_nonempty w Hb) as Hne.
      destruct (rebuild_branch w ss ai (scanCaret w) (scanHash w) Hne)
        as (w1 & H1 & _ & _ & Ho & _).
      now exists w1.
    - unfold scanBranch.
      pose proof (returns_updateActiveSentenceFromMap ss ai w) as Hr.
      pose proof (keeps_updateActiveSentenceFromMap (fun w => options (this w))
                    (fun _ _ _ => eq_refl) (fun _ _ => eq_refl) (fun _ _ => eq_refl)
                    ss ai w) as Hk.
      destruct (updateActiveSentenceFromMap ss ai w) as [[] w1|e w1]; [|discriminate].
      now exists w1. }
  destruct Hbranch as (w1 & H1 & Ho).
  rewrite (bind_returned _ _ _ _ _ H1).
  destruct (scanStore_spec ss w1) as (w2 & H2 & Hm & Hcb & _).
  exists w2. repeat apply conj; auto.
  - intros Hnd. unfold getSentences, gets. rewrite Hm, (storeAll_distinct _ Hnd).
    f_equal. rewrite <- (map_id ss) at 2. apply map_ext, copySentence_id.
  - intros Hon. apply Hcb. now rewrite Ho.
Qed.

Lemma scan_rebuilds_witness :
  isBlank (scanText (world_of scanned)) = false /\
  needsRebuild (world_of scanned) = true /\
  literalEndings (sentenceEndings (options (this (world_of scanned)))) = true /\
  exists w',
    scanAndHighlight (world_of scanned) = Returned tt w' /\
    scanText w' = scanText (world_of scanned).
Proof.
  assert (Hb : isBlank (scanText (world_of scanned)) = false) by (vm_compute; reflexivity).
  assert (Hn : needsRebuild (world_of scanned) = true) by (vm_compute; reflexivity).
  assert (Hl : literalEndings (sentenceEndings (options (this (world_of scanned)))) = true)
    by (vm_compute; reflexivity).
  split; [exact Hb|]. split; [exact Hn|]. split; [exact Hl|].
  destruct (scan_rebuilds (world_of scanned) Hb Hn)
    as (w' & H & _ & _ & _ & Ht & _).
  exists w'. split; [exact H|]. apply (proj2 (Ht Hl)). vm_compute. reflexivity.
Defined.

Lemma scan_incremental_keeps_regions_witness :
  isBlank (scanText (world_of rendered)) = false /\
  needsRebuild (world_of rendered) = false /\
  exists w',
    scanAndHighlight (world_of rendered) = Returned tt w' /\
    content (page w') = content (page (world_of rendered)).
Proof.
  assert (Hb : isBlank (scanText (world_of rendered)) = false) by (vm_compute; reflexivity).
  assert (Hn : needsRebuild (world_of rendered) = false) by (vm_compute; reflexivity).
  split; [exact Hb|]. split; [exact Hn|].
  destruct (scan_incremental_keeps_regions (world_of rendered) Hb Hn)
    as (w' & H & Hc & _).
  exists w'. split; [exact H | exact Hc].
Defined.

Lemma scan_stores_sentences_witness :
  isBlank (scanText (world_of scanned)) = false /\
  NoDup (map id (scanSentences (world_of scanned))) /\
  exists w',
    scanAndHighlight (world_of scanned) = Returned tt w' /\
    getSentences w' = Returned (scanSentences (world_of scanned)) w'.
Proof.
  assert (Hb : isBlank (scanText (world_of scanned)) = false) by (vm_compute; reflexivity).
  assert (Hnd : NoDup (map id (scanSentences (world_of scanned)))).
  { vm_compute. repeat constructor; simpl; intuition discriminate. }
  split; [exact Hb|]. split; [exact Hnd|].
  destruct (scan_stores_sentences (world_of scanned) Hb) as (w' & H & _ & Hg & _).
  exists w'. split; [exact H | exact (Hg Hnd)].
Defined.

(** ** The active reference after a scan *)

Lemma rebuildSpans_active ai ss : forall i w w' refs,
  rebuildSpans ai i ss w = Returned refs w' ->
  (forall s, 0 <= i <= ai -> nth_error ss (Z.to_nat (ai - i)) = Some s ->
             activeSentenceId (this w') = Some (id s)) /\
  (ai < i \/ i + len ss <= ai \/ ai < 0 ->
   activeSentenceId (this w') = activeSentenceId (this w)).
Proof.
  induction ss as [|s ss IH]; intros i w w' refs H.
  - simpl in H. injection H as _ <-. split; [|reflexivity].
    intros s _ Hn. destruct (Z.to_nat (ai - i)); discriminate.
  - simpl in H. unfold bind at 1 in H.
    destruct (rebuildSpan ai i s w) as [e w1|e w1] eqn:H1; [|discriminate].
    unfold bind at 1 in H.
    destruct (rebuildSpans ai (i + 1) ss w1) as [es w2|e' w2] eqn:H2; [|discriminate].
    injection H as _ <-.
    destruct (IH _ _ _ _ H2) as [IHhit IHmiss].
    assert (Hstep : activeSentenceId (this w1)
                    = if (i =? ai) && (0 <=? ai) then Some (id s)
                      else activeSentenceId (this w)).
    { unfold rebuildSpan, opt, bind, gets, modify, ret, when in H1.
      destruct ((i =? ai) && (0 <=? ai)); injection H1 as _ <-; reflexivity. }
    unfold len in *. cbn [length] in *. split.
    + intros s' Hi Hn. destruct (Z.eq_dec i ai) as [Heq | Hneq].
      * subst i. rewrite Z.sub_diag in Hn. simpl in Hn. injection Hn as <-.
        rewrite IHmiss by lia. rewrite Hstep.
        rewrite Z.eqb_refl.
        now replace (0 <=? ai) with true by (symmetry; apply Z.leb_le; lia).
      * apply IHhit; [lia|].
        replace (Z.to_nat (ai - i)) with (S (Z.to_nat (ai - (i + 1)))) in Hn by lia.
        exact Hn.
    + intros Hout. rewrite IHmiss by lia. rewrite Hstep.
      destruct (i =? ai) eqn:Heq; [|reflexivity].
      apply Z.eqb_eq in Heq.
      destruct (0 <=? ai) eqn:Hpos; [|reflexivity].
      apply Z.leb_le in Hpos. lia.
Qed.

Lemma moveActiveMarker_active newId i w :
  activeSentenceId (this (world_of (moveActiveMarker newId i w))) = Some newId.
Proof.
  unfold moveActiveMarker, bind, ret, opt, gets, when, modify,
    element_classList_remove, element_removeAttribute,
    element_classList_add, element_setAttribute, updateElement, bind, modify.
  destruct (truthy (activeSentenceId (this w)));
    [destruct (map_get (sentenceElements (this w)) _)|];
    simpl;
    destruct (map_get (sentenceElements (this w)) newId);
    simpl;
    destruct (onActiveSentenceChange (options (this w))); reflexivity.
Qed.

(** X24.  After a scan over text that is not blank, the active id is the
    id of the sentence that the caret resolution selected among the new
    sentences.  When it selected none (-1) the active id is left as it was,
    whatever it was. *)
Theorem scan_active_id w :
  isBlank (scanText w) = false ->
  exists w',
    scanAndHighlight w = Returned tt w' /\
    (forall s,
        0 <= findActiveSentenceIndex (scanSentences w) (scanCaret w) ->
        nth_error (scanSentences w)
          (Z.to_nat (findActiveSentenceIndex (scanSentences w) (scanCaret w))) = Some s ->
        activeSentenceId (this w') = Some (id s)) /\
    (findActiveSentenceIndex (scanSentences w) (scanCaret w) = -1 ->
     activeSentenceId (this w') = activeSentenceId (this w)).
Proof.
  intros Hb. rewrite (scanAndHighlight_nonblank w Hb).
  set (ss := scanSentences w).
  set (ai := findActiveSentenceIndex ss (scanCaret w)).
  assert (Hbranch : exists w1,
            scanBranch (needsRebuild w) ss ai (scanCaret w) (scanHash w) w
            = Returned tt w1 /\
            (forall s, 0 <= ai -> nth_error ss (Z.to_nat ai) = Some s ->
                       activeSentenceId (this w1) = Some (id s)) /\
            (ai = -1 -> activeSentenceId (this w1) = activeSentenceId (this w))).
  { destruct (needsRebuild w).
    - pose proof (scanSentences_nonempty w Hb) as Hne. fold ss in Hne.
      unfold scanBranch, rebuildHighlights.
      replace (length ss =? 0)%nat with false
        by (symmetry; apply Nat.eqb_neq; destruct ss; [congruence | discriminate]).
      unfold bind at 1. unfold bind at 1. unfold modify at 1. unfold bind at 1.
      pose proof (returns_rebuildSpans ai ss 0 (on_this (with_sentenceElements []) w))
        as Hr.
      destruct (rebuildSpans ai 0 ss (on_this (with_sentenceElements []) w))
        as [refs w1|e w1] eqn:H1; [|discriminate].
      destruct (rebuildSpans_active ai ss 0 _ _ _ H1) as [Hhit Hmiss].
      eexists. split; [reflexivity|]. simpl. split.
      + intros s Hpos Hn. apply Hhit; [lia|]. now rewrite Z.sub_0_r.
      + intros Hm. rewrite Hmiss by lia. reflexivity.
    - unfold scanBranch, updateActiveSentenceFromMap.
      destruct (ai <? 0) eqn:Hlo; simpl.
      + exists w. split; [reflexivity|]. apply Z.ltb_lt in Hlo. split; [lia | auto].
      + apply Z.ltb_ge in Hlo.
        destruct (findActiveSentenceIndex_bounds (scanCaret w) ss) as [Hm | Hr];
          fold ai in Hm || fold ai in Hr; [lia|].
        replace (len ss <=? ai) with false by (symmetry; apply Z.leb_gt; lia).
        destruct (idAt_in_range ss ai Hr) as [s Hs].
        rewrite (idAt_some _ _ _ Hs). unfold bind at 1, ret at 1.
        pose proof (returns_moveActiveMarker (id s) ai w) as Hret.
        pose proof (moveActiveMarker_active (id s) ai w) as Hact.
        destruct (moveActiveMarker (id s) ai w) as [[] w1|e w1]; [|discriminate].
        exists w1. split; [reflexivity|]. split; [|lia].
        intros s' _ Hs'. rewrite Hs in Hs'. injection Hs' as <-. exact Hact. }
  destruct Hbranch as (w1 & H1 & Hhit & Hmiss).
  rewrite (bind_returned _ _ _ _ _ H1).
  pose proof (returns_scanStore ss w1) as Hret.
  pose proof (keeps_scanStore (fun w => activeSentenceId (this w)) ss
                (fun _ _ => eq_refl) (fun _ _ => eq_refl) w1) as Hk.
  destruct (scanStore ss w1) as [[] w2|e w2]; [|discriminate].
  simpl in Hk. exists w2. split; [reflexivity|]. rewrite Hk. auto.
Qed.

Lemma scan_active_id_witness :
  isBlank (scanText (world_of scanned)) = false /\
  exists w', scanAndHighlight (world_of scanned) = Returned tt w' /\
    activeSentenceId (this w') = Some (generateSentenceId 0 13 (lit "Hello world. ") false).
Proof.
  assert (Hb : isBlank (scanText (world_of scanned)) = false) by (vm_compute; reflexivity).
  split; [exact Hb|].
  destruct (scan_active_id (world_of scanned) Hb) as (w' & H & Hhit & _).
  exists w'. split; [exact H|].
  apply (Hhit (mkSentence (generateSentenceId 0 13 (lit "Hello world. ") false)
                          (lit "Hello world. ") 0 13 false));
    vm_compute; [discriminate | reflexivity].
Defined.

(** ** Properties proved for every state, at a state *)

Lemma scanAndHighlight_blank_witness :
  isBlank (textOf (view (page (world_of
    (andThen scanned (userEdits (Markup (lit "  ") 2) 0)))))) = true /\
  exists w',
    scanAndHighlight (world_of (andThen scanned (userEdits (Markup (lit "  ") 2) 0)))
    = Returned tt w' /\
    sentenceMap (this w') = [] /\
    log w' = log (world_of (andThen scanned (userEdits (Markup (lit "  ") 2) 0))).
Proof.
  assert (Hb : isBlank (textOf (view (page (world_of
            (andThen scanned (userEdits (Markup (lit "  ") 2) 0)))))) = true)
    by (vm_compute; reflexivity).
  split; [exact Hb|].
  destruct (scanAndHighlight_blank _ Hb) as (w' & H & Hm & _ & _ & _ & Hl).
  exists w'. auto.
Defined.

Lemma updateActiveSentence_same_id_witness :
  updateActiveSentence (world_of rendered) = Returned tt (world_of rendered).
Proof.
  apply (updateActiveSentence_same_id (world_of rendered)
           (mkSentence (generateSentenceId 0 13 (lit "Hello world. ") false)
                       (lit "Hello world. ") 0 13 false));
    vm_compute; reflexivity.
Defined.

Lemma destroy_throws_witness :
  sentenceMap (this (world_of scanned)) <> [] /\
  returned (destroy (world_of scanned)) = false.
Proof.
  assert (Hne : sentenceMap (this (world_of scanned)) <> [])
    by (vm_compute; discriminate).
  split; [exact Hne|].
  destruct (destroy_throws (world_of scanned) Hne) as (w' & -> & _).
  reflexivity.
Defined.

(** ** The caret *)

Lemma DomNode_induction (P : DomNode -> Prop) :
  (forall data, P (DomText data)) ->
  (forall childNodes, Forall P childNodes -> P (DomElement childNodes)) ->
  forall node, P node.
Proof.
  intros Ht He. fix IH 1. intros [data|childNodes]; [apply Ht|].
  apply He. induction childNodes as [|c r IHr]; constructor; [apply IH | exact IHr].
Qed.

Lemma traverse_found target node c p :
  traverse target node (c, Some p) = (c, Some p).
Proof. destruct node; reflexivity. Qed.

Lemma traverse_children_found target childNodes c p :
  fold_left (fun st' child => traverse target child st') childNodes (c, Some p)
  = (c, Some p).
Proof.
  induction childNodes as [|x r IH]; simpl; [reflexivity|].
  now rewrite traverse_found.
Qed.

Lemma domText_no_text_nodes r :
  Forall (fun node => hasTextNode node = false -> domText node = []) r ->
  existsb hasTextNode r = false -> flat_map domText r = [].
Proof.
  induction 1 as [|c r Hc _ IHr]; simpl; [reflexivity|].
  intros H. apply orb_false_iff in H as [H1 H2].
  now rewrite (Hc H1), (IHr H2).
Qed.

Lemma domText_no_text node : hasTextNode node = false -> domText node = [].
Proof.
  induction node as [data|childNodes IH] using DomNode_induction; [discriminate|].
  simpl. now apply domText_no_text_nodes.
Qed.

Lemma traverse_children_spec target r :
  Forall (fun node => forall cur,
            if hasTextNode node && (target <=? cur + len (domText node))
            then snd (traverse target node (cur, None)) = Some (Z.max cur target)
            else traverse target node (cur, None) = (cur + len (domText node), None)) r ->
  forall cur,
    if existsb hasTextNode r && (target <=? cur + len (flat_map domText r))
    then snd (fold_left (fun st' child => traverse target child st') r (cur, None))
         = Some (Z.max cur target)
    else fold_left (fun st' child => traverse target child st') r (cur, None)
         = (cur + len (flat_map domText r), None).
Proof.
  induction 1 as [|c r Hc _ IHr]; intros cur.
  - simpl. f_equal. unfold len. simpl. lia.
  - cbn [fold_left existsb flat_map]. specialize (Hc cur).
    assert (Hlen : len (domText c ++ flat_map domText r)
                   = len (domText c) + len (flat_map domText r))
      by (unfold len; rewrite length_app; lia).
    rewrite Hlen.
    assert (Hpos : 0 <= len (flat_map domText r)) by (unfold len; lia).
    assert (Hposc : 0 <= len (domText c)) by (unfold len; lia).
    destruct (hasTextNode c) eqn:Htc; simpl in Hc |- *.
    + destruct (target <=? cur + len (domText c)) eqn:Hle.
      * destruct (traverse target c (cur, None)) as [c' o]. simpl in Hc. subst o.
        rewrite traverse_children_found.
        apply Z.leb_le in Hle.
        now replace (target <=? cur + (len (domText c) + len (flat_map domText r)))
          with true by (symmetry; apply Z.leb_le; lia).
      * rewrite Hc. specialize (IHr (cur + len (domText c))).
        apply Z.leb_gt in Hle. rewrite Z.add_assoc.
        destruct (existsb hasTextNode r) eqn:Htr; simpl in IHr.
        -- destruct (target <=? cur + len (domText c) + len (flat_map domText r));
             [rewrite IHr; f_equal; lia | exact IHr].
        -- assert (Hr : flat_map domText r = []).
           { apply domText_no_text_nodes; [|exact Htr].
             apply Forall_forall. intros x _. apply domText_no_text. }
           rewrite Hr in *. unfold len in IHr |- *. simpl in IHr |- *.
           replace (target <=? cur + Z.of_nat (length (domText c)) + 0) with false
             by (symmetry; apply Z.leb_gt; unfold len in Hle; lia).
           exact IHr.
    + rewrite Hc. rewrite (domText_no_text c Htc). unfold len at 1 2. simpl.
      rewrite Z.add_0_r. apply IHr.
Qed.

(** The walk from [currentOffset] over a subtree: it stops in the first
    text node that reaches the target, at [max currentOffset target];
    otherwise it leaves [currentOffset] advanced by the text passed. *)
Lemma traverse_spec target node : forall cur,
  if hasTextNode node && (target <=? cur + len (domText node))
  then snd (traverse target node (cur, None)) = Some (Z.max cur target)
  else traverse target node (cur, None) = (cur + len (domText node), None).
Proof.
  induction node as [data|childNodes IH] using DomNode_induction; intros cur.
  - simpl. destruct (target <=? cur + len data) eqn:Hle; simpl; [|reflexivity].
    f_equal. lia.
  - cbn [traverse hasTextNode domText]. now apply traverse_children_spec.
Qed.

(** The walk from the root ends at the target clamped to the text. *)
Lemma caretAfterSet_clamp root targetOffset :
  caretAfterSet root targetOffset
  = if targetOffset <=? len (domText root) then Z.max 0 targetOffset
    else len (domText root).
Proof.
  unfold caretAfterSet. pose proof (traverse_spec targetOffset root 0) as Hs.
  rewrite Z.add_0_l in Hs.
  destruct (hasTextNode root) eqn:Ht; simpl in Hs.
  - destruct (targetOffset <=? len (domText root)); now rewrite Hs.
  - rewrite Hs. simpl. rewrite (domText_no_text root Ht). unfold len. simpl.
    destruct (targetOffset <=? 0) eqn:Hle; [|reflexivity].
    apply Z.leb_le in Hle. lia.
Qed.

(** X25.  Whatever the tree of elements and text nodes under the editor,
    [setCaretOffset] leaves the caret at the target offset when that is
    between 0 and the length of the text, at 0 for a negative target and at
    the end of the text for a target past it.  So restoring an offset that
    was measured in the same text puts the caret back where it was. *)
Theorem setCaretOffset_clamps root targetOffset :
  caretAfterSet root targetOffset
  = (if targetOffset <=? len (domText root) then Z.max 0 targetOffset
     else len (domText root)) /\
  (0 <= targetOffset <= len (domText root) ->
   caretAfterSet root targetOffset = targetOffset).
Proof.
  pose proof (caretAfterSet_clamp root targetOffset) as H.
  split; [exact H|].
  intros [Hlo Hhi]. rewrite H.
  replace (targetOffset <=? len (domText root)) with true
    by (symmetry; apply Z.leb_le; lia).
  lia.
Qed.

(** The method on the editor of the page does what the walk does, for
    every tree that has the text of the editor. *)
Lemma setCaretOffset_walk root targetOffset w :
  domText root = textOf (view (page w)) ->
  exists w',
    setCaretOffset targetOffset w = Returned tt w' /\
    selection (page w') = Caret true (caretAfterSet root targetOffset).
Proof.
  intros Ht. unfold setCaretOffset, getPlainText, bind, gets, modify.
  eexists. split; [reflexivity|]. simpl.
  rewrite (caretAfterSet_clamp root targetOffset), Ht. reflexivity.
Qed.

(** ** The deprecated lookup *)

(** X26.  [findActiveSentenceId] returns [null] exactly when the caret
    resolution over the stored sentences gives -1, and otherwise the id of
    the stored sentence at the index it gives; it changes nothing. *)
Theorem findActiveSentenceId_spec caretOffset w :
  let sentences := map_values (sentenceMap (this w)) in
  let activeIndex := findActiveSentenceIndex sentences caretOffset in
  (activeIndex = -1 /\ findActiveSentenceId caretOffset w = Returned None w) \/
  (exists s, 0 <= activeIndex /\
             nth_error sentences (Z.to_nat activeIndex) = Some s /\
             findActiveSentenceId caretOffset w = Returned (Some (id s)) w).
Proof.
  intros sentences activeIndex.
  unfold findActiveSentenceId. rewrite bind_gets.
  fold sentences. fold activeIndex.
  destruct (findActiveSentenceIndex_bounds caretOffset sentences) as [Hm | Hr];
    fold activeIndex in Hm || fold activeIndex in Hr.
  - left. rewrite Hm. auto.
  - right. destruct (idAt_in_range sentences activeIndex Hr) as [s Hs].
    exists s. split; [lia|]. split; [exact Hs|].
    replace (0 <=? activeIndex) with true by (symmetry; apply Z.leb_le; lia).
    replace (activeIndex <? len sentences) with true by (symmetry; apply Z.ltb_lt; lia).
    simpl. now rewrite (idAt_some _ _ _ Hs).
Qed.

(** ** Construction *)

Lemma addEventListener_listeners t ty h w :
  exists w',
    addEventListener t ty h w = Returned tt w' /\
    this w' = this w /\ log w' = log w /\
    In (mkListener t ty h) (listeners (page w')) /\
    (forall l, In l (listeners (page w)) -> In l (listeners (page w'))) /\
    (editorClassList (page w'), content (page w'), timers (page w'),
     nextTimerId (page w'), styleInjected (page w'))
    = (editorClassList (page w), content (page w), timers (page w),
       nextTimerId (page w), styleInjected (page w)).
Proof.
  unfold addEventListener, modify. eexists. split; [reflexivity|]. simpl.
  destruct (existsb (listener_eqb (mkListener t ty h)) (listeners (page w))) eqn:Hex;
    simpl; repeat apply conj; auto.
  - apply existsb_exists in Hex as (l & Hin & Heq).
    assert (l = mkListener t ty h) as <-; [|exact Hin].
    destruct l as [t' ty' h']. unfold listener_eqb in Heq. simpl in Heq.
    destruct t, t', ty, ty', h, h'; simpl in Heq; try discriminate; reflexivity.
  - apply in_or_app. right. now left.
  - intros l Hl. apply in_or_app. now left.
Qed.

(** X27.  On an element that is not content-editable the constructor
    throws and has touched nothing.  On one that is, it returns at once
    without scanning: the collection is still empty and the content of the
    editor untouched, the editor carries the container class, the six
    listeners are registered, and the first scan is a timer of 10 ms that
    [updateTimer] does not name. *)
Theorem construct_spec b o :
  (isContentEditable b = false ->
   construct b o
   = Thrown (Error_ (lit "SentenceHighlighter: Element must be contenteditable"))
            (mkWorld (newInstance o) b [])) /\
  (isContentEditable b = true ->
   exists w,
     construct b o = Returned tt w /\
     isInitialized (this w) = true /\ sentenceMap (this w) = [] /\
     updateTimer (this w) = None /\
     content (page w) = content b /\
     In (containerClass o) (editorClassList (page w)) /\
     (forall l, In l attachedListeners -> In l (listeners (page w))) /\
     timers (page w) = timers b ++ [mkTimer (nextTimerId b) 10 CallScanAndHighlight]).
Proof.
  split; intros He; unfold construct; rewrite He; simpl; [reflexivity|].
  unfold init, injectCSS, opt, attachEvents.
  rewrite bind_gets. cbn [isInitialized this newInstance].
  unfold bind at 1, modify at 1. rewrite bind_gets.
  unfold bind at 1, modify at 1. rewrite bind_gets.
  set (w0 := on_page _ _).
  assert (H0 : exists w1,
             when (negb (focusModeEnabled (this w0)))
               (modify (on_page (fun b0 =>
                  with_editorClassList (classList_add focusOffClass (editorClassList b0)) b0)))
               w0 = Returned tt w1 /\
             this w1 = newInstance o /\ log w1 = [] /\
             listeners (page w1) = listeners b /\
             In (containerClass o) (editorClassList (page w1)) /\
             (content (page w1), timers (page w1), nextTimerId (page w1))
             = (content b, timers b, nextTimerId b)).
  { unfold when, modify. destruct (negb (focusModeEnabled (this w0)));
      eexists; (split; [reflexivity|]); simpl; repeat apply conj; auto.
    - apply in_or_app || idtac.
      unfold classList_add at 1.
      destruct (existsb _ _); [apply classList_add_in|].
      apply in_or_app. left. apply classList_add_in.
    - apply classList_add_in. }
  destruct H0 as (w1 & H1 & Ht1 & _ & _ & Hcls & Hrest).
  rewrite (bind_returned _ _ _ _ _ H1).
  destruct (addEventListener_listeners Editor input BoundHandleInput w1)
    as (w2 & H2 & Ht2 & _ & Hin2 & Hsub2 & Hf2).
  destruct (addEventListener_listeners Editor keydown KeydownArrow w2)
    as (w3 & H3 & Ht3 & _ & Hin3 & Hsub3 & Hf3).
  destruct (addEventListener_listeners Editor click BoundHandleNavigation w3)
    as (w4 & H4 & Ht4 & _ & Hin4 & Hsub4 & Hf4).
  destruct (addEventListener_listeners Editor keyup KeyupArrow w4)
    as (w5 & H5 & Ht5 & _ & Hin5 & Hsub5 & Hf5).
  destruct (addEventListener_listeners Document selectionchange BoundHandleCaretMove w5)
    as (w6 & H6 & Ht6 & _ & Hin6 & Hsub6 & Hf6).
  destruct (addEventListener_listeners Editor focus FocusArrow w6)
    as (w7 & H7 & Ht7 & _ & Hin7 & Hsub7 & Hf7).
  assert (Hattach : (addEventListener Editor input BoundHandleInput ;;
                     addEventListener Editor keydown KeydownArrow ;;
                     addEventListener Editor click BoundHandleNavigation ;;
                     addEventListener Editor keyup KeyupArrow ;;
                     addEventListener Document selectionchange BoundHandleCaretMove ;;
                     addEventListener Editor focus FocusArrow) w1 = Returned tt w7).
  { rewrite (bind_returned _ _ _ _ _ H2), (bind_returned _ _ _ _ _ H3),
      (bind_returned _ _ _ _ _ H4), (bind_returned _ _ _ _ _ H5),
      (bind_returned _ _ _ _ _ H6). exact H7. }
  rewrite (bind_returned _ _ _ _ _ Hattach).
  unfold setTimeout, bind, gets, modify, ret.
  eexists. split; [reflexivity|]. simpl.
  injection Hf2 as Ha2 Hb2 Hc2 Hd2 _. injection Hf3 as Ha3 Hb3 Hc3 Hd3 _.
  injection Hf4 as Ha4 Hb4 Hc4 Hd4 _. injection Hf5 as Ha5 Hb5 Hc5 Hd5 _.
  injection Hf6 as Ha6 Hb6 Hc6 Hd6 _. injection Hf7 as Ha7 Hb7 Hc7 Hd7 _.
  injection Hrest as Hr1 Hr2 Hr3.
  repeat apply conj.
  - reflexivity.
  - rewrite Ht7, Ht6, Ht5, Ht4, Ht3, Ht2, Ht1. reflexivity.
  - rewrite Ht7, Ht6, Ht5, Ht4, Ht3, Ht2, Ht1. reflexivity.
  - congruence.
  - rewrite Ha7, Ha6, Ha5, Ha4, Ha3, Ha2. exact Hcls.
  - intros l [<- | [<- | [<- | [<- | [<- | [<- | []]]]]]]; auto 10.
  - rewrite Hc7, Hc6, Hc5, Hc4, Hc3, Hc2, Hr2.
    rewrite Hd7, Hd6, Hd5, Hd4, Hd3, Hd2, Hr3. reflexivity.
Qed.

Lemma construct_spec_witness :
  isContentEditable (freshPage helloWorld 0) = true /\
  exists w,
    construct (freshPage helloWorld 0) (defaultOptions true true) = Returned tt w /\
    sentenceMap (this w) = [] /\
    timers (page w) = [mkTimer 0 10 CallScanAndHighlight].
Proof.
  split; [reflexivity|].
  destruct (proj2 (construct_spec (freshPage helloWorld 0) (defaultOptions true true))
                  eq_refl)
    as (w & H & _ & Hm & _ & _ & _ & _ & Ht).
  exists w. auto.
Defined.

Lemma setCaretOffset_clamps_witness :
  0 <= 13 <= len (domText (DomElement [DomElement [DomText (lit "Hello world. ")];
                                       DomElement [DomText (lit "How are you?")]])) /\
  caretAfterSet (DomElement [DomElement [DomText (lit "Hello world. ")];
                             DomElement [DomText (lit "How are you?")]]) 13 = 13.
Proof.
  assert (H : 0 <= 13 <= len (domText
                (DomElement [DomElement [DomText (lit "Hello world. ")];
                             DomElement [DomText (lit "How are you?")]])))
    by (vm_compute; split; discriminate).
  split; [exact H|].
  exact (proj2 (setCaretOffset_clamps _ 13) H).
Defined.
